(** * Word retrieval: aligned word pairs, pooling, margin scoring, accuracy

    A shallow embedding of [wr_data.py] and [wr_hidden.py].

    Python exceptions are values of [result].  Tensor entries are real
    numbers: the rounding of the tensor dtype, NaN and the infinities are
    outside the model, so a statement about a quotient is meaningful only
    where its divisor is not zero. *)

From Stdlib Require Import String ZArith Lia Bool Arith List Permutation.
From Stdlib Require Import Reals Lra.
Import ListNotations.

Set Implicit Arguments.

(** ** Exceptions *)

Inductive exn : Set :=
| AssertionError
| IndexError
| ValueError
| RuntimeError.

Inductive result (A : Type) : Type :=
| Ok (a : A)
| Raise (e : exn).

Arguments Ok {A} a.
Arguments Raise {A} e.

Definition bind {A B : Type} (m : result A) (f : A -> result B) : result B :=
  match m with
  | Ok a => f a
  | Raise e => Raise e
  end.

Notation "x <- m ;; k" := (bind m (fun x => k))
  (at level 61, m at next level, right associativity).

(** [[f(x) for x in l]] where [f] may raise: the first exception wins. *)
Fixpoint traverse {A B : Type} (f : A -> result B) (l : list A) : result (list B) :=
  match l with
  | [] => Ok []
  | x :: l' => y <- f x ;; ys <- traverse f l' ;; Ok (y :: ys)
  end.

(** [l[i]] for a non-negative index. *)
Definition getitem {A : Type} (l : list A) (i : nat) : result A :=
  match nth_error l i with
  | Some x => Ok x
  | None => Raise IndexError
  end.

(** ** wr_data.py *)

Module WrData.

Section Sampling.

(** The state of Python's global random generator. *)
Variable rng : Type.

(** A draw of [random.sample(range(n), k)] for [k <= n], with the next
    generator state. *)
Variable draw : rng -> nat -> nat -> list nat * rng.

(** [random.sample(range(n), k)]: [ValueError] when the sample is larger
    than the population or negative. *)
Definition random_sample (g : rng) (n : nat) (k : Z) : result (list nat) * rng :=
  if ((k <? 0) || (Z.of_nat n <? k))%Z then (Raise ValueError, g)
  else let (idx, g') := draw g n (Z.to_nat k) in (Ok idx, g').

Definition sample_pairs (g : rng) (base target : list string) (sample_size : Z)
  : result (list string * list string) * rng :=
  if negb (length base =? length target) then (Raise AssertionError, g)
  else
    let sample_size := Z.min sample_size (Z.of_nat (length base)) in
    match random_sample g (length base) sample_size with
    | (Raise e, g') => (Raise e, g')
    | (Ok indices, g') =>
        (sampled_base <- traverse (getitem base) indices ;;
         sampled_target <- traverse (getitem target) indices ;;
         Ok (sampled_base, sampled_target), g')
    end.

(** The library's contract: [k] distinct elements of the population. *)
Definition sampler_contract : Prop :=
  forall g n k, k <= n ->
    length (fst (draw g n k)) = k /\
    NoDup (fst (draw g n k)) /\
    Forall (fun i => i < n) (fst (draw g n k)).

End Sampling.

(** Pairwise alignment of an output with its source: the two outputs have
    one length, and every output position holds the base and the target of
    one source index. *)
Definition aligned (base target out_base out_target : list string) : Prop :=
  length out_base = length out_target /\
  forall p, p < length out_base ->
    exists j, j < length base /\ j < length target /\
      nth_error out_base p = nth_error base j /\
      nth_error out_target p = nth_error target j.

(** The tokenizer enters [filter_pairs] only through the number of tokens
    of a word, [tokenizer(w)["input_ids"].shape[1]]. *)
Fixpoint filter_pairs_loop (tokenizer : string -> nat) (target : list string)
    (i : nat) (base : list string) (filtered_base filtered_target : list string)
  : result (list string * list string) :=
  match base with
  | [] => Ok (filtered_base, filtered_target)
  | base_word :: rest =>
      let base_tokens := tokenizer base_word in
      target_i <- getitem target i ;;
      let target_tokens := tokenizer target_i in
      if (base_tokens =? 1) && (target_tokens =? 1)
      then filter_pairs_loop tokenizer target (S i) rest
             (filtered_base ++ [base_word]) (filtered_target ++ [target_i])
      else filter_pairs_loop tokenizer target (S i) rest filtered_base filtered_target
  end.

Definition filter_pairs (base target : list string) (tokenizer : string -> nat)
  : result (list string * list string) :=
  filter_pairs_loop tokenizer target 0 base [] [].

End WrData.

(** ** The fragment of torch used by wr_hidden.py *)

Module Torch.

#[local] Open Scope R_scope.

(** A 2-D tensor carries its shape, so that [size(1)] of a tensor without
    rows is still defined. *)
Record Tensor2 (A : Type) : Type := mkTensor2 {
  size0 : nat;
  size1 : nat;
  rows : list (list A)
}.

(** A 3-D tensor [(dim0, dim1, dim2)]. *)
Record Tensor3 : Type := mkTensor3 {
  dim0 : nat;
  dim1 : nat;
  dim2 : nat;
  vals : list (list (list R))
}.

Definition Tensor : Type := Tensor2 R.

Definition has_shape {A : Type} (t : Tensor2 A) (n m : nat) : Prop :=
  size0 t = n /\ size1 t = m /\
  length (rows t) = n /\ Forall (fun r => length r = m) (rows t).

Definition has_shape3 (t : Tensor3) (b l h : nat) : Prop :=
  dim0 t = b /\ dim1 t = l /\ dim2 t = h /\
  length (vals t) = b /\
  Forall (fun s => length s = l /\ Forall (fun v => length v = h) s) (vals t).

(** Entry [t[i, j]]. *)
Definition entry (t : Tensor) (i j : nat) : R := nth j (nth i (rows t) []) 0.

Definition Rsum (l : list R) : R := fold_right Rplus 0 l.

Definition map2 {A B C : Type} (f : A -> B -> C) (l1 : list A) (l2 : list B) : list C :=
  map (fun p => f (fst p) (snd p)) (combine l1 l2).

(** Column [j] of a list of rows. *)
Definition column (j : nat) (rs : list (list R)) : list R :=
  map (fun r => nth j r 0) rs.

Definition cols (t : Tensor) : list (list R) :=
  map (fun j => column j (rows t)) (seq 0 (size1 t)).

(** [t.T] *)
Definition transpose (t : Tensor) : Tensor :=
  mkTensor2 (size1 t) (size0 t) (cols t).

(** Broadcasting of one dimension: equal sizes, or one of them is 1. *)
Definition broadcast_dim (e : exn) (a b : nat) : result nat :=
  if (a =? b)%nat then Ok a
  else if (a =? 1)%nat then Ok b
  else if (b =? 1)%nat then Ok a
  else Raise e.

Definition expand_list {A : Type} (d : A) (n : nat) (l : list A) : list A :=
  if (length l =? n)%nat then l else repeat (hd d l) n.

Definition expand (t : Tensor) (n m : nat) : list (list R) :=
  map (expand_list 0 m) (expand_list [] n (rows t)).

(** An elementwise binary operation with broadcasting. *)
Definition pointwise (f : R -> R -> R) (x y : Tensor) : result Tensor :=
  n <- broadcast_dim RuntimeError (size0 x) (size0 y) ;;
  m <- broadcast_dim RuntimeError (size1 x) (size1 y) ;;
  Ok (mkTensor2 n m (map2 (map2 f) (expand x n m) (expand y n m))).

(** An operation with a Python scalar. *)
Definition map_tensor (f : R -> R) (t : Tensor) : Tensor :=
  mkTensor2 (size0 t) (size1 t) (map (map f) (rows t)).

Definition dot (u v : list R) : R := Rsum (map2 Rmult u v).

(** [x @ y] *)
Definition matmul (x y : Tensor) : result Tensor :=
  if negb (size1 x =? size0 y)%nat then Raise RuntimeError
  else Ok (mkTensor2 (size0 x) (size1 y)
             (map (fun r => map (fun c => dot r c) (cols y)) (rows x))).

(** [torch.linalg.norm(t, dim=1, keepdim=True)] *)
Definition norm_dim1_keepdim (t : Tensor) : Tensor :=
  mkTensor2 (size0 t) 1 (map (fun r => [sqrt (Rsum (map (fun x => x * x) r))]) (rows t)).

(** Values in descending order. *)
Fixpoint insert_desc (x : R) (l : list R) : list R :=
  match l with
  | [] => [x]
  | y :: l' => if Rle_dec y x then x :: l else y :: insert_desc x l'
  end.

Fixpoint sort_desc (l : list R) : list R :=
  match l with
  | [] => []
  | x :: l' => insert_desc x (sort_desc l')
  end.

(** The [k] largest values of a list, largest first. *)
Definition top_values (k : nat) (l : list R) : list R := firstn k (sort_desc l).

(** [torch.topk(t, k=k, dim=dim).values] for [dim] 1 and 0: an error when
    [k] is negative or exceeds the size along [dim]. *)
Definition topk_dim1 (t : Tensor) (k : Z) : result Tensor :=
  if ((k <? 0) || (Z.of_nat (size1 t) <? k))%Z then Raise RuntimeError
  else Ok (mkTensor2 (size0 t) (Z.to_nat k) (map (top_values (Z.to_nat k)) (rows t))).

Definition topk_dim0 (t : Tensor) (k : Z) : result Tensor :=
  if ((k <? 0) || (Z.of_nat (size0 t) <? k))%Z then Raise RuntimeError
  else Ok (transpose (mkTensor2 (size1 t) (Z.to_nat k)
                        (map (top_values (Z.to_nat k)) (cols t)))).

(** [t.mean(dim=1, keepdim=True)] and [t.mean(dim=0, keepdim=True)] *)
Definition mean_dim1_keepdim (t : Tensor) : Tensor :=
  mkTensor2 (size0 t) 1 (map (fun r => [Rsum r / INR (size1 t)]) (rows t)).

Definition mean_dim0_keepdim (t : Tensor) : Tensor :=
  mkTensor2 1 (size1 t) [map (fun c => Rsum c / INR (size0 t)) (cols t)].

(** The first index of the largest value of a non-empty row. *)
Fixpoint argmax_from (best_i : nat) (best : R) (i : nat) (l : list R) : nat :=
  match l with
  | [] => best_i
  | x :: l' =>
      if Rlt_dec best x then argmax_from i x (S i) l'
      else argmax_from best_i best (S i) l'
  end.

Definition argmax_list (l : list R) : nat :=
  match l with
  | [] => 0%nat
  | x :: l' => argmax_from 0 x 1 l'
  end.

(** [t.argmax(dim=1)]: an error when the reduced dimension is empty. *)
Definition argmax_dim1 (t : Tensor) : result (list nat) :=
  if (size1 t =? 0)%nat then Raise IndexError
  else Ok (map argmax_list (rows t)).

(** [torch.cat(ts, dim=0)] of 2-D tensors. *)
Definition cat_dim0 (ts : list Tensor) : result Tensor :=
  match ts with
  | [] => Raise RuntimeError
  | t :: ts' =>
      if forallb (fun u => (size1 u =? size1 t)%nat) ts'
      then Ok (mkTensor2 (list_sum (map (@size0 R) ts)) (size1 t)
                 (concat (map (@rows R) ts)))
      else Raise RuntimeError
  end.

(** 3-D broadcasting and reduction. *)
Definition expand3 (t : Tensor3) (n0 n1 n2 : nat) : list (list (list R)) :=
  map (fun s => map (expand_list 0 n2) (expand_list [] n1 s))
      (expand_list [] n0 (vals t)).

Definition pointwise3 (f : R -> R -> R) (x y : Tensor3) : result Tensor3 :=
  n0 <- broadcast_dim RuntimeError (dim0 x) (dim0 y) ;;
  n1 <- broadcast_dim RuntimeError (dim1 x) (dim1 y) ;;
  n2 <- broadcast_dim RuntimeError (dim2 x) (dim2 y) ;;
  Ok (mkTensor3 n0 n1 n2
        (map2 (map2 (map2 f)) (expand3 x n0 n1 n2) (expand3 y n0 n1 n2))).

(** [t.sum(dim=1)] of a 3-D tensor. *)
Definition sum_dim1 (t : Tensor3) : Tensor :=
  mkTensor2 (dim0 t) (dim2 t)
    (map (fun s => map (fun j => Rsum (column j s)) (seq 0 (dim2 t))) (vals t)).

(** [m.unsqueeze(-1).to(dtype)] of an integer mask. *)
Definition unsqueeze_to_float (m : Tensor2 Z) : Tensor3 :=
  mkTensor3 (size0 m) (size1 m) 1 (map (map (fun z => [IZR z])) (rows m)).

(** A possibly negative index into a dimension of size [n]. *)
Definition wrap_index (i : Z) (n : nat) : result nat :=
  if ((i <? - Z.of_nat n) || (Z.of_nat n <=? i))%Z then Raise IndexError
  else if (i <? 0)%Z then Ok (Z.to_nat (i + Z.of_nat n)) else Ok (Z.to_nat i).

(** [t[i0, i1]] with two 1-D index tensors. *)
Definition index_pairs (t : Tensor3) (i0 i1 : list Z) : result Tensor :=
  n <- broadcast_dim IndexError (length i0) (length i1) ;;
  rs <- traverse (fun p =>
          a <- wrap_index (fst p) (dim0 t) ;;
          b <- wrap_index (snd p) (dim1 t) ;;
          Ok (nth b (nth a (vals t) []) []))
        (combine (expand_list 0%Z n i0) (expand_list 0%Z n i1)) ;;
  Ok (mkTensor2 n (dim2 t) rs).

(** [torch.arange(n)] *)
Definition arange (n : nat) : list nat := seq 0 n.

End Torch.

(** ** wr_hidden.py *)

Module WrHidden.

Import Torch.
#[local] Open Scope R_scope.

Definition cosine_similarity (first second : Tensor) : result Tensor :=
  first_norm <- pointwise Rdiv first (norm_dim1_keepdim first) ;;
  second_norm <- pointwise Rdiv second (norm_dim1_keepdim second) ;;
  matmul first_norm (transpose second_norm).

Definition margin_based_scoring (first second : Tensor) (k : Z) (variant : string) (eps : R)
  : result Tensor :=
  a <- cosine_similarity first second ;;
  if String.eqb variant "absolute" then Ok a
  else
    nn_k_row <- topk_dim1 a (Z.min k (Z.of_nat (size1 a))) ;;
    nn_k_col <- topk_dim0 a (Z.min k (Z.of_nat (size0 a))) ;;
    let row_mean := mean_dim1_keepdim nn_k_row in
    let col_mean := mean_dim0_keepdim nn_k_col in
    s <- pointwise Rplus row_mean col_mean ;;
    let b := map_tensor (fun x => x * 0.5 + eps) s in
    if String.eqb variant "distance" then pointwise Rminus a b else pointwise Rdiv a b.

Definition layer_accuracy (score : Tensor) : result R :=
  preds <- argmax_dim1 score ;;
  let hits := map2 Nat.eqb preds (arange (size0 score)) in
  Ok (Rsum (map (fun h : bool => if h then 1 else 0) hits) / INR (length hits)).

Definition mean_hidden_state (hidden_states : Tensor3) (attention_mask : Tensor2 Z)
  : result Tensor :=
  let mask := unsqueeze_to_float attention_mask in
  prod <- pointwise3 Rmult hidden_states mask ;;
  let summed := sum_dim1 prod in
  let count := sum_dim1 mask in
  pointwise Rdiv summed count.

Definition last_token_hidden_state (hidden_states : Tensor3) (attention_mask : Tensor2 Z)
  : result Tensor :=
  let last_token_index :=
    map (fun r => (Z.of_nat (length (filter (fun z => negb (z =? 0)%Z) r)) - 1)%Z)
        (rows attention_mask) in
  let batch_range := map Z.of_nat (arange (dim0 hidden_states)) in
  index_pairs hidden_states batch_range last_token_index.

(** [range(0, n, step)] for a positive step. *)
Definition range_step (n step : nat) : list nat :=
  map (fun q => (q * step)%nat) (seq 0 ((n + step - 1) / step)).

(** [l[start : stop]] for [0 <= start <= stop]. *)
Definition slice {A : Type} (l : list A) (start stop : nat) : list A :=
  firstn (stop - start) (skipn start l).

Definition enumerate {A : Type} (l : list A) : list (nat * A) :=
  combine (seq 0 (length l)) l.

(** [temp.setdefault(i, []).append(x)] on a dict kept in insertion order. *)
Fixpoint setdefault_append {A : Type} (i : nat) (x : A) (temp : list (nat * list A))
  : list (nat * list A) :=
  match temp with
  | [] => [(i, [x])]
  | (j, xs) :: temp' =>
      if (j =? i)%nat then (j, xs ++ [x]) :: temp'
      else (j, xs) :: setdefault_append i x temp'
  end.

Section Extractor.

(** The tokens of one sentence, and the id used for padding. *)
Variable tokenize : string -> list Z.
Variable pad_token_id : Z.

(** [model(input_ids, attention_mask, output_hidden_states=True).hidden_states] *)
Variable model : Tensor2 Z -> Tensor2 Z -> list Tensor3.

(** Modelled from the spec: the tokenizer capability of section 6, a batch
    of strings tokenized with dynamic right padding to the longest
    sequence of the batch, returning token ids and attention mask. *)
Definition tokenizer (batch : list string) : Tensor2 Z * Tensor2 Z :=
  let ids := map tokenize batch in
  let l := list_max (map (@length Z) ids) in
  (mkTensor2 (length batch) l
     (map (fun t => t ++ repeat pad_token_id (l - length t)) ids),
   mkTensor2 (length batch) l
     (map (fun t => repeat 1%Z (length t) ++ repeat 0%Z (l - length t)) ids)).

(** The body of the loop over batches. *)
Definition batch_step (hidden_state_fn : Tensor3 -> Tensor2 Z -> result Tensor)
    (temp : list (nat * list Tensor)) (batch : list string)
  : result (list (nat * list Tensor)) :=
  let tokens := tokenizer batch in
  let hidden_states := model (fst tokens) (snd tokens) in
  fold_left
    (fun acc p =>
       temp <- acc ;;
       hidden_state <- hidden_state_fn (snd p) (snd tokens) ;;
       Ok (setdefault_append (fst p) hidden_state temp))
    (enumerate hidden_states) (Ok temp).

Definition layer_representation (sentences : list string) (batch_size : Z)
    (hidden_state_fn : Tensor3 -> Tensor2 Z -> result Tensor)
  : result (list (nat * Tensor)) :=
  if (batch_size =? 0)%Z then Raise ValueError
  else
    let starts :=
      if (batch_size <? 0)%Z then []
      else range_step (length sentences) (Z.to_nat batch_size) in
    temp <- fold_left
              (fun acc start =>
                 temp <- acc ;;
                 batch_step hidden_state_fn temp
                   (slice sentences start (start + Z.to_nat batch_size)))
              starts (Ok []) ;;
    traverse (fun p => t <- cat_dim0 (snd p) ;; Ok (fst p, t)) temp.

End Extractor.

End WrHidden.

(** ** Notions of the specification *)

Module Spec.

Import Torch WrHidden.
#[local] Open Scope R_scope.

(** Column [j] is the argmax of a row, ties broken by first occurrence. *)
Definition first_argmax (l : list R) (j : nat) : Prop :=
  (j < length l)%nat /\
  (forall j', (j' < length l)%nat -> nth j' l 0 <= nth j l 0) /\
  (forall j', (j' < j)%nat -> nth j' l 0 < nth j l 0).

(** The number of rows whose prediction is the row index. *)
Definition hit_rows (preds : list nat) : nat :=
  length (filter (fun p => (snd p =? fst p)%nat) (enumerate preds)).

(** The index read in a dimension of size [a] broadcast to size [n]. *)
Definition bidx (a n i : nat) : nat := if (a =? n)%nat then i else 0%nat.

(** The token vectors of a sequence at the positions where the mask is 1. *)
Definition unmasked (tokens : list (list R)) (mask : list Z) : list (list R) :=
  map fst (filter (fun p => (snd p =? 1)%Z) (combine tokens mask)).

(** Feature [j] of the average of a list of vectors. *)
Definition average (vectors : list (list R)) (j : nat) : R :=
  Rsum (column j vectors) / INR (length vectors).

(** A mask of zeros and ones with at least one 1 in every row. *)
Definition binary_mask (m : Tensor2 Z) : Prop :=
  Forall (fun r => Forall (fun z => z = 0%Z \/ z = 1%Z) r /\ In 1%Z r) (rows m).

(** The number of ones of a mask row. *)
Definition count_of_ones (r : list Z) : nat := count_occ Z.eq_dec r 1%Z.

(** Right padding: the ones of a mask row come first. *)
Definition right_padded (r : list Z) : Prop :=
  r = repeat 1%Z (count_of_ones r) ++ repeat 0%Z (length r - count_of_ones r).

(** The Euclidean norm of a row, the row divided by it, and the cosine
    similarity of two rows. *)
Definition l2_norm (v : list R) : R := sqrt (Rsum (map (fun x => x * x) v)).

Definition normalize (v : list R) : list R := map (fun x => x / l2_norm v) v.

Definition cosine (u v : list R) : R := dot (normalize u) (normalize v).

Definition mean (l : list R) : R := Rsum l / INR (length l).

(** The score of base row [i] against target row [j] as the specification
    words it: the cosine similarity, rescaled by the baseline built from the
    nearest-neighbour means of row [i] and of column [j]. *)
Definition margin_score (first second : list (list R)) (k : nat) (variant : string)
    (eps : R) (i j : nat) : R :=
  let a := fun i j => cosine (nth i first []) (nth j second []) in
  let n1 := length first in
  let n2 := length second in
  let row_i := map (fun j' => a i j') (seq 0 n2) in
  let col_j := map (fun i' => a i' j) (seq 0 n1) in
  let b := (mean (top_values (Nat.min k n2) row_i) +
            mean (top_values (Nat.min k n1) col_j)) / 2 + eps in
  if String.eqb variant "absolute" then a i j
  else if String.eqb variant "distance" then a i j - b
  else a i j / b.

(** No two entries of a row of the matrix are equal. *)
Definition no_ties (t : Tensor) : Prop :=
  forall i j j', (i < size0 t)%nat -> (j < size1 t)%nat -> (j' < size1 t)%nat ->
    j <> j' -> entry t i j <> entry t i j'.

(** The hidden states of one sequence on its own: for every layer, the
    vectors of its tokens. *)
Definition encoder : Type := list Z -> list (list (list R)).

Definition no_tensor3 : Tensor3 := mkTensor3 0 0 0 [].

(** The contract of the model capability: on a right-padded batch of
    non-empty sequences the model returns [nlayers] tensors of shape
    [(batch, longest, h)], and the hidden states at the token positions of a
    sequence are those of the sequence on its own, whatever the other
    sequences and the amount of padding. *)
Definition sequencewise (tokenize : string -> list Z) (pad_token_id : Z)
    (model : Tensor2 Z -> Tensor2 Z -> list Tensor3)
    (encode : encoder) (nlayers h : nat) : Prop :=
  forall batch : list string,
    batch <> [] ->
    Forall (fun s => tokenize s <> []) batch ->
    let tokens := tokenizer tokenize pad_token_id batch in
    let hidden_states := model (fst tokens) (snd tokens) in
    length hidden_states = nlayers /\
    forall i, (i < nlayers)%nat ->
      has_shape3 (nth i hidden_states no_tensor3)
        (length batch) (size1 (snd tokens)) h /\
      forall s, (s < length batch)%nat ->
        firstn (length (tokenize (nth s batch EmptyString)))
               (nth s (vals (nth i hidden_states no_tensor3)) []) =
        nth i (encode (tokenize (nth s batch EmptyString))) [].

(** The pooled vector of one sentence at layer [i], from its own hidden
    states. *)
Definition mean_row (tokenize : string -> list Z) (encode : encoder) (h i : nat)
    (s : string) : list R :=
  map (fun j => average (nth i (encode (tokenize s)) []) j) (seq 0 h).

Definition last_row (tokenize : string -> list Z) (encode : encoder) (i : nat)
    (s : string) : list R :=
  nth (length (tokenize s) - 1) (nth i (encode (tokenize s)) []) [].

(** The representation of a list of sentences built sentence by sentence:
    one matrix per layer, row [r] from sentence [r]. *)
Definition sentence_table (row : nat -> string -> list R) (nlayers h : nat)
    (sentences : list string) : list (nat * Tensor) :=
  match sentences with
  | [] => []
  | _ => map (fun i => (i, mkTensor2 (length sentences) h (map (row i) sentences)))
             (seq 0 nlayers)
  end.

(** The padded length of a batch, and a batch the loop can meet: not
    empty, with at least one token in every sentence. *)
Definition longest (tokenize : string -> list Z) (batch : list string) : nat :=
  list_max (map (@length Z) (map tokenize batch)).

Definition usable_batch (tokenize : string -> list Z) (batch : list string) : Prop :=
  batch <> [] /\ Forall (fun s => tokenize s <> []) batch.

(** The pooled tensor of one batch at layer [i], and the dict of
    accumulators after the batches [bl]. *)
Definition pooled_batch (row : nat -> string -> list R) (h i : nat)
    (batch : list string) : Tensor :=
  mkTensor2 (length batch) h (map (row i) batch).

Definition accumulators (row : nat -> string -> list R) (nlayers h : nat)
    (bl : list (list string)) : list (nat * list Tensor) :=
  match bl with
  | [] => []
  | _ => map (fun i => (i, map (pooled_batch row h i) bl)) (seq 0 nlayers)
  end.

End Spec.

(** ** Fixtures *)

(** A sampler that honours the contract: the [k] largest indices, last first. *)
Definition countdown_draw (g : nat) (n k : nat) : list nat * nat :=
  (rev (seq (n - k) k), S g).

(** A score matrix in which every row is a tie. *)
Definition tied_scores : Torch.Tensor :=
  Torch.mkTensor2 2 2 [[1; 1]; [1; 1]]%R.

(** One sequence of three tokens of width 2, the last one padding. *)
Definition padded_hidden : Torch.Tensor3 :=
  Torch.mkTensor3 1 3 2 [[[1; 1]; [3; 3]; [9; 9]]]%R.

Definition padded_mask : Torch.Tensor2 Z :=
  Torch.mkTensor2 1 3 [[1; 1; 0]]%Z.

(** Two base rows against three target rows. *)
Definition two_rows : Torch.Tensor :=
  Torch.mkTensor2 2 2 [[1; 0]; [0; 1]]%R.

Definition three_rows : Torch.Tensor :=
  Torch.mkTensor2 3 2 [[1; 0]; [0; 1]; [1; 1]]%R.

Definition wide_rows : Torch.Tensor :=
  Torch.mkTensor2 2 3 [[1; 0; 0]; [0; 1; 0]]%R.

(** Three rows in the plane: row 1 lies close to row 0, row 2 lies far
    from both.  The norms are 1, 25 and 1. *)
Definition hub_rows : Torch.Tensor :=
  Torch.mkTensor2 3 2 [[1; 0]; [24; 7]; [0; -1]]%R.




(** [padded_hidden] with another vector at the padded position. *)
Definition padded_hidden_alt : Torch.Tensor3 :=
  Torch.mkTensor3 1 3 2 [[[1; 1]; [3; 3]; [-5; 7]]]%R.

(** A left-padded mask over five positions, and a batch of two sequences
    with a mask for three. *)
Definition left_mask : Torch.Tensor2 Z :=
  Torch.mkTensor2 1 5 [[0; 0; 0; 1; 1]]%Z.

Definition pair_hidden : Torch.Tensor3 :=
  Torch.mkTensor3 2 1 1 [[[1]]; [[2]]]%R.

Definition triple_mask : Torch.Tensor2 Z :=
  Torch.mkTensor2 3 1 [[1]; [1]; [1]]%Z.

(** One sequence of five positions of width 1, padded after the third. *)
Definition five_hidden : Torch.Tensor3 :=
  Torch.mkTensor3 1 5 1 [[[10]; [11]; [12]; [13]; [14]]]%R.

Definition five_mask : Torch.Tensor2 Z :=
  Torch.mkTensor2 1 5 [[1; 1; 1; 0; 0]]%Z.

(** A tokenizer with one token per character, and a causal model of
    width 2 with an embedding layer and one further layer that holds, at
    every position, the sum of the token ids up to that position. *)
Definition char_tokenize (s : string) : list Z :=
  map (fun c => Z.of_nat (Ascii.nat_of_ascii c)) (list_ascii_of_string s).

Fixpoint running_sum (acc : Z) (ids : list Z) : list Z :=
  match ids with
  | [] => []
  | z :: ids' => (acc + z)%Z :: running_sum (acc + z) ids'
  end.

Definition causal_layers (ids : list Z) : list (list (list R)) :=
  [map (fun z => [IZR z; 0]%R) ids;
   map (fun z => [IZR z; 1]%R) (running_sum 0 ids)].

Definition causal_model (input_ids attention_mask : Torch.Tensor2 Z) : list Torch.Tensor3 :=
  map (fun i => Torch.mkTensor3 (Torch.size0 input_ids) (Torch.size1 input_ids) 2
                  (map (fun r => nth i (causal_layers r) []) (Torch.rows input_ids)))
      [0; 1].

Definition causal_encode : Spec.encoder := causal_layers.

(** ** wr_data.py: loading the word pairs *)

Module WrLoad.

(** A row of the dataset. *)
Record sla_entry : Type := mkEntry {
  lang : string;
  word : string;
  eng : string
}.

(** [l[:k]] for a Python integer [k]: a negative [k] counts from the end. *)
Definition slice_to {A : Type} (l : list A) (k : Z) : list A :=
  if (k <? 0)%Z then firstn (length l - Z.to_nat (- k)) l
  else firstn (Z.to_nat k) l.

(** [load_sla_word(lang, limit)] on the rows [ds] of the train split.  The
    limit is [None] or an integer; [if limit:] is false for both [None]
    and 0. *)
Definition load_sla_word (ds : list sla_entry) (lang_code : string) (limit : option Z)
  : list string * list string :=
  let filtered_ds := filter (fun x => String.eqb (lang x) lang_code) ds in
  let target := map word filtered_ds in
  let base := map eng filtered_ds in
  match limit with
  | Some k =>
      if (k =? 0)%Z then (base, target)
      else (slice_to base k, slice_to target k)
  | None => (base, target)
  end.

(** The pairs of a base and a target list that [filter_pairs] keeps: both
    words have exactly one token. *)
Definition single_token_pairs (tokenizer : string -> nat) (base target : list string)
  : list (string * string) :=
  filter (fun p => (tokenizer (fst p) =? 1) && (tokenizer (snd p) =? 1))
         (combine base target).

End WrLoad.

(** Rows of two languages, in the order of the dataset. *)
Definition sla_rows : list WrLoad.sla_entry :=
  [WrLoad.mkEntry "gle" "agus" "and";
   WrLoad.mkEntry "eus" "eta" "and";
   WrLoad.mkEntry "gle" "ar" "on";
   WrLoad.mkEntry "gle" "bean" "woman"]%string.

(** Rows with one-letter words among longer ones. *)
Definition letter_rows : list WrLoad.sla_entry :=
  [WrLoad.mkEntry "gle" "a" "i";
   WrLoad.mkEntry "gle" "agus" "and";
   WrLoad.mkEntry "gle" "o" "u"]%string.

(** ** Operations on representations used to state further properties *)

Module Rows.

Import Torch.
#[local] Open Scope R_scope.

(** The number of non-zero entries of a mask row, as the code counts
    them. *)
Definition count_nonzero (r : list Z) : nat :=
  length (filter (fun z => negb (z =? 0)%Z) r).

End Rows.

(** ** wr_plot.py *)

Module WrPlot.

(** [sorted(d.items(), key=lambda x: x[0])]: a stable sort by key. *)
Fixpoint insert_item (p : nat * R) (l : list (nat * R)) : list (nat * R) :=
  match l with
  | [] => [p]
  | q :: l' => if (fst p <=? fst q)%nat then p :: l else q :: insert_item p l'
  end.

Definition sorted_items (items : list (nat * R)) : list (nat * R) :=
  fold_right insert_item [] items.

(** [plot_layer_accuracy]: the guard against an empty dict, and the two
    series handed to [ax.plot], layers and accuracies in the order of the
    layer index.  The figure and the file it is saved to have no
    counterpart here. *)
Definition plot_layer_accuracy (layer_accuracy : list (nat * R))
  : result (list nat * list R) :=
  match layer_accuracy with
  | [] => Raise ValueError
  | _ =>
      let sorted_layers := sorted_items layer_accuracy in
      let layers := map fst sorted_layers in
      let accuracies := map snd sorted_layers in
      Ok (layers, accuracies)
  end.

End WrPlot.

(** ** wr_experiment.py *)

Module WrExperiment.

Import WrData Torch WrHidden WrLoad WrPlot.

(** The run can also fail on a missing dict key or an undefined global. *)
Inductive error : Set :=
  | Exn (e : exn)
  | KeyError
  | NameError.

Inductive outcome (A : Type) : Type :=
  | Done (a : A)
  | Failed (e : error).

Arguments Done {A} a.
Arguments Failed {A} e.

Definition lift {A : Type} (m : result A) : outcome A :=
  match m with
  | Ok a => Done a
  | Raise e => Failed (Exn e)
  end.

Definition and_then {A B : Type} (m : outcome A) (f : A -> outcome B) : outcome B :=
  match m with
  | Done a => f a
  | Failed e => Failed e
  end.

Notation "x <~ m ;; k" := (and_then m (fun x => k))
  (at level 61, m at next level, right associativity).

Fixpoint for_each {A B : Type} (f : A -> outcome B) (l : list A) : outcome (list B) :=
  match l with
  | [] => Done []
  | x :: l' => y <~ f x ;; ys <~ for_each f l' ;; Done (y :: ys)
  end.

(** [d[key]] on a dict with string keys and on the dict of a
    representation, and [d[key] = value]. *)
Fixpoint getitem_str (d : list (string * string)) (key : string) : outcome string :=
  match d with
  | [] => Failed KeyError
  | (k, v) :: d' => if String.eqb k key then Done v else getitem_str d' key
  end.

Fixpoint getitem_layer (d : list (nat * Tensor)) (key : nat) : outcome Tensor :=
  match d with
  | [] => Failed KeyError
  | (k, v) :: d' => if (k =? key)%nat then Done v else getitem_layer d' key
  end.

Fixpoint setitem (key : nat) (value : R) (d : list (nat * R)) : list (nat * R) :=
  match d with
  | [] => [(key, value)]
  | (k, v) :: d' => if (k =? key)%nat then (k, value) :: d' else (k, v) :: setitem key value d'
  end.

(** The double quote and the line break of the prompt strings. *)
Definition dq : string := String (Ascii.ascii_of_nat 34) EmptyString.
Definition nl : string := String (Ascii.ascii_of_nat 10) EmptyString.

Definition LANG_TABLE : list (string * string) :=
  [("eus_Latn", "Euskara"); ("eng_Latn", "English");
   ("gle_Latn", "Gaeilge"); ("cmn_Hans", "中文")]%string.

(** One line of a template: [name: "w" - English: "e"]. *)
Definition example_line (name w e : string) : string :=
  (name ++ ": " ++ dq ++ w ++ dq ++ " - English: " ++ dq ++ e ++ dq)%string.

(** Four example lines; the last one ends the template without a line
    break. *)
Definition four_examples (name w1 w2 w3 w4 : string) : string :=
  (example_line name w1 "dog" ++ nl ++ example_line name w2 "cat" ++ nl ++
   example_line name w3 "house" ++ nl ++ example_line name w4 "mountain")%string.

Definition FEW_SHOT_TEMPLATE : list (string * string) :=
  [("eus_Latn", four_examples "Euskara" "txakurra" "katua" "etxe" "mendi");
   ("gle_Latn", four_examples "Gaeilge" "madra" "cat" "teach" "sléibhe");
   ("cmn_Hans", four_examples "中文" "狗" "猫" "房子" "山")]%string.

Section Run.

Variable rng : Type.
Variable draw : rng -> nat -> nat -> list nat * rng.
Variable tokenize : string -> list Z.
Variable pad_token_id : Z.
Variable model : Tensor2 Z -> Tensor2 Z -> list Tensor3.

(** The rows of the dataset, and the global [MODEL], which only [main]
    defines. *)
Variable ds : list sla_entry.
Variable MODEL : option string.

(** The data configuration: all pairs, the single-token pairs, or a
    sample. *)
Definition select_pairs (g : rng) (target_lang data : string) (data_sample_size : Z)
  : result (list string * list string) * rng :=
  let (base, target) := load_sla_word ds target_lang None in
  if String.eqb data "single"
  then (filter_pairs base target (fun w => length (tokenize w)), g)
  else if String.eqb data "sample"
  then sample_pairs draw g base target data_sample_size
  else (Ok (base, target), g).

(** The few-shot prompt of every target word. *)
Definition few_shot_prompts (target_lang : string) (target : list string)
  : outcome (list string) :=
  for_each
    (fun t =>
       template <~ getitem_str FEW_SHOT_TEMPLATE target_lang ;;
       name <~ getitem_str LANG_TABLE target_lang ;;
       Done (template ++ name ++ ": " ++ dq ++ t ++ dq ++ " - English: " ++ dq)%string)
    target.

(** The accuracy of every layer of the base representation. *)
Definition layer_accuracies (base_rep target_rep : list (nat * Tensor))
    (margin_variant : string) : outcome (list (nat * R)) :=
  fold_left
    (fun acc p =>
       layer_acc <~ acc ;;
       second <~ getitem_layer target_rep (fst p) ;;
       score <~ lift (margin_based_scoring (snd p) second 4 margin_variant (1 / 1000000)) ;;
       a <~ lift (layer_accuracy score) ;;
       Done (setitem (fst p) a layer_acc))
    base_rep (Done []).

(** [run_experiment]: the result is what the plot shows. *)
Definition run_experiment (g : rng)
    (target_lang data prompt hidden_base hidden_target margin_variant : string)
    (data_sample_size : Z) : outcome (list nat * list R) * rng :=
  let (selected, g') := select_pairs g target_lang data data_sample_size in
  (pairs <~ lift selected ;;
   let base := fst pairs in
   let target := snd pairs in
   let hidden_base_fn :=
     if String.eqb hidden_base "mean" then mean_hidden_state
     else last_token_hidden_state in
   let hidden_target_fn :=
     if String.eqb hidden_target "mean" then mean_hidden_state
     else last_token_hidden_state in
   target <~ (if String.eqb prompt "few" then few_shot_prompts target_lang target
              else Done target) ;;
   base_rep <~ lift (layer_representation tokenize pad_token_id model base 32
                       hidden_base_fn) ;;
   target_rep <~ lift (layer_representation tokenize pad_token_id model target 32
                         hidden_target_fn) ;;
   layer_acc <~ layer_accuracies base_rep target_rep margin_variant ;;
   match MODEL with
   | None => Failed NameError
   | Some _ => lift (plot_layer_accuracy layer_acc)
   end,
   g').

End Run.

End WrExperiment.

(** * Properties *)

Import WrData Torch WrHidden Spec.

(** Settle the comparisons of concrete reals met while evaluating. *)
Ltac decide_R :=
  repeat match goal with
    | |- context [Rlt_dec ?a ?b] => destruct (Rlt_dec a b); try lra
    | |- context [Rle_dec ?a ?b] => destruct (Rle_dec a b); try lra
    end.

(** ** Exceptions and list comprehension *)

Lemma traverse_ok_map {A B : Type} (f : A -> result B) (g : A -> B) (l : list A) :
  Forall (fun x => f x = Ok (g x)) l -> traverse f l = Ok (map g l).
Proof.
  induction 1 as [|x l Hx _ IH]; simpl; [reflexivity|].
  now rewrite Hx, IH.
Qed.

Lemma getitem_nth {A : Type} (d : A) (l : list A) (i : nat) :
  i < length l -> getitem l i = Ok (nth i l d).
Proof.
  intros Hi. unfold getitem.
  now rewrite (nth_error_nth' l d Hi).
Qed.

Lemma traverse_getitem {A : Type} (d : A) (l : list A) (idx : list nat) :
  Forall (fun i => i < length l) idx ->
  traverse (getitem l) idx = Ok (map (fun i => nth i l d) idx).
Proof.
  intros H. apply traverse_ok_map.
  eapply Forall_impl; [|exact H]. intros i Hi. now apply getitem_nth.
Qed.

Lemma map_nth_seq {A : Type} (d : A) (l : list A) :
  map (fun i => nth i l d) (seq 0 (length l)) = l.
Proof.
  apply (nth_ext _ _ d d).
  - now rewrite length_map, length_seq.
  - intros n Hn. rewrite length_map, length_seq in Hn.
    rewrite (nth_indep _ d (nth (length l) l d)) by now rewrite length_map, length_seq.
    rewrite (map_nth (fun i => nth i l d)), seq_nth by assumption.
    reflexivity.
Qed.

(** ** Sampling and filtering of word pairs *)

Section SamplingProperties.

Variable rng : Type.
Variable draw : rng -> nat -> nat -> list nat * rng.
Hypothesis draw_contract : sampler_contract draw.

Lemma aligned_of_indices (base target : list string) (idx : list nat) :
  length base = length target ->
  Forall (fun i => i < length base) idx ->
  aligned base target (map (fun i => nth i base EmptyString) idx)
                      (map (fun i => nth i target EmptyString) idx).
Proof.
  intros Hlen Hidx. split.
  - now rewrite !length_map.
  - intros p Hp. rewrite length_map in Hp.
    assert (Hj : nth p idx 0 < length base).
    { rewrite Forall_forall in Hidx. apply Hidx. now apply nth_In. }
    exists (nth p idx 0). repeat split; try lia.
    + rewrite nth_error_map, (nth_error_nth' idx 0 Hp). simpl.
      symmetry. now apply nth_error_nth'.
    + rewrite nth_error_map, (nth_error_nth' idx 0 Hp). simpl.
      symmetry. apply nth_error_nth'. lia.
Qed.

Lemma sample_pairs_indices (g : rng) (base target : list string) (m : Z) :
  length base = length target ->
  (0 <= m)%Z ->
  let k := Z.to_nat (Z.min m (Z.of_nat (length base))) in
  let idx := fst (draw g (length base) k) in
  sample_pairs draw g base target m =
    (Ok (map (fun i => nth i base EmptyString) idx,
         map (fun i => nth i target EmptyString) idx),
     snd (draw g (length base) k)).
Proof.
  intros Hlen Hm k idx. unfold sample_pairs, random_sample.
  rewrite <- Hlen, Nat.eqb_refl. simpl negb. cbv iota.
  replace ((Z.min m (Z.of_nat (length base)) <? 0)%Z) with false
    by (symmetry; apply Z.ltb_ge; lia).
  replace ((Z.of_nat (length base) <? Z.min m (Z.of_nat (length base)))%Z) with false
    by (symmetry; apply Z.ltb_ge; lia).
  simpl orb. cbv iota. fold k.
  destruct (draw_contract g (n := length base) (k := k)) as (_ & _ & Hin); [lia|].
  subst idx. destruct (draw g (length base) k) as [idx g']. simpl in *.
  rewrite (traverse_getitem EmptyString base Hin).
  rewrite (traverse_getitem EmptyString target) by now rewrite <- Hlen.
  reflexivity.
Qed.

End SamplingProperties.

Lemma skipn_cons_inv {A : Type} (l : list A) : forall (i : nat) (x : A) (r : list A),
  skipn i l = x :: r -> nth_error l i = Some x /\ skipn (S i) l = r.
Proof.
  induction l as [|y l IH]; intros [|i] x r H; simpl in *; try discriminate.
  - injection H as -> ->. now split.
  - now apply IH.
Qed.

Lemma aligned_snoc (base target fb ft : list string) (i : nat) (w t : string) :
  aligned base target fb ft ->
  nth_error base i = Some w -> nth_error target i = Some t ->
  aligned base target (fb ++ [w]) (ft ++ [t]).
Proof.
  intros [Hlen Hal] Hw Ht. split.
  - rewrite !length_app. simpl. lia.
  - intros p Hp. rewrite length_app in Hp. simpl in Hp.
    destruct (Nat.eq_dec p (length fb)) as [->|Hne].
    + exists i. repeat split.
      * apply nth_error_Some. congruence.
      * apply nth_error_Some. congruence.
      * rewrite nth_error_app2, Nat.sub_diag by lia. simpl. now symmetry.
      * rewrite Hlen at 1. rewrite nth_error_app2, Nat.sub_diag by lia.
        simpl. now symmetry.
    + destruct (Hal p) as (j & Hj1 & Hj2 & Hb & Htg); [lia|].
      exists j. repeat split; try assumption.
      * rewrite nth_error_app1 by lia. assumption.
      * rewrite nth_error_app1 by lia. assumption.
Qed.

Lemma filter_pairs_loop_aligned (tok : string -> nat) (base0 target : list string) :
  length base0 = length target ->
  forall (rest : list string) (i : nat) (fb ft : list string),
    skipn i base0 = rest ->
    i + length rest = length base0 ->
    aligned base0 target fb ft ->
    exists fb' ft',
      filter_pairs_loop tok target i rest fb ft = Ok (fb', ft') /\
      aligned base0 target fb' ft'.
Proof.
  intros Hlen rest. induction rest as [|w rest IH]; intros i fb ft Hskip Hi Hal.
  - exists fb, ft. now split.
  - simpl in Hi. apply skipn_cons_inv in Hskip as [Hw Hskip].
    assert (Hit : i < length target) by lia.
    simpl. unfold getitem. rewrite (nth_error_nth' target EmptyString Hit). simpl.
    destruct ((tok w =? 1) && (tok (nth i target EmptyString) =? 1)).
    + apply IH; [assumption|lia|].
      apply aligned_snoc with (i := i); try assumption.
      now apply nth_error_nth'.
    + apply IH; [assumption|lia|assumption].
Qed.

(** C8: on aligned inputs of one length, [sample_pairs] with a sample size
    between 0 and the length, and [filter_pairs], return two lists of one
    length whose entries at every output position come from one source
    index. *)
Theorem sample_and_filter_preserve_alignment
    (rng : Type) (draw : rng -> nat -> nat -> list nat * rng)
    (g : rng) (base target : list string) (m : Z) (tok : string -> nat) :
  sampler_contract draw ->
  length base = length target ->
  (0 <= m <= Z.of_nat (length base))%Z ->
  (exists sb st g',
      sample_pairs draw g base target m = (Ok (sb, st), g') /\
      length sb = Z.to_nat m /\
      aligned base target sb st) /\
  (exists fb ft,
      filter_pairs base target tok = Ok (fb, ft) /\
      aligned base target fb ft).
Proof.
  intros Hdraw Hlen Hm. split.
  - pose proof (sample_pairs_indices Hdraw g base target Hlen (proj1 Hm)) as Heq.
    cbv zeta in Heq. rewrite Z.min_l in Heq by lia.
    destruct (Hdraw g (length base) (Z.to_nat m)) as (Hk & _ & Hin); [lia|].
    eexists _, _, _. split; [exact Heq|]. split.
    + now rewrite length_map.
    + now apply aligned_of_indices.
  - unfold filter_pairs.
    apply filter_pairs_loop_aligned with (base0 := base); easy.
Qed.

Lemma countdown_draw_contract : sampler_contract countdown_draw.
Proof.
  intros g n k Hk. unfold countdown_draw. simpl. repeat split.
  - now rewrite length_rev, length_seq.
  - apply NoDup_rev, seq_NoDup.
  - apply Forall_forall. intros i Hi. apply in_rev, in_seq in Hi. lia.
Qed.

Lemma sample_and_filter_preserve_alignment_witness :
  (exists sb st g',
      sample_pairs countdown_draw 0 ["dog"; "cat"; "house"]%string
        ["madra"; "cat"; "teach"]%string 2 = (Ok (sb, st), g') /\
      length sb = Z.to_nat 2 /\
      aligned ["dog"; "cat"; "house"]%string ["madra"; "cat"; "teach"]%string sb st) /\
  (exists fb ft,
      filter_pairs ["dog"; "cat"; "house"]%string ["madra"; "cat"; "teach"]%string
        (fun w => String.length w - 2) = Ok (fb, ft) /\
      aligned ["dog"; "cat"; "house"]%string ["madra"; "cat"; "teach"]%string fb ft).
Proof.
  apply (@sample_and_filter_preserve_alignment nat countdown_draw 0).
  - exact countdown_draw_contract.
  - reflexivity.
  - simpl. lia.
Defined.

(** The returned lists of the two operations on a concrete input. *)
Example sample_pairs_run :
  sample_pairs countdown_draw 0 ["dog"; "cat"; "house"]%string
    ["madra"; "cat"; "teach"]%string 2
  = (Ok (["house"; "cat"]%string, ["teach"; "cat"]%string), 1).
Proof. reflexivity. Qed.

Example filter_pairs_run :
  filter_pairs ["dog"; "cat"; "house"]%string ["madra"; "cat"; "teach"]%string
    (fun w => String.length w - 2)
  = Ok (["cat"]%string, ["cat"]%string).
Proof. reflexivity. Qed.

(** [sample_pairs] checks the lengths before anything else. *)
Lemma sample_pairs_unequal_raises
    (rng : Type) (draw : rng -> nat -> nat -> list nat * rng)
    (g : rng) (base target : list string) (m : Z) :
  length base <> length target ->
  sample_pairs draw g base target m = (Raise AssertionError, g).
Proof.
  intros Hne. unfold sample_pairs.
  apply Nat.eqb_neq in Hne. now rewrite Hne.
Qed.

(** C9: [filter_pairs] has no length check.  With a target list longer than
    the base list it returns a result and drops the surplus target words. *)
Theorem filter_pairs_unequal_truncates :
  filter_pairs ["a"]%string ["a"; "b"]%string (fun _ => 1) =
  Ok (["a"]%string, ["a"]%string).
Proof. reflexivity. Qed.

(** With a base list longer than the target list the loop runs until the
    index leaves the target list. *)
Example filter_pairs_short_target :
  filter_pairs ["a"; "b"]%string ["a"]%string (fun _ => 1) = Raise IndexError.
Proof. reflexivity. Qed.

Lemma full_draw_permutation (n : nat) (idx : list nat) :
  length idx = n -> NoDup idx -> Forall (fun i => i < n) idx ->
  Permutation idx (seq 0 n).
Proof.
  intros Hlen Hnd Hin. apply NoDup_Permutation_bis; try assumption.
  - rewrite length_seq. lia.
  - intros i Hi. rewrite Forall_forall in Hin. apply in_seq. specialize (Hin i Hi). lia.
Qed.

(** C10: a sample size above the length of the lists is clamped to the
    length: [sample_pairs] returns, and both returned lists are the full
    input lists in one common order. *)
Theorem sample_pairs_clamps_sample_size
    (rng : Type) (draw : rng -> nat -> nat -> list nat * rng)
    (g : rng) (base target : list string) (m : Z) :
  sampler_contract draw ->
  length base = length target ->
  (Z.of_nat (length base) < m)%Z ->
  exists sb st g',
    sample_pairs draw g base target m = (Ok (sb, st), g') /\
    length sb = length base /\ length st = length target /\
    Permutation sb base /\ Permutation st target /\
    aligned base target sb st.
Proof.
  intros Hdraw Hlen Hm.
  assert (H0 : (0 <= m)%Z) by lia.
  pose proof (sample_pairs_indices Hdraw g base target Hlen H0) as Heq.
  cbv zeta in Heq. rewrite Z.min_r, Nat2Z.id in Heq by lia.
  destruct (Hdraw g (length base) (length base)) as (Hk & Hnd & Hin); [lia|].
  pose proof (full_draw_permutation Hk Hnd Hin) as Hperm.
  eexists _, _, _. split; [exact Heq|]. repeat split.
  - now rewrite length_map.
  - rewrite length_map. congruence.
  - eapply Permutation_trans; [apply Permutation_map, Hperm|].
    now rewrite map_nth_seq.
  - eapply Permutation_trans; [apply Permutation_map, Hperm|].
    now rewrite Hlen, map_nth_seq.
  - now rewrite !length_map.
  - apply (aligned_of_indices base target Hlen Hin).
Qed.

Lemma sample_pairs_clamps_sample_size_witness :
  exists sb st g',
    sample_pairs countdown_draw 0 ["dog"; "cat"; "house"]%string
      ["madra"; "cat"; "teach"]%string 100 = (Ok (sb, st), g') /\
    length sb = 3 /\ length st = 3 /\
    Permutation sb ["dog"; "cat"; "house"]%string /\
    Permutation st ["madra"; "cat"; "teach"]%string /\
    aligned ["dog"; "cat"; "house"]%string ["madra"; "cat"; "teach"]%string sb st.
Proof.
  apply (@sample_pairs_clamps_sample_size nat countdown_draw 0).
  - exact countdown_draw_contract.
  - reflexivity.
  - simpl. lia.
Defined.

Example sample_pairs_clamped_run :
  sample_pairs countdown_draw 0 ["dog"; "cat"; "house"]%string
    ["madra"; "cat"; "teach"]%string 100
  = (Ok (["house"; "cat"; "dog"]%string, ["teach"; "cat"; "madra"]%string), 1).
Proof. reflexivity. Qed.

(** ** Layer accuracy *)

Section Accuracy.

#[local] Open Scope R_scope.

Lemma argmax_from_spec (l : list R) :
  forall (pre : list R) (best_i : nat) (best : R) (i : nat),
  i = length pre ->
  best = nth best_i pre 0 ->
  (best_i < length pre)%nat ->
  (forall j, (j < length pre)%nat -> nth j pre 0 <= best) ->
  (forall j, (j < best_i)%nat -> nth j pre 0 < best) ->
  first_argmax (pre ++ l) (argmax_from best_i best i l).
Proof.
  induction l as [|x l IH]; intros pre best_i best i Hi Hbest Hb Hmax Hfirst.
  - simpl. rewrite app_nil_r. subst best. now repeat split.
  - simpl. replace (pre ++ x :: l) with ((pre ++ [x]) ++ l)
      by now rewrite <- app_assoc.
    assert (Hlen : length (pre ++ [x]) = S (length pre))
      by (rewrite length_app; simpl; lia).
    assert (Hx : nth (length pre) (pre ++ [x]) 0 = x)
      by (rewrite app_nth2, Nat.sub_diag by lia; reflexivity).
    destruct (Rlt_dec best x) as [Hlt|Hge].
    + apply IH.
      * lia.
      * subst i. now rewrite Hx.
      * lia.
      * intros j Hj. rewrite Hlen in Hj.
        destruct (Nat.eq_dec j (length pre)) as [->|Hne].
        -- rewrite Hx. lra.
        -- rewrite app_nth1 by lia.
           assert (Hj' : (j < length pre)%nat) by lia.
           specialize (Hmax j Hj'). lra.
      * intros j Hj. subst i. rewrite app_nth1 by lia.
        specialize (Hmax j Hj). lra.
    + apply IH.
      * lia.
      * rewrite app_nth1 by lia. assumption.
      * lia.
      * intros j Hj. rewrite Hlen in Hj.
        destruct (Nat.eq_dec j (length pre)) as [->|Hne].
        -- rewrite Hx. lra.
        -- rewrite app_nth1 by lia. apply Hmax. lia.
      * intros j Hj. rewrite app_nth1 by lia. now apply Hfirst.
Qed.

Lemma argmax_list_spec (l : list R) :
  l <> [] -> first_argmax l (argmax_list l).
Proof.
  destruct l as [|x l]; [congruence|]. intros _.
  apply (argmax_from_spec l [x]); simpl; try reflexivity.
  - lia.
  - intros [|j] Hj; [lra|lia].
  - intros j Hj. lia.
Qed.

Lemma indicator_sum (preds : list nat) : forall (s m : nat),
  length preds = m ->
  Rsum (map (fun h : bool => if h then 1 else 0) (map2 Nat.eqb preds (seq s m))) =
  INR (length (filter (fun p => (snd p =? fst p)%nat) (combine (seq s m) preds))).
Proof.
  induction preds as [|a preds IH]; intros s m Hm.
  - subst m. reflexivity.
  - destruct m as [|m]; [discriminate|]. injection Hm as Hm.
    specialize (IH (S s) m Hm). unfold map2 in *. cbn [seq combine map filter fst snd Rsum fold_right].
    unfold Rsum in IH. rewrite IH.
    destruct (a =? s)%nat; cbn [length].
    + rewrite S_INR. lra.
    + lra.
Qed.

Lemma hit_rows_le (preds : list nat) : (hit_rows preds <= length preds)%nat.
Proof.
  unfold hit_rows, enumerate.
  eapply Nat.le_trans; [apply filter_length_le|].
  rewrite length_combine, length_seq. lia.
Qed.

Lemma layer_accuracy_value (score : Tensor) (n : nat) :
  has_shape score n n -> (0 < n)%nat ->
  layer_accuracy score =
    Ok (INR (hit_rows (map argmax_list (rows score))) / INR n).
Proof.
  intros (Hs0 & Hs1 & Hlen & Hrows) Hn.
  assert (Hpl : length (map argmax_list (rows score)) = n) by now rewrite length_map.
  unfold layer_accuracy, argmax_dim1. rewrite Hs1.
  replace (n =? 0)%nat with false by (symmetry; apply Nat.eqb_neq; lia).
  cbn [bind]. unfold arange. rewrite Hs0.
  rewrite (indicator_sum _ 0 Hpl).
  unfold map2. rewrite length_map, length_combine, length_seq, Hpl, Nat.min_id.
  unfold hit_rows, enumerate. now rewrite Hpl.
Qed.

Lemma hit_rows_seq (n : nat) : forall s,
  length (filter (fun p => (snd p =? fst p)%nat) (combine (seq s n) (seq s n))) = n.
Proof.
  induction n as [|n IH]; intros s; [reflexivity|].
  simpl. rewrite Nat.eqb_refl. simpl. now rewrite IH.
Qed.

(** When every row peaks on the diagonal the accuracy is 1. *)
Lemma layer_accuracy_all_hits (score : Tensor) (n : nat) :
  has_shape score n n -> (0 < n)%nat ->
  (forall i, (i < n)%nat -> argmax_list (nth i (rows score) []) = i) ->
  layer_accuracy score = Ok 1.
Proof.
  intros Hs Hn Hdiag. rewrite (layer_accuracy_value Hs Hn).
  pose proof Hs as (_ & _ & Hlen & _).
  assert (Hpreds : map argmax_list (rows score) = seq 0 n).
  { apply (nth_ext _ _ 0%nat 0%nat).
    - now rewrite length_map, length_seq.
    - intros i Hi. rewrite length_map in Hi.
      rewrite (nth_indep _ 0%nat (argmax_list [])) by (rewrite length_map; lia).
      rewrite map_nth, seq_nth by lia. apply Hdiag. lia. }
  rewrite Hpreds. unfold hit_rows, enumerate. rewrite length_seq, hit_rows_seq.
  f_equal. field. apply not_0_INR. lia.
Qed.

(** The empty score matrix: the reduction over an empty dimension raises. *)
Lemma layer_accuracy_empty_matrix :
  has_shape (mkTensor2 0 0 ([] : list (list R))) 0 0 /\
  layer_accuracy (mkTensor2 0 0 []) = Raise IndexError.
Proof.
  split.
  - repeat split. constructor.
  - reflexivity.
Qed.

(** C4, for a score matrix with at least one row: [layer_accuracy] takes
    for each row the argmax column, ties broken by first occurrence, and
    returns the fraction of rows whose argmax is the row index, a number
    between 0 and 1. *)
Theorem layer_accuracy_fraction (score : Tensor) (n : nat) :
  has_shape score n n ->
  (0 < n)%nat ->
  exists preds : list nat,
    length preds = n /\
    (forall i, (i < n)%nat -> first_argmax (nth i (rows score) []) (nth i preds 0%nat)) /\
    layer_accuracy score = Ok (INR (hit_rows preds) / INR n) /\
    0 <= INR (hit_rows preds) / INR n <= 1.
Proof.
  intros (Hs0 & Hs1 & Hlen & Hrows) Hn.
  exists (map argmax_list (rows score)).
  assert (Hpl : length (map argmax_list (rows score)) = n) by now rewrite length_map.
  split; [assumption|]. split; [|split].
  - intros i Hi.
    rewrite (nth_indep _ 0%nat (argmax_list [])) by lia.
    rewrite map_nth. apply argmax_list_spec.
    rewrite Forall_forall in Hrows.
    assert (Hr : length (nth i (rows score) []) = n)
      by (apply Hrows, nth_In; lia).
    intros Hnil. rewrite Hnil in Hr. simpl in Hr. lia.
  - apply layer_accuracy_value; [now repeat split|assumption].
  - pose proof (hit_rows_le (map argmax_list (rows score))) as Hle.
    rewrite Hpl in Hle. apply le_INR in Hle.
    assert (H0 : 0 <= INR (hit_rows (map argmax_list (rows score)))) by apply pos_INR.
    assert (Hpos : 0 < INR n) by (apply lt_0_INR; lia).
    split.
    + apply Rmult_le_pos; [assumption|]. left. now apply Rinv_0_lt_compat.
    + apply Rmult_le_reg_r with (r := INR n); [assumption|].
      unfold Rdiv. rewrite Rmult_assoc, Rinv_l by lra. lra.
Qed.

Lemma layer_accuracy_fraction_witness :
  exists preds : list nat,
    length preds = 2%nat /\
    (forall i, (i < 2)%nat -> first_argmax (nth i (rows tied_scores) []) (nth i preds 0%nat)) /\
    layer_accuracy tied_scores = Ok (INR (hit_rows preds) / INR 2) /\
    0 <= INR (hit_rows preds) / INR 2 <= 1.
Proof.
  apply (layer_accuracy_fraction (score := tied_scores) (n := 2)).
  - repeat split. repeat constructor.
  - lia.
Defined.

(** On a tie the first column wins: row 0 is a hit, row 1 is not. *)
Example layer_accuracy_tied : layer_accuracy tied_scores = Ok (1 / 2).
Proof.
  unfold layer_accuracy, argmax_dim1, tied_scores. simpl.
  decide_R. simpl. f_equal. lra.
Qed.

End Accuracy.

(** ** Shapes and broadcasting *)

Section Broadcasting.

#[local] Open Scope R_scope.

Lemma length_map2 {A B C : Type} (f : A -> B -> C) (l1 : list A) (l2 : list B) :
  length (map2 f l1 l2) = Nat.min (length l1) (length l2).
Proof. unfold map2. now rewrite length_map, length_combine. Qed.

Lemma combine_nth_both {A B : Type} (l1 : list A) : forall (l2 : list B) (i : nat) (d1 : A) (d2 : B),
  (i < length l1)%nat -> (i < length l2)%nat ->
  nth i (combine l1 l2) (d1, d2) = (nth i l1 d1, nth i l2 d2).
Proof.
  induction l1 as [|x l1 IH]; intros [|y l2] [|i] d1 d2 H1 H2; simpl in *; try lia.
  - reflexivity.
  - apply IH; lia.
Qed.

Lemma nth_map2 {A B C : Type} (f : A -> B -> C) (l1 : list A) (l2 : list B)
    (d1 : A) (d2 : B) (d : C) (i : nat) :
  (i < length l1)%nat -> (i < length l2)%nat ->
  nth i (map2 f l1 l2) d = f (nth i l1 d1) (nth i l2 d2).
Proof.
  intros H1 H2. unfold map2.
  rewrite (nth_indep _ d (f (fst (d1, d2)) (snd (d1, d2))))
    by (rewrite length_map, length_combine; lia).
  rewrite (map_nth (fun p => f (fst p) (snd p))), combine_nth_both by assumption.
  reflexivity.
Qed.

Lemma broadcast_dim_inv (e : exn) (a b n : nat) :
  broadcast_dim e a b = Ok n -> (a = n \/ a = 1%nat) /\ (b = n \/ b = 1%nat).
Proof.
  unfold broadcast_dim.
  destruct (Nat.eqb_spec a b); [intros [= <-]; lia|].
  destruct (Nat.eqb_spec a 1); [intros [= <-]; lia|].
  destruct (Nat.eqb_spec b 1); [intros [= <-]; lia|discriminate].
Qed.

Lemma expand_list_length {A : Type} (d : A) (n : nat) (l : list A) :
  length (expand_list d n l) = n.
Proof.
  unfold expand_list. destruct (Nat.eqb_spec (length l) n); [assumption|].
  apply repeat_length.
Qed.

Lemma expand_list_nth {A : Type} (d d' : A) (n : nat) (l : list A) (i : nat) :
  length l = n \/ length l = 1%nat -> (i < n)%nat ->
  nth i (expand_list d n l) d' = nth (bidx (length l) n i) l d'.
Proof.
  intros Hl Hi. unfold expand_list, bidx.
  destruct (Nat.eqb_spec (length l) n); [reflexivity|].
  destruct Hl as [Hl|Hl]; [contradiction|].
  rewrite nth_repeat_lt by assumption.
  destruct l as [|x [|y l]]; try discriminate. reflexivity.
Qed.

Lemma bidx_lt (a n i : nat) :
  a = n \/ a = 1%nat -> (i < n)%nat -> (bidx a n i < a)%nat.
Proof. unfold bidx. destruct (Nat.eqb_spec a n); lia. Qed.

Lemma has_shape_row {A : Type} (t : Tensor2 A) (n m i : nat) (d : list A) :
  has_shape t n m -> (i < n)%nat -> length (nth i (rows t) d) = m.
Proof.
  intros (_ & _ & Hl & Hr) Hi. rewrite Forall_forall in Hr.
  apply Hr, nth_In. lia.
Qed.

Lemma expand_entry (t : Tensor) (a b n m i j : nat) :
  has_shape t a b ->
  a = n \/ a = 1%nat -> b = m \/ b = 1%nat ->
  (i < n)%nat -> (j < m)%nat ->
  nth j (nth i (expand t n m) []) 0 = entry t (bidx a n i) (bidx b m j).
Proof.
  intros Hs Ha Hb Hi Hj. pose proof Hs as (_ & _ & Hl & _).
  unfold expand, entry.
  rewrite (nth_indep _ [] (expand_list 0 m []))
    by (rewrite length_map, expand_list_length; lia).
  rewrite map_nth.
  rewrite (expand_list_nth [] []) by (try rewrite Hl; assumption).
  rewrite Hl.
  assert (Hrow : length (nth (bidx a n i) (rows t) []) = b)
    by (apply (@has_shape_row _ t a b _ [] Hs); now apply bidx_lt).
  rewrite (expand_list_nth 0 0) by (try rewrite Hrow; assumption).
  now rewrite Hrow.
Qed.

Lemma expand_shape (t : Tensor) (n m : nat) :
  length (expand t n m) = n /\ Forall (fun r => length r = m) (expand t n m).
Proof.
  unfold expand. split.
  - now rewrite length_map, expand_list_length.
  - apply Forall_forall. intros r Hr. apply in_map_iff in Hr as (r' & <- & _).
    apply expand_list_length.
Qed.

(** An elementwise operation on broadcastable shapes returns a tensor of
    the broadcast shape whose entries combine the broadcast entries. *)
Lemma pointwise_entry (f : R -> R -> R) (x y : Tensor) (a b a' b' n m : nat) :
  has_shape x a b -> has_shape y a' b' ->
  broadcast_dim RuntimeError a a' = Ok n ->
  broadcast_dim RuntimeError b b' = Ok m ->
  exists t,
    pointwise f x y = Ok t /\ has_shape t n m /\
    forall i j, (i < n)%nat -> (j < m)%nat ->
      entry t i j = f (entry x (bidx a n i) (bidx b m j))
                      (entry y (bidx a' n i) (bidx b' m j)).
Proof.
  intros Hx Hy Hn Hm.
  pose proof Hx as (Hx0 & Hx1 & _). pose proof Hy as (Hy0 & Hy1 & _).
  unfold pointwise. rewrite Hx0, Hx1, Hy0, Hy1, Hn, Hm. cbn [bind].
  eexists. split; [reflexivity|].
  apply broadcast_dim_inv in Hn as [Ha Ha'], Hm as [Hb Hb'].
  destruct (expand_shape x n m) as [Hxl Hxr], (expand_shape y n m) as [Hyl Hyr].
  split.
  - repeat split; cbn [size0 size1 rows].
    + rewrite length_map2. lia.
    + apply Forall_forall. intros r Hr. unfold map2 in Hr at 1.
      apply in_map_iff in Hr as ([r1 r2] & <- & Hin).
      rewrite Forall_forall in Hxr, Hyr.
      rewrite length_map2. cbn [fst snd].
      rewrite (Hxr r1), (Hyr r2); [lia| |].
      * eapply in_combine_r; eassumption.
      * eapply in_combine_l; eassumption.
  - intros i j Hi Hj. unfold entry at 1. cbn [rows].
    rewrite (nth_map2 _ _ _ [] []) by lia.
    rewrite Forall_forall in Hxr, Hyr.
    assert (Hxi : length (nth i (expand x n m) []) = m) by (apply Hxr, nth_In; lia).
    assert (Hyi : length (nth i (expand y n m) []) = m) by (apply Hyr, nth_In; lia).
    rewrite (nth_map2 _ _ _ 0 0) by lia.
    now rewrite (expand_entry Hx), (expand_entry Hy).
Qed.

End Broadcasting.

(** ** Pooling *)

Section Pooling.

#[local] Open Scope R_scope.

Lemma nth_map_lt {A B : Type} (f : A -> B) (l : list A) (i : nat) (d : B) (d' : A) :
  (i < length l)%nat -> nth i (map f l) d = f (nth i l d').
Proof.
  intros Hi. rewrite (nth_indep _ d (f d')) by now rewrite length_map.
  apply map_nth.
Qed.

Lemma expand_list_same {A : Type} (d : A) (n : nat) (l : list A) :
  length l = n -> expand_list d n l = l.
Proof. intros <-. unfold expand_list. now rewrite Nat.eqb_refl. Qed.

Lemma broadcast_dim_refl (e : exn) (n : nat) : broadcast_dim e n n = Ok n.
Proof. unfold broadcast_dim. now rewrite Nat.eqb_refl. Qed.

Lemma broadcast_dim_one_r (e : exn) (n : nat) : broadcast_dim e n 1 = Ok n.
Proof.
  unfold broadcast_dim. destruct (Nat.eqb_spec n 1); [reflexivity|]. reflexivity.
Qed.

Lemma broadcast_dim_one_l (e : exn) (n : nat) : broadcast_dim e 1 n = Ok n.
Proof.
  unfold broadcast_dim. destruct (Nat.eqb_spec 1 n); [now subst|]. reflexivity.
Qed.

(** Summing the products with a mask of zeros and ones sums the unmasked
    positions. *)
Lemma masked_column_sum (j h : nat) : (j < h)%nat ->
  forall (tokens : list (list R)) (m : list Z),
    Forall (fun v => length v = h) tokens ->
    Forall (fun z => z = 0%Z \/ z = 1%Z) m ->
    length tokens = length m ->
    Rsum (column j
            (map2 (map2 Rmult)
               (map (expand_list 0 h) tokens)
               (map (expand_list 0 h) (map (fun z => [IZR z]) m)))) =
    Rsum (column j (unmasked tokens m)).
Proof.
  intros Hj. induction tokens as [|v tokens IH]; intros [|z m] Hv Hm Hlen;
    try discriminate; [reflexivity|].
  inversion Hv as [|? ? Hv1 Hv2]; subst. inversion Hm as [|? ? Hz Hm2]; subst.
  injection Hlen as Hlen. specialize (IH m Hv2 Hm2 Hlen).
  unfold unmasked, map2, column in *. cbn [map combine filter fst snd Rsum fold_right].
  unfold Rsum in IH. rewrite IH.
  assert (Hhead : nth j (map (fun p => fst p * snd p)
                          (combine (expand_list 0 (length v) v)
                                   (expand_list 0 (length v) [IZR z]))) 0
                  = nth j v 0 * IZR z).
  { change (nth j (map2 Rmult (expand_list 0 (length v) v)
                     (expand_list 0 (length v) [IZR z])) 0 = nth j v 0 * IZR z).
    rewrite (nth_map2 _ _ _ 0 0) by (rewrite expand_list_length; assumption).
    rewrite expand_list_same by reflexivity.
    rewrite (expand_list_nth 0 0) by (simpl; auto).
    f_equal. unfold bidx. cbn [length]. destruct (1 =? length v)%nat eqn:E; [|reflexivity].
    apply Nat.eqb_eq in E. destruct j; [reflexivity|lia]. }
  rewrite Hhead.
  destruct Hz as [-> | ->]; cbn [Z.eqb Pos.eqb map fst fold_right].
  - lra.
  - lra.
Qed.

Lemma mask_count (m : list Z) : forall (tokens : list (list R)),
  Forall (fun z => z = 0%Z \/ z = 1%Z) m ->
  length tokens = length m ->
  Rsum (column 0 (map (fun z => [IZR z]) m)) = INR (length (unmasked tokens m)).
Proof.
  induction m as [|z m IH]; intros [|v tokens] Hm Hlen; try discriminate; [reflexivity|].
  inversion Hm as [|? ? Hz Hm2]; subst. injection Hlen as Hlen.
  specialize (IH tokens Hm2 Hlen).
  unfold unmasked, column in *. cbn [map combine filter fst snd Rsum fold_right nth].
  unfold Rsum in IH. rewrite IH.
  destruct Hz as [-> | ->]; cbn [Z.eqb Pos.eqb map fst length].
  - lra.
  - rewrite S_INR. lra.
Qed.

Lemma sum_dim1_shape (t : Tensor3) :
  length (vals t) = dim0 t -> has_shape (sum_dim1 t) (dim0 t) (dim2 t).
Proof.
  intros Hl. unfold sum_dim1. repeat split; cbn [size0 size1 rows].
  - now rewrite length_map.
  - apply Forall_forall. intros r Hr. apply in_map_iff in Hr as (s & <- & _).
    now rewrite length_map, length_seq.
Qed.

Lemma sum_dim1_entry (t : Tensor3) (s j : nat) :
  (s < length (vals t))%nat -> (j < dim2 t)%nat ->
  entry (sum_dim1 t) s j = Rsum (column j (nth s (vals t) [])).
Proof.
  intros Hs Hj. unfold entry, sum_dim1. cbn [rows].
  rewrite (nth_map_lt _ _ _ [] Hs).
  rewrite (nth_map_lt _ _ _ 0%nat) by now rewrite length_seq.
  now rewrite seq_nth.
Qed.

Lemma unmasked_all_ones (m : list Z) : forall (tokens : list (list R)),
  length tokens = length m -> Forall (eq 1%Z) m -> unmasked tokens m = tokens.
Proof.
  induction m as [|z m IH]; intros [|v tokens] Hlen Hm; try discriminate; [reflexivity|].
  inversion Hm as [|? ? Hz Hm2]; subst. injection Hlen as Hlen.
  unfold unmasked in *. simpl. f_equal. now apply IH.
Qed.

Lemma unmasked_no_ones (m : list Z) : forall (tokens : list (list R)),
  count_of_ones m = 0%nat -> unmasked tokens m = [].
Proof.
  unfold count_of_ones, unmasked.
  induction m as [|z m IH]; intros [|v tokens] Hc; try reflexivity.
  simpl in *. destruct (Z.eq_dec z 1) as [->|Hz]; [discriminate|].
  apply Z.eqb_neq in Hz. rewrite Hz. now apply IH.
Qed.

Lemma unmasked_single (m : list Z) : forall (tokens : list (list R)) (p : nat),
  length tokens = length m ->
  count_of_ones m = 1%nat -> nth p m 0%Z = 1%Z ->
  unmasked tokens m = [nth p tokens []].
Proof.
  induction m as [|z m IH]; intros [|v tokens] p Hlen Hc Hp; try discriminate.
  injection Hlen as Hlen. unfold count_of_ones in *. simpl in Hc.
  destruct (Z.eq_dec z 1) as [->|Hz].
  - injection Hc as Hc. unfold unmasked. simpl.
    fold (unmasked tokens m). rewrite (unmasked_no_ones m tokens Hc).
    destruct p as [|p]; [reflexivity|]. simpl in Hp.
    exfalso. apply (count_occ_not_In Z.eq_dec m 1%Z); [exact Hc|].
    rewrite <- Hp. apply nth_In.
    destruct (Nat.lt_ge_cases p (length m)) as [Hlt|Hge]; [assumption|].
    rewrite nth_overflow in Hp by assumption. discriminate.
  - destruct p as [|p]; [simpl in Hp; congruence|].
    unfold unmasked. simpl. apply Z.eqb_neq in Hz. rewrite Hz.
    now apply IH.
Qed.

(** Every entry of the mean-pooled tensor is the average over the
    unmasked positions of its sequence. *)
Lemma mean_hidden_state_unmasked (hs : Tensor3) (mask : Tensor2 Z) (b l h : nat) :
  has_shape3 hs b l h ->
  has_shape mask b l ->
  binary_mask mask ->
  exists out,
    mean_hidden_state hs mask = Ok out /\
    has_shape out b h /\
    forall s j, (s < b)%nat -> (j < h)%nat ->
      entry out s j =
      average (unmasked (nth s (vals hs) []) (nth s (rows mask) [])) j.
Proof.
  destruct hs as [d0 d1 d2 hvals], mask as [s0 s1 mrows].
  intros (Hd0 & Hd1 & Hd2 & Hvl & Hvals) Hmask Hbin.
  pose proof Hmask as (Hm0 & Hm1 & Hml & Hmrows).
  cbn [dim0 dim1 dim2 vals size0 size1 rows] in *. subst d0 d1 d2 s0 s1.
  unfold mean_hidden_state, pointwise3, unsqueeze_to_float.
  cbn [dim0 dim1 dim2 size0 size1 rows].
  rewrite !broadcast_dim_refl, broadcast_dim_one_r. cbn [bind].
  set (mask3 := mkTensor3 b l 1 (map (map (fun z => [IZR z])) mrows)).
  set (prod := mkTensor3 b l h _).
  assert (Hpl : length (vals prod) = b).
  { unfold prod, expand3. cbn [vals].
    rewrite length_map2, !length_map, !expand_list_length. lia. }
  assert (Hsum : has_shape (sum_dim1 prod) b h) by (apply (sum_dim1_shape prod); exact Hpl).
  assert (Hcnt : has_shape (sum_dim1 mask3) b 1).
  { apply (sum_dim1_shape mask3). unfold mask3. cbn [vals dim0]. now rewrite length_map. }
  destruct (pointwise_entry Rdiv Hsum Hcnt (broadcast_dim_refl _ b) (broadcast_dim_one_r _ h))
    as (out & Hout & Hshape & Hentry).
  exists out. split; [exact Hout|]. split; [exact Hshape|].
  intros s j Hs Hj. cbv zeta.
  set (tokens := nth s hvals []). set (m := nth s mrows []).
  assert (Htl : length tokens = l /\ Forall (fun v => length v = h) tokens).
  { rewrite Forall_forall in Hvals. apply Hvals, nth_In. lia. }
  destruct Htl as [Htl Htv].
  assert (Hmlen : length m = l) by (apply (@has_shape_row _ _ b l s [] Hmask Hs)).
  assert (Hmbin : Forall (fun z => z = 0%Z \/ z = 1%Z) m).
  { unfold binary_mask in Hbin. cbn [rows] in Hbin. rewrite Forall_forall in Hbin.
    apply (Hbin m). apply nth_In. lia. }
  rewrite (Hentry s j Hs Hj). unfold average. f_equal.
  - unfold bidx. rewrite !Nat.eqb_refl.
    rewrite sum_dim1_entry by (cbn [dim2 prod]; lia).
    unfold prod, expand3. cbn [vals].
    rewrite (nth_map2 _ _ _ [] [])
      by (rewrite length_map, expand_list_length; assumption).
    rewrite !(nth_map_lt _ _ [] []) by (rewrite expand_list_length; assumption).
    rewrite (@expand_list_same _ [] b hvals) by assumption.
    rewrite (@expand_list_same _ [] b (vals mask3))
      by (unfold mask3; cbn [vals]; now rewrite length_map).
    unfold mask3. cbn [vals].
    rewrite (nth_map_lt _ _ [] []) by lia.
    fold tokens. fold m.
    rewrite (@expand_list_same _ [] l tokens) by assumption.
    rewrite (@expand_list_same _ [] l (map _ m)) by now rewrite length_map.
    apply masked_column_sum; try assumption. congruence.
  - unfold bidx. rewrite Nat.eqb_refl.
    replace (if (1 =? h)%nat then j else 0%nat) with 0%nat
      by (destruct (Nat.eqb_spec 1 h); lia).
    rewrite sum_dim1_entry by (unfold mask3; cbn [vals dim2]; rewrite ?length_map; lia).
    unfold mask3. cbn [vals].
    rewrite (nth_map_lt _ _ [] []) by lia. fold m.
    apply mask_count; [assumption|congruence].
Qed.

(** C5: mean pooling returns, for every sequence, the average of the hidden
    vectors at the positions where the mask is 1; on an all-ones mask this
    is the arithmetic mean of all token vectors, and with exactly one
    unmasked token it is that token's vector. *)
Theorem mean_hidden_state_average (hs : Tensor3) (mask : Tensor2 Z) (b l h : nat) :
  has_shape3 hs b l h ->
  has_shape mask b l ->
  binary_mask mask ->
  exists out,
    mean_hidden_state hs mask = Ok out /\
    has_shape out b h /\
    forall s j, (s < b)%nat -> (j < h)%nat ->
      let tokens := nth s (vals hs) [] in
      let m := nth s (rows mask) [] in
      entry out s j = average (unmasked tokens m) j /\
      (Forall (eq 1%Z) m -> entry out s j = average tokens j) /\
      (forall p, count_of_ones m = 1%nat -> nth p m 0%Z = 1%Z ->
                 entry out s j = nth j (nth p tokens []) 0).
Proof.
  intros Hhs Hmask Hbin.
  destruct (mean_hidden_state_unmasked Hhs Hmask Hbin) as (out & Hout & Hshape & Hmain).
  exists out. split; [exact Hout|]. split; [exact Hshape|].
  intros s j Hs Hj tokens m. specialize (Hmain s j Hs Hj). fold tokens m in Hmain.
  assert (Hlen : length tokens = length m).
  { destruct Hhs as (_ & _ & _ & Hvl & Hvals). rewrite Forall_forall in Hvals.
    destruct (Hvals tokens) as [-> _]; [apply nth_In; lia|].
    symmetry. apply (@has_shape_row _ mask b l s [] Hmask Hs). }
  split; [exact Hmain|]. split.
  - intros Hones. rewrite Hmain. now rewrite unmasked_all_ones.
  - intros p Hc Hp. rewrite Hmain.
    rewrite (unmasked_single m tokens p) by assumption.
    unfold average, column, Rsum. simpl. field.
Qed.

Lemma mean_hidden_state_average_witness :
  exists out,
    mean_hidden_state padded_hidden padded_mask = Ok out /\
    has_shape out 1 2 /\
    forall s j, (s < 1)%nat -> (j < 2)%nat ->
      let tokens := nth s (vals padded_hidden) [] in
      let m := nth s (rows padded_mask) [] in
      entry out s j = average (unmasked tokens m) j /\
      (Forall (eq 1%Z) m -> entry out s j = average tokens j) /\
      (forall p, count_of_ones m = 1%nat -> nth p m 0%Z = 1%Z ->
                 entry out s j = nth j (nth p tokens []) 0).
Proof.
  apply (mean_hidden_state_average (hs := padded_hidden) (mask := padded_mask) (l := 3)).
  - repeat split; repeat constructor.
  - repeat split; repeat constructor.
  - repeat first [apply Forall_cons | apply Forall_nil | split
                 | left; reflexivity | right; reflexivity].
Defined.

(** The scenario of the specification: mask [[1,1,0]] over the token
    vectors [[1,1]], [[3,3]], [[9,9]] pools to [[2,2]]. *)
Example mean_hidden_state_run :
  exists out,
    mean_hidden_state padded_hidden padded_mask = Ok out /\
    entry out 0 0 = 2 /\ entry out 0 1 = 2.
Proof.
  eexists. split; [reflexivity|].
  unfold entry. simpl. split; lra.
Qed.

Lemma nonzero_count (r : list Z) :
  Forall (fun z => z = 0%Z \/ z = 1%Z) r ->
  length (filter (fun z => negb (z =? 0)%Z) r) = count_of_ones r.
Proof.
  unfold count_of_ones. induction 1 as [|z r Hz _ IH]; [reflexivity|].
  simpl. destruct Hz as [-> | ->]; simpl; [assumption|]. now rewrite IH.
Qed.

Lemma count_of_ones_all (r : list Z) :
  Forall (eq 1%Z) r -> count_of_ones r = length r.
Proof.
  unfold count_of_ones. induction 1 as [|z r Hz _ IH]; [reflexivity|].
  subst z. simpl. now rewrite IH.
Qed.

Lemma wrap_index_nonneg (i : Z) (n : nat) :
  (0 <= i < Z.of_nat n)%Z -> wrap_index i n = Ok (Z.to_nat i).
Proof.
  intros Hi. unfold wrap_index.
  destruct (Z.ltb_spec i (- Z.of_nat n)); [lia|].
  destruct (Z.leb_spec (Z.of_nat n) i); [lia|].
  destruct (Z.ltb_spec i 0); [lia|]. reflexivity.
Qed.

Lemma right_padded_last (m : list Z) :
  right_padded m -> (1 <= count_of_ones m)%nat ->
  nth (count_of_ones m - 1) m 0%Z = 1%Z /\
  forall p, (count_of_ones m <= p)%nat -> nth p m 0%Z = 0%Z.
Proof.
  unfold right_padded. set (c := count_of_ones m). intros Hrp Hc.
  rewrite Hrp. split.
  - rewrite app_nth1 by (rewrite repeat_length; lia).
    apply nth_repeat_lt. lia.
  - intros p Hp. rewrite app_nth2 by (rewrite repeat_length; lia).
    rewrite repeat_length.
    destruct (Nat.lt_ge_cases (p - c) (length m - c)) as [Hlt|Hge].
    + now apply nth_repeat_lt.
    + apply nth_overflow. now rewrite repeat_length.
Qed.

(** Every row of the last-token tensor is the hidden vector at the index
    given by the number of ones of its mask row, minus 1. *)
Lemma last_token_hidden_state_rows (hs : Tensor3) (mask : Tensor2 Z) (b l h : nat) :
  has_shape3 hs b l h ->
  has_shape mask b l ->
  binary_mask mask ->
  exists out,
    last_token_hidden_state hs mask = Ok out /\
    has_shape out b h /\
    forall s, (s < b)%nat ->
      nth s (rows out) [] =
      nth (count_of_ones (nth s (rows mask) []) - 1) (nth s (vals hs) []) [].
Proof.
  destruct hs as [d0 d1 d2 hvals], mask as [s0 s1 mrows].
  intros (Hd0 & Hd1 & Hd2 & Hvl & Hvals) Hmask Hbin.
  pose proof Hmask as (Hm0 & Hm1 & Hml & Hmrows).
  unfold binary_mask in Hbin.
  cbn [dim0 dim1 dim2 vals size0 size1 rows] in *. subst d0 d1 d2 s0 s1.
  rewrite Forall_forall in Hvals, Hbin, Hmrows.
  unfold last_token_hidden_state, index_pairs, arange.
  cbn [dim0 dim1 dim2 vals rows].
  set (i0 := map Z.of_nat (seq 0 b)).
  set (i1 := map _ mrows).
  assert (Hi0 : length i0 = b) by (unfold i0; now rewrite length_map, length_seq).
  assert (Hi1 : length i1 = b) by (unfold i1; now rewrite length_map).
  rewrite Hi0, Hi1, broadcast_dim_refl. cbn [bind].
  rewrite !expand_list_same by assumption.
  assert (Hrow : forall s, (s < b)%nat ->
            nth s (combine i0 i1) (0%Z, 0%Z) =
            (Z.of_nat s, (Z.of_nat (count_of_ones (nth s mrows [])) - 1)%Z) /\
            (1 <= count_of_ones (nth s mrows []) <= l)%nat).
  { intros s Hs. rewrite combine_nth_both by lia.
    assert (Hin : In (nth s mrows []) mrows) by (apply nth_In; lia).
    destruct (Hbin _ Hin) as [Hb1 Hb2]. split.
    - unfold i0, i1. rewrite (nth_map_lt _ _ _ 0%nat) by (rewrite length_seq; lia).
      rewrite seq_nth by lia.
      rewrite (nth_map_lt _ _ _ []) by lia.
      now rewrite nonzero_count.
    - split.
      + apply (count_occ_In Z.eq_dec) in Hb2. unfold count_of_ones. lia.
      + rewrite <- (Hmrows _ Hin). apply count_occ_bound. }
  set (g := fun p : Z * Z => nth (Z.to_nat (snd p)) (nth (Z.to_nat (fst p)) hvals []) []).
  rewrite (@traverse_ok_map _ _ _ g).
  2:{ apply Forall_forall. intros p Hin.
      apply (In_nth _ _ (0%Z, 0%Z)) in Hin as (s & Hs & <-).
      rewrite length_combine in Hs.
      destruct (Hrow s) as [-> Hc]; [lia|]. cbn [fst snd].
      rewrite !wrap_index_nonneg by lia. reflexivity. }
  cbn [bind]. eexists. split; [reflexivity|].
  assert (Hg : forall s, (s < b)%nat ->
            nth s (map g (combine i0 i1)) [] =
            nth (count_of_ones (nth s mrows []) - 1) (nth s hvals []) []).
  { intros s Hs. rewrite (nth_map_lt _ _ _ (0%Z, 0%Z)) by (rewrite length_combine; lia).
    destruct (Hrow s Hs) as [-> Hc]. unfold g. cbn [fst snd].
    rewrite Nat2Z.id. f_equal. lia. }
  split.
  - repeat split; cbn [size0 size1 rows].
    + rewrite length_map, length_combine. lia.
    + apply Forall_forall. intros r Hr.
      apply (In_nth _ _ []) in Hr as (s & Hs & <-).
      rewrite length_map, length_combine in Hs.
      rewrite Hg by lia.
      destruct (Hrow s) as [_ Hc]; [lia|].
      assert (Hin : In (nth s hvals []) hvals) by (apply nth_In; lia).
      destruct (Hvals _ Hin) as [Hlen Hvec]. rewrite Forall_forall in Hvec.
      apply Hvec, nth_In. lia.
  - intros s Hs. cbn [rows]. now apply Hg.
Qed.

(** C6: on a right-padded mask with at least one 1 per sequence,
    last-token pooling returns, for every sequence, the hidden vector at
    index [count_of_ones - 1], the last position whose mask is 1: index 2
    on the mask [[1,1,1,0,0]], index [L-1] on an all-ones mask of length
    [L]. *)
Theorem last_token_hidden_state_index (hs : Tensor3) (mask : Tensor2 Z) (b l h : nat) :
  has_shape3 hs b l h ->
  has_shape mask b l ->
  binary_mask mask ->
  Forall right_padded (rows mask) ->
  exists out,
    last_token_hidden_state hs mask = Ok out /\
    has_shape out b h /\
    forall s, (s < b)%nat ->
      let tokens := nth s (vals hs) [] in
      let m := nth s (rows mask) [] in
      nth s (rows out) [] = nth (count_of_ones m - 1) tokens [] /\
      (nth (count_of_ones m - 1) m 0%Z = 1%Z /\
       forall p, (count_of_ones m <= p)%nat -> nth p m 0%Z = 0%Z) /\
      (m = [1; 1; 1; 0; 0]%Z -> nth s (rows out) [] = nth 2 tokens []) /\
      (Forall (eq 1%Z) m -> nth s (rows out) [] = nth (l - 1) tokens []).
Proof.
  intros Hhs Hmask Hbin Hpad.
  destruct (last_token_hidden_state_rows Hhs Hmask Hbin) as (out & Hout & Hshape & Hrows).
  exists out. split; [exact Hout|]. split; [exact Hshape|].
  intros s Hs tokens m. specialize (Hrows s Hs). fold tokens m in Hrows.
  assert (Hin : In m (rows mask)).
  { apply nth_In. destruct Hmask as (_ & _ & Hl & _). lia. }
  unfold binary_mask in Hbin. rewrite Forall_forall in Hbin, Hpad.
  destruct (Hbin m Hin) as [_ Hone].
  split; [exact Hrows|]. split; [|split].
  - apply right_padded_last; [now apply Hpad|].
    apply (count_occ_In Z.eq_dec) in Hone. unfold count_of_ones. lia.
  - intros Hm. rewrite Hrows, Hm. reflexivity.
  - intros Hones. rewrite Hrows, (count_of_ones_all Hones).
    pose proof (@has_shape_row _ mask b l s [] Hmask Hs) as Hlen.
    fold m in Hlen. now rewrite Hlen.
Qed.

Lemma last_token_hidden_state_index_witness :
  exists out,
    last_token_hidden_state padded_hidden padded_mask = Ok out /\
    has_shape out 1 2 /\
    forall s, (s < 1)%nat ->
      let tokens := nth s (vals padded_hidden) [] in
      let m := nth s (rows padded_mask) [] in
      nth s (rows out) [] = nth (count_of_ones m - 1) tokens [] /\
      (nth (count_of_ones m - 1) m 0%Z = 1%Z /\
       forall p, (count_of_ones m <= p)%nat -> nth p m 0%Z = 0%Z) /\
      (m = [1; 1; 1; 0; 0]%Z -> nth s (rows out) [] = nth 2 tokens []) /\
      (Forall (eq 1%Z) m -> nth s (rows out) [] = nth (3 - 1) tokens []).
Proof.
  apply (last_token_hidden_state_index (hs := padded_hidden) (mask := padded_mask)).
  - repeat split; repeat constructor.
  - repeat split; repeat constructor.
  - repeat first [apply Forall_cons | apply Forall_nil | split
                 | left; reflexivity | right; reflexivity].
  - repeat constructor.
Defined.

(** The scenario of the specification: mask [[1,1,0]] selects [[3,3]]. *)
Example last_token_hidden_state_run :
  last_token_hidden_state padded_hidden padded_mask = Ok (mkTensor2 1 2 [[3; 3]]).
Proof. reflexivity. Qed.

(** The mask [[1,1,1,0,0]] selects index 2. *)
Example last_token_hidden_state_five :
  last_token_hidden_state five_hidden five_mask = Ok (mkTensor2 1 1 [[12]]).
Proof. reflexivity. Qed.

(** Without a 1 in the mask the index is -1, which wraps to the last
    position, a padding position. *)
Example last_token_hidden_state_no_ones :
  last_token_hidden_state five_hidden (mkTensor2 1 5 [[0; 0; 0; 0; 0]]%Z) =
  Ok (mkTensor2 1 1 [[14]]).
Proof. reflexivity. Qed.

End Pooling.

(** ** Cosine similarity and margin scoring *)

Section Scoring.

#[local] Open Scope R_scope.

Lemma row_ext (t : Tensor) (n m i : nat) (r : list R) :
  has_shape t n m -> (i < n)%nat -> length r = m ->
  (forall j, (j < m)%nat -> entry t i j = nth j r 0) ->
  nth i (rows t) [] = r.
Proof.
  intros Hs Hi Hr He. apply (nth_ext _ _ 0 0).
  - rewrite Hr. apply (@has_shape_row _ t n m i [] Hs Hi).
  - intros j Hj. rewrite (@has_shape_row _ t n m i [] Hs Hi) in Hj.
    now apply He.
Qed.

Lemma column_nth (rs : list (list R)) (t j : nat) :
  (j < length rs)%nat -> nth j (column t rs) 0 = nth t (nth j rs []) 0.
Proof. intros Hj. unfold column. now rewrite (nth_map_lt _ _ _ []). Qed.

Lemma cols_shape (t : Tensor) (n m : nat) :
  has_shape t n m ->
  length (cols t) = m /\ Forall (fun c => length c = n) (cols t).
Proof.
  intros (H0 & H1 & Hl & _). unfold cols. rewrite H1. split.
  - now rewrite length_map, length_seq.
  - apply Forall_forall. intros c Hc. apply in_map_iff in Hc as (j & <- & _).
    unfold column. now rewrite length_map.
Qed.

Lemma cols_nth (t : Tensor) (n m j : nat) :
  has_shape t n m -> (j < m)%nat -> nth j (cols t) [] = column j (rows t).
Proof.
  intros (H0 & H1 & _) Hj. unfold cols. rewrite H1.
  rewrite (nth_map_lt _ _ _ 0%nat) by now rewrite length_seq.
  now rewrite seq_nth.
Qed.

Lemma transpose_shape (t : Tensor) (n m : nat) :
  has_shape t n m -> has_shape (transpose t) m n.
Proof.
  intros Hs. destruct (cols_shape Hs) as [Hl Hc].
  destruct Hs as (H0 & H1 & _). unfold transpose. now repeat split.
Qed.

Lemma cols_transpose (t : Tensor) (n m : nat) :
  has_shape t n m -> cols (transpose t) = rows t.
Proof.
  intros Hs. pose proof Hs as (H0 & H1 & Hl & Hr).
  unfold cols at 1. cbn [size1 rows transpose]. rewrite H0, <- Hl.
  transitivity (map (fun i => nth i (rows t) []) (seq 0 (length (rows t))));
    [|apply map_nth_seq].
  apply map_ext_in. intros j Hj. apply in_seq in Hj.
  apply (nth_ext _ _ 0 0).
  - unfold column. rewrite length_map. destruct (cols_shape Hs) as [-> _].
    symmetry. apply (@has_shape_row _ t n m j [] Hs). lia.
  - intros p Hp. unfold column at 1 in Hp. rewrite length_map in Hp.
    destruct (cols_shape Hs) as [Hcl _]. rewrite Hcl in Hp.
    rewrite column_nth by lia.
    rewrite (cols_nth Hs Hp). apply column_nth. lia.
Qed.

Lemma bidx_one (n j : nat) : (j < n)%nat -> bidx 1 n j = 0%nat.
Proof. intros Hj. unfold bidx. destruct (Nat.eqb_spec 1 n); lia. Qed.

Lemma bidx_same (n i : nat) : bidx n n i = i.
Proof. unfold bidx. now rewrite Nat.eqb_refl. Qed.

Lemma norm_shape (t : Tensor) (n h : nat) :
  has_shape t n h -> has_shape (norm_dim1_keepdim t) n 1.
Proof.
  intros (H0 & H1 & Hl & _). unfold norm_dim1_keepdim.
  repeat split; cbn [size0 size1 rows]; try assumption.
  - now rewrite length_map.
  - apply Forall_forall. intros r Hr. now apply in_map_iff in Hr as (r' & <- & _).
Qed.

(** Dividing by the row norms normalizes every row. *)
Lemma normalize_rows (t : Tensor) (n h : nat) :
  has_shape t n h ->
  exists tn,
    pointwise Rdiv t (norm_dim1_keepdim t) = Ok tn /\
    has_shape tn n h /\
    forall i, (i < n)%nat -> nth i (rows tn) [] = normalize (nth i (rows t) []).
Proof.
  intros Hs.
  destruct (pointwise_entry Rdiv Hs (norm_shape Hs)
              (broadcast_dim_refl _ n) (broadcast_dim_one_r _ h))
    as (tn & Htn & Hshape & Hentry).
  exists tn. split; [assumption|]. split; [assumption|].
  intros i Hi. pose proof (@has_shape_row _ t n h i [] Hs Hi) as Hrow.
  apply row_ext with (n := n) (m := h); try assumption.
  - unfold normalize. now rewrite length_map.
  - intros j Hj. rewrite (Hentry i j Hi Hj), !bidx_same, bidx_one by assumption.
    unfold normalize. rewrite (nth_map_lt _ _ _ 0) by lia.
    unfold entry at 1. f_equal.
    unfold entry, norm_dim1_keepdim. cbn [rows].
    destruct Hs as (_ & _ & Hl & _).
    rewrite (nth_map_lt _ _ _ []) by lia. reflexivity.
Qed.

(** The cosine-similarity matrix holds the cosine of every pair of rows. *)
Lemma cosine_similarity_entries (first second : Tensor) (n1 n2 h : nat) :
  has_shape first n1 h -> has_shape second n2 h ->
  exists a,
    cosine_similarity first second = Ok a /\
    has_shape a n1 n2 /\
    forall i j, (i < n1)%nat -> (j < n2)%nat ->
      entry a i j = cosine (nth i (rows first) []) (nth j (rows second) []).
Proof.
  intros H1 H2.
  destruct (normalize_rows H1) as (fn & Hfn & Hfs & Hfr).
  destruct (normalize_rows H2) as (sn & Hsn & Hss & Hsr).
  unfold cosine_similarity. rewrite Hfn, Hsn. cbn [bind]. unfold matmul.
  pose proof Hfs as (Hf0 & Hf1 & Hfl & _). pose proof Hss as (Hs0 & Hs1 & Hsl & _).
  cbn [transpose size0 size1]. rewrite Hf1, Hs1, Nat.eqb_refl. cbn [negb].
  fold (transpose sn). rewrite (cols_transpose Hss), Hf0, Hs0.
  eexists. split; [reflexivity|]. split.
  - repeat split; cbn [size0 size1 rows].
    + now rewrite length_map.
    + apply Forall_forall. intros r Hr. apply in_map_iff in Hr as (r' & <- & _).
      now rewrite length_map.
  - intros i j Hi Hj. unfold entry. cbn [rows].
    rewrite (nth_map_lt _ _ _ []) by lia.
    rewrite (nth_map_lt _ _ _ []) by lia.
    rewrite (Hfr i Hi), (Hsr j Hj). reflexivity.
Qed.

Lemma length_insert_desc (x : R) (l : list R) :
  length (insert_desc x l) = S (length l).
Proof.
  induction l as [|y l IH]; [reflexivity|].
  simpl. destruct (Rle_dec y x); simpl; [reflexivity|now rewrite IH].
Qed.

Lemma length_sort_desc (l : list R) : length (sort_desc l) = length l.
Proof.
  induction l as [|x l IH]; [reflexivity|].
  simpl. now rewrite length_insert_desc, IH.
Qed.

Lemma top_values_length (k : nat) (l : list R) :
  (k <= length l)%nat -> length (top_values k l) = k.
Proof.
  intros Hk. unfold top_values. rewrite length_firstn, length_sort_desc. lia.
Qed.

(** The neighbourhood along the rows shrinks to [min k n2]. *)
Lemma topk_dim1_min (a : Tensor) (n1 n2 : nat) (k : Z) :
  has_shape a n1 n2 -> (0 <= k)%Z ->
  let kr := Nat.min (Z.to_nat k) n2 in
  topk_dim1 a (Z.min k (Z.of_nat (size1 a))) =
    Ok (mkTensor2 n1 kr (map (top_values kr) (rows a))) /\
  has_shape (mkTensor2 n1 kr (map (top_values kr) (rows a))) n1 kr.
Proof.
  intros Hs Hk kr. pose proof Hs as (H0 & H1 & Hl & Hr). split.
  - unfold topk_dim1. rewrite H0, H1.
    destruct (Z.ltb_spec (Z.min k (Z.of_nat n2)) 0); [lia|].
    destruct (Z.ltb_spec (Z.of_nat n2) (Z.min k (Z.of_nat n2))); [lia|].
    cbn [orb]. replace (Z.to_nat (Z.min k (Z.of_nat n2))) with kr by (unfold kr; lia).
    reflexivity.
  - repeat split; cbn [size0 size1 rows].
    + now rewrite length_map.
    + apply Forall_forall. intros r Hr'. apply in_map_iff in Hr' as (r' & <- & Hin).
      rewrite Forall_forall in Hr. apply top_values_length.
      rewrite (Hr _ Hin). unfold kr. lia.
Qed.

(** The neighbourhood along the columns shrinks to [min k n1]. *)
Lemma topk_dim0_min (a : Tensor) (n1 n2 : nat) (k : Z) :
  has_shape a n1 n2 -> (0 <= k)%Z ->
  let kc := Nat.min (Z.to_nat k) n1 in
  let tops := mkTensor2 n2 kc (map (top_values kc) (cols a)) in
  topk_dim0 a (Z.min k (Z.of_nat (size0 a))) = Ok (transpose tops) /\
  has_shape tops n2 kc /\
  has_shape (transpose tops) kc n2.
Proof.
  intros Hs Hk kc tops. pose proof Hs as (H0 & H1 & Hl & Hr).
  destruct (cols_shape Hs) as [Hcl Hcr].
  assert (Htops : has_shape tops n2 kc).
  { unfold tops. repeat split; cbn [size0 size1 rows].
    - now rewrite length_map.
    - apply Forall_forall. intros r Hr'. apply in_map_iff in Hr' as (r' & <- & Hin).
      rewrite Forall_forall in Hcr. apply top_values_length.
      rewrite (Hcr _ Hin). unfold kc. lia. }
  split; [|split; [assumption|now apply transpose_shape]].
  unfold topk_dim0. rewrite H0, H1.
  destruct (Z.ltb_spec (Z.min k (Z.of_nat n1)) 0); [lia|].
  destruct (Z.ltb_spec (Z.of_nat n1) (Z.min k (Z.of_nat n1))); [lia|].
  cbn [orb]. replace (Z.to_nat (Z.min k (Z.of_nat n1))) with kc by (unfold kc; lia).
  reflexivity.
Qed.

Lemma mean_dim1_keepdim_shape (t : Tensor) (n m : nat) :
  has_shape t n m ->
  has_shape (mean_dim1_keepdim t) n 1 /\
  forall i, (i < n)%nat ->
    entry (mean_dim1_keepdim t) i 0 = Rsum (nth i (rows t) []) / INR m.
Proof.
  intros (H0 & H1 & Hl & _). unfold mean_dim1_keepdim. split.
  - repeat split; cbn [size0 size1 rows]; try assumption.
    + now rewrite length_map.
    + apply Forall_forall. intros r Hr. now apply in_map_iff in Hr as (r' & <- & _).
  - intros i Hi. unfold entry. cbn [rows].
    rewrite (nth_map_lt _ _ _ []) by lia. now rewrite H1.
Qed.

Lemma mean_dim0_keepdim_shape (t : Tensor) (n m : nat) :
  has_shape t n m ->
  has_shape (mean_dim0_keepdim t) 1 m /\
  forall j, (j < m)%nat ->
    entry (mean_dim0_keepdim t) 0 j = Rsum (nth j (cols t) []) / INR n.
Proof.
  intros Hs. destruct (cols_shape Hs) as [Hcl _].
  destruct Hs as (H0 & H1 & Hl & _). unfold mean_dim0_keepdim. split.
  - repeat split; cbn [size0 size1 rows]; try assumption.
    repeat constructor. now rewrite length_map.
  - intros j Hj. unfold entry. cbn [rows nth].
    rewrite (nth_map_lt _ _ _ []) by lia. now rewrite H0.
Qed.

Lemma map_tensor_shape (f : R -> R) (t : Tensor) (n m : nat) :
  has_shape t n m ->
  has_shape (map_tensor f t) n m /\
  forall i j, (i < n)%nat -> (j < m)%nat ->
    entry (map_tensor f t) i j = f (entry t i j).
Proof.
  intros Hs. pose proof Hs as (H0 & H1 & Hl & Hr). unfold map_tensor. split.
  - repeat split; cbn [size0 size1 rows]; try assumption.
    + now rewrite length_map.
    + apply Forall_forall. intros r Hr'. apply in_map_iff in Hr' as (r' & <- & Hin).
      rewrite Forall_forall in Hr. rewrite length_map. now apply Hr.
  - intros i j Hi Hj. unfold entry. cbn [rows].
    rewrite (nth_map_lt _ _ _ []) by lia.
    rewrite (nth_map_lt _ _ _ 0); [reflexivity|].
    now rewrite (@has_shape_row _ t n m i [] Hs Hi).
Qed.

(** Rows and columns of a matrix given by its entries. *)
Lemma row_of_entries (t : Tensor) (n m i : nat) (f : nat -> nat -> R) :
  has_shape t n m -> (i < n)%nat ->
  (forall i j, (i < n)%nat -> (j < m)%nat -> entry t i j = f i j) ->
  nth i (rows t) [] = map (fun j => f i j) (seq 0 m).
Proof.
  intros Hs Hi He. apply row_ext with (n := n) (m := m); try assumption.
  - now rewrite length_map, length_seq.
  - intros j Hj. rewrite (nth_map_lt _ _ _ 0%nat) by now rewrite length_seq.
    rewrite seq_nth by assumption. now apply He.
Qed.

Lemma col_of_entries (t : Tensor) (n m j : nat) (f : nat -> nat -> R) :
  has_shape t n m -> (j < m)%nat ->
  (forall i j, (i < n)%nat -> (j < m)%nat -> entry t i j = f i j) ->
  nth j (cols t) [] = map (fun i => f i j) (seq 0 n).
Proof.
  intros Hs Hj He. rewrite (cols_nth Hs Hj).
  pose proof Hs as (_ & _ & Hl & _).
  apply (nth_ext _ _ 0 0).
  - unfold column. now rewrite !length_map, length_seq.
  - intros i Hi. unfold column in Hi. rewrite length_map in Hi.
    rewrite column_nth by assumption.
    rewrite (nth_map_lt _ _ _ 0%nat) by (rewrite length_seq; lia).
    rewrite seq_nth by lia. apply He; lia.
Qed.

(** The two nearest-neighbour tensors, their shapes, and the broadcast sum
    of their means. *)
Lemma baseline_entries (a : Tensor) (n1 n2 : nat) (k : Z) (f : nat -> nat -> R) :
  has_shape a n1 n2 -> (0 <= k)%Z ->
  (forall i j, (i < n1)%nat -> (j < n2)%nat -> entry a i j = f i j) ->
  let kr := Nat.min (Z.to_nat k) n2 in
  let kc := Nat.min (Z.to_nat k) n1 in
  exists nn_k_row nn_k_col s,
    topk_dim1 a (Z.min k (Z.of_nat (size1 a))) = Ok nn_k_row /\
    topk_dim0 a (Z.min k (Z.of_nat (size0 a))) = Ok nn_k_col /\
    has_shape nn_k_row n1 kr /\
    has_shape nn_k_col kc n2 /\
    pointwise Rplus (mean_dim1_keepdim nn_k_row) (mean_dim0_keepdim nn_k_col) = Ok s /\
    has_shape s n1 n2 /\
    forall i j, (i < n1)%nat -> (j < n2)%nat ->
      entry s i j =
      mean (top_values kr (map (fun j' => f i j') (seq 0 n2))) +
      mean (top_values kc (map (fun i' => f i' j) (seq 0 n1))).
Proof.
  intros Hs Hk Hf kr kc.
  destruct (topk_dim1_min Hs Hk) as [Hrow Hrs].
  destruct (topk_dim0_min Hs Hk) as (Hcol & Htops & Hcs).
  fold kr in Hrow, Hrs. fold kc in Hcol, Htops, Hcs.
  set (nn_k_row := mkTensor2 n1 kr _) in *.
  set (tops := mkTensor2 n2 kc _) in *.
  destruct (mean_dim1_keepdim_shape Hrs) as [Hrm Hrme].
  destruct (mean_dim0_keepdim_shape Hcs) as [Hcm Hcme].
  destruct (pointwise_entry Rplus Hrm Hcm
              (broadcast_dim_one_r _ n1) (broadcast_dim_one_l _ n2))
    as (s & Hsum & Hss & Hse).
  exists nn_k_row, (transpose tops), s.
  repeat (split; [assumption|]).
  intros i j Hi Hj. pose proof Hs as (_ & _ & Hl & _).
  destruct (cols_shape Hs) as [Hcl _].
  rewrite (Hse i j Hi Hj), !bidx_same, !bidx_one by assumption.
  rewrite (Hrme i Hi), (Hcme j Hj). f_equal.
  - unfold nn_k_row. cbn [rows]. rewrite (nth_map_lt _ _ _ []) by lia.
    rewrite (@row_of_entries a n1 n2 i f Hs Hi Hf). unfold mean.
    rewrite top_values_length by (rewrite length_map, length_seq; unfold kr; lia).
    reflexivity.
  - rewrite (cols_transpose Htops). unfold tops. cbn [rows].
    rewrite (nth_map_lt _ _ _ []) by lia.
    rewrite (@col_of_entries a n1 n2 j f Hs Hj Hf). unfold mean.
    rewrite top_values_length by (rewrite length_map, length_seq; unfold kc; lia).
    reflexivity.
Qed.

(** The score matrix, entry by entry. *)
Lemma margin_based_scoring_core (first second : Tensor) (n1 n2 h : nat)
    (k : Z) (variant : string) (eps : R) :
  has_shape first n1 h -> has_shape second n2 h -> (0 <= k)%Z ->
  exists a score,
    cosine_similarity first second = Ok a /\
    has_shape a n1 n2 /\
    margin_based_scoring first second k variant eps = Ok score /\
    has_shape score n1 n2 /\
    (String.eqb variant "absolute" = true -> score = a) /\
    forall i j, (i < n1)%nat -> (j < n2)%nat ->
      entry score i j =
      margin_score (rows first) (rows second) (Z.to_nat k) variant eps i j.
Proof.
  intros H1 H2 Hk.
  destruct (cosine_similarity_entries H1 H2) as (a & Ha & Has & Hae).
  pose proof H1 as (_ & _ & Hl1 & _). pose proof H2 as (_ & _ & Hl2 & _).
  exists a. unfold margin_based_scoring, margin_score.
  rewrite Ha, Hl1, Hl2. cbn [bind].
  destruct (String.eqb variant "absolute") eqn:Habs.
  - exists a. repeat (split; [easy|]). intros i j Hi Hj. now apply Hae.
  - destruct (baseline_entries _ Has Hk Hae)
      as (nn_k_row & nn_k_col & s & Hrow & Hcol & _ & _ & Hsum & Hss & Hse).
    rewrite Hrow, Hcol. cbn [bind]. rewrite Hsum. cbn [bind].
    destruct (map_tensor_shape (fun x => x * 0.5 + eps) Hss) as [Hbs Hbe].
    set (b := map_tensor _ s) in *.
    destruct (String.eqb variant "distance").
    + destruct (pointwise_entry Rminus Has Hbs
                  (broadcast_dim_refl _ n1) (broadcast_dim_refl _ n2))
        as (score & Hscore & Hshape & Hentry).
      exists score. repeat (split; [easy|]). intros i j Hi Hj.
      rewrite (Hentry i j Hi Hj), !bidx_same, (Hbe i j Hi Hj), (Hse i j Hi Hj).
      rewrite (Hae i j Hi Hj). lra.
    + destruct (pointwise_entry Rdiv Has Hbs
                  (broadcast_dim_refl _ n1) (broadcast_dim_refl _ n2))
        as (score & Hscore & Hshape & Hentry).
      exists score. repeat (split; [easy|]). intros i j Hi Hj.
      rewrite (Hentry i j Hi Hj), !bidx_same, (Hbe i j Hi Hj), (Hse i j Hi Hj).
      rewrite (Hae i j Hi Hj). f_equal. lra.
Qed.

(** C1: [margin_based_scoring] forms the cosine-similarity matrix [a];
    for the variant "absolute" it returns [a]; otherwise every entry is
    [a - b] for "distance" and [a / b] for any other tag, where [b] adds the
    mean of the top [min k n2] values of the row and the mean of the top
    [min k n1] values of the column, halves the sum and adds [eps]. *)
Theorem margin_based_scoring_entries (first second : Tensor) (n1 n2 h : nat)
    (k : Z) (variant : string) (eps : R) :
  has_shape first n1 h -> has_shape second n2 h -> (0 <= k)%Z ->
  exists a score,
    cosine_similarity first second = Ok a /\
    (forall i j, (i < n1)%nat -> (j < n2)%nat ->
       entry a i j = cosine (nth i (rows first) []) (nth j (rows second) [])) /\
    margin_based_scoring first second k variant eps = Ok score /\
    has_shape score n1 n2 /\
    (variant = "absolute"%string -> score = a) /\
    forall i j, (i < n1)%nat -> (j < n2)%nat ->
      entry score i j =
      margin_score (rows first) (rows second) (Z.to_nat k) variant eps i j.
Proof.
  intros H1 H2 Hk.
  destruct (cosine_similarity_entries H1 H2) as (a & Ha & _ & Hae).
  destruct (margin_based_scoring_core variant eps H1 H2 Hk)
    as (a' & score & Ha' & _ & Hscore & Hshape & Habs & Hentry).
  assert (a' = a) by congruence. subst a'.
  exists a, score. repeat (split; [assumption|]). split; [|assumption].
  intros ->. now apply Habs.
Qed.

Lemma margin_based_scoring_entries_witness :
  exists a score,
    cosine_similarity two_rows three_rows = Ok a /\
    (forall i j, (i < 2)%nat -> (j < 3)%nat ->
       entry a i j = cosine (nth i (rows two_rows) []) (nth j (rows three_rows) [])) /\
    margin_based_scoring two_rows three_rows 4 "ratio" (1 / 1000000) = Ok score /\
    has_shape score 2 3 /\
    ("ratio"%string = "absolute"%string -> score = a) /\
    forall i j, (i < 2)%nat -> (j < 3)%nat ->
      entry score i j =
      margin_score (rows two_rows) (rows three_rows) (Z.to_nat 4) "ratio"
        (1 / 1000000) i j.
Proof.
  apply (margin_based_scoring_entries (first := two_rows) (second := three_rows) (h := 2)).
  - repeat split; repeat constructor.
  - repeat split; repeat constructor.
  - lia.
Defined.

(** Without the [min], a neighbourhood larger than the matrix is an error. *)
Example topk_beyond_size :
  topk_dim1 two_rows 4 = Raise RuntimeError.
Proof. reflexivity. Qed.

End Scoring.

(** ** Retrieval of a set against itself *)

Section SelfRetrieval.

#[local] Open Scope R_scope.

Lemma insert_desc_perm (x : R) (l : list R) : Permutation (insert_desc x l) (x :: l).
Proof.
  induction l as [|y l IH]; [reflexivity|].
  simpl. destruct (Rle_dec y x); [reflexivity|].
  rewrite IH. apply perm_swap.
Qed.

Lemma sort_desc_perm (l : list R) : Permutation (sort_desc l) l.
Proof.
  induction l as [|x l IH]; [reflexivity|].
  simpl. rewrite insert_desc_perm. now constructor.
Qed.



Lemma sort_desc_head (l : list R) :
  match sort_desc l with
  | [] => l = []
  | y :: _ => forall x, In x l -> x <= y
  end.
Proof.
  induction l as [|x l IH]; [reflexivity|].
  simpl. destruct (sort_desc l) as [|y s].
  - subst l. simpl. intros z [<-|[]]. lra.
  - simpl. destruct (Rle_dec y x) as [Hle|Hgt].
    + intros z [<-|Hz]; [lra|]. specialize (IH z Hz). lra.
    + intros z [<-|Hz]; [lra|]. now apply IH.
Qed.

(** The nearest neighbour of a list that contains its upper bound. *)
Lemma top_one_max (l : list R) (M : R) :
  In M l -> (forall x, In x l -> x <= M) -> top_values 1 l = [M].
Proof.
  intros HM Hmax. unfold top_values.
  pose proof (sort_desc_head l) as Hhead.
  pose proof (sort_desc_perm l) as Hperm.
  destruct (sort_desc l) as [|y s].
  - subst l. contradiction.
  - simpl. f_equal.
    assert (Hy : In y l) by (apply (Permutation_in _ Hperm); now left).
    specialize (Hhead M HM). specialize (Hmax y Hy). lra.
Qed.

Lemma Rsum_squares_nonneg (v : list R) : 0 <= Rsum (map (fun x => x * x) v).
Proof.
  unfold Rsum. induction v as [|x v IH]; simpl; [lra|]. nra.
Qed.

Lemma l2_norm_square (v : list R) :
  l2_norm v * l2_norm v = Rsum (map (fun x => x * x) v).
Proof. unfold l2_norm. apply sqrt_sqrt, Rsum_squares_nonneg. Qed.

Lemma dot_self (v : list R) : dot v v = Rsum (map (fun x => x * x) v).
Proof.
  unfold dot, map2, Rsum. induction v as [|x v IH]; simpl; [reflexivity|].
  now rewrite IH.
Qed.

Lemma dot_scaled (c d : R) (u : list R) : forall v : list R,
  c <> 0 -> d <> 0 ->
  dot (map (fun x => x / c) u) (map (fun x => x / d) v) = dot u v / (c * d).
Proof.
  unfold dot, map2, Rsum.
  induction u as [|x u IH]; intros [|y v] Hc Hd; simpl;
    try (field; now split).
  rewrite IH by assumption. field. now split.
Qed.

Lemma dot_le_squares (u : list R) : forall v : list R,
  2 * dot u v <= dot u u + dot v v.
Proof.
  unfold dot, map2, Rsum.
  induction u as [|x u IH]; intros [|y v]; simpl; try lra.
  - pose proof (Rsum_squares_nonneg (y :: v)) as H.
    unfold Rsum in H. simpl in H.
    change (fold_right Rplus 0 (map (fun p => fst p * snd p) (combine v v)))
      with (dot v v). rewrite dot_self. unfold Rsum. lra.
  - pose proof (Rsum_squares_nonneg (x :: u)) as H.
    unfold Rsum in H. simpl in H.
    change (fold_right Rplus 0 (map (fun p => fst p * snd p) (combine u u)))
      with (dot u u). rewrite dot_self. unfold Rsum. lra.
  - specialize (IH v). pose proof (Rle_0_sqr (x - y)) as Hsq.
    unfold Rsqr in Hsq. lra.
Qed.

(** A row with a non-zero norm has cosine 1 with itself, and no cosine
    exceeds 1. *)
Lemma cosine_self (v : list R) : l2_norm v <> 0 -> cosine v v = 1.
Proof.
  intros Hn. unfold cosine, normalize.
  rewrite dot_scaled by assumption.
  rewrite dot_self, <- l2_norm_square. now field.
Qed.

Lemma cosine_le_1 (u v : list R) :
  l2_norm u <> 0 -> l2_norm v <> 0 -> cosine u v <= 1.
Proof.
  intros Hu Hv.
  pose proof (dot_le_squares (normalize u) (normalize v)) as H.
  fold (cosine u v) in H. fold (cosine u u) in H. fold (cosine v v) in H.
  rewrite !cosine_self in H by assumption. lra.
Qed.

Lemma tensor_of_entries (t : Tensor) (n m : nat) (M : list (list R)) :
  has_shape t n m ->
  length M = n -> Forall (fun r => length r = m) M ->
  (forall i j, (i < n)%nat -> (j < m)%nat -> entry t i j = nth j (nth i M []) 0) ->
  t = mkTensor2 n m M.
Proof.
  intros Hs HM HMr He. pose proof Hs as (H0 & H1 & Hl & _).
  destruct t as [s0 s1 rs]. cbn [size0 size1 rows] in *. subst s0 s1. f_equal.
  apply (nth_ext _ _ [] []); [congruence|].
  intros i Hi. rewrite Hl in Hi.
  change (nth i rs []) with (nth i (rows (mkTensor2 n m rs)) []).
  apply row_ext with (n := n) (m := m); try assumption.
  - rewrite Forall_forall in HMr. apply HMr, nth_In. lia.
  - intros j Hj. now apply He.
Qed.






Lemma hub_rows_shape : has_shape hub_rows 3 2.
Proof. repeat split; repeat constructor. Qed.





Lemma argmax_list_unique_max (l : list R) (i : nat) :
  (i < length l)%nat ->
  (forall j, (j < length l)%nat -> nth j l 0 <= nth i l 0) ->
  (forall j, (j < length l)%nat -> j <> i -> nth j l 0 <> nth i l 0) ->
  argmax_list l = i.
Proof.
  intros Hi Hle Hne.
  assert (Hnil : l <> []) by (intros ->; simpl in Hi; lia).
  destruct (argmax_list_spec Hnil) as (Hj & Hmax & _).
  destruct (Nat.eq_dec (argmax_list l) i) as [Heq|Hneq]; [assumption|].
  exfalso. apply (Hne (argmax_list l) Hj Hneq).
  specialize (Hmax i Hi). specialize (Hle (argmax_list l) Hj). lra.
Qed.

(** A square score matrix without ties whose rows peak on the diagonal. *)
Lemma diagonal_retrieval (score : Tensor) (n : nat) :
  has_shape score n n -> (0 < n)%nat ->
  (forall i j, (i < n)%nat -> (j < n)%nat -> entry score i j <= entry score i i) ->
  no_ties score ->
  (forall i, (i < n)%nat -> argmax_list (nth i (rows score) []) = i) /\
  layer_accuracy score = Ok 1.
Proof.
  intros Hs Hn Hdiag Hties. pose proof Hs as (H0 & H1 & _).
  assert (Harg : forall i, (i < n)%nat -> argmax_list (nth i (rows score) []) = i).
  { intros i Hi. pose proof (@has_shape_row _ score n n i [] Hs Hi) as Hrow.
    apply argmax_list_unique_max.
    - lia.
    - intros j Hj. apply (Hdiag i j Hi). lia.
    - intros j Hj Hne. apply (Hties i j i); lia. }
  split; [assumption|]. now apply layer_accuracy_all_hits with (n := n).
Qed.

(** With [k = 1] the baseline of a set scored against itself is
    [1 + eps] everywhere: every row and every column of the cosine matrix
    has its largest value, 1, on the diagonal. *)
Lemma self_margin_scores_k1 (X : Tensor) (n h : nat) (variant : string) (eps : R) :
  has_shape X n h -> (0 < n)%nat ->
  (forall r, In r (rows X) -> l2_norm r <> 0) ->
  String.eqb variant "absolute" = false ->
  exists score,
    margin_based_scoring X X 1 variant eps = Ok score /\
    has_shape score n n /\
    forall i j, (i < n)%nat -> (j < n)%nat ->
      entry score i j =
      if String.eqb variant "distance"
      then cosine (nth i (rows X) []) (nth j (rows X) []) - (1 + eps)
      else cosine (nth i (rows X) []) (nth j (rows X) []) / (1 + eps).
Proof.
  intros Hs Hn Hnorm Habs. pose proof Hs as (_ & _ & Hl & _).
  assert (Hnz : forall i, (i < n)%nat -> l2_norm (nth i (rows X) []) <> 0)
    by (intros i Hi; apply Hnorm, nth_In; lia).
  set (A := fun i j => cosine (nth i (rows X) []) (nth j (rows X) [])).
  assert (Hself : forall i, (i < n)%nat -> A i i = 1)
    by (intros i Hi; apply cosine_self; now apply Hnz).
  assert (Hle : forall i j, (i < n)%nat -> (j < n)%nat -> A i j <= 1)
    by (intros i j Hi Hj; apply cosine_le_1; now apply Hnz).
  destruct (margin_based_scoring_core variant eps Hs Hs (k := 1))
    as (a' & score & _ & _ & Hscore & Hshape & _ & Hentry); [lia|].
  exists score. split; [assumption|]. split; [assumption|].
  assert (Htop : forall f : nat -> R, forall i, (i < n)%nat ->
            f i = 1 -> (forall j, (j < n)%nat -> f j <= 1) ->
            mean (top_values (Nat.min (Z.to_nat 1) n) (map f (seq 0 n))) = 1).
  { intros f i Hi Hfi Hf.
    replace (Nat.min (Z.to_nat 1) n) with 1%nat by lia.
    rewrite (@top_one_max _ 1).
    - unfold mean, Rsum. simpl. lra.
    - rewrite <- Hfi. apply in_map, in_seq. lia.
    - intros x Hx. apply in_map_iff in Hx as (j & <- & Hj).
      apply in_seq in Hj. apply Hf. lia. }
  intros i j Hi Hj. rewrite (Hentry i j Hi Hj). unfold margin_score.
  cbv zeta. rewrite Habs, Hl.
  pose proof (Htop (fun j' => A i j') i Hi (Hself i Hi)
                (fun j' Hj' => Hle i j' Hi Hj')) as Hr.
  pose proof (Htop (fun i' => A i' j) j Hj (Hself j Hj)
                (fun i' Hi' => Hle i' j Hi' Hj)) as Hc.
  unfold A in Hr, Hc. cbv beta in Hr, Hc. rewrite Hr, Hc.
  replace ((1 + 1) / 2 + eps) with (1 + eps) by lra. reflexivity.
Qed.

Lemma filter_length_all {A : Type} (f : A -> bool) (l : list A) :
  length (filter f l) = length l -> forall x, In x l -> f x = true.
Proof.
  induction l as [|a l IH]; intros Hlen x Hin; [destruct Hin|].
  cbn [filter] in Hlen. destruct (f a) eqn:E.
  - cbn [length] in Hlen. destruct Hin as [<-|Hin]; [assumption|].
    apply IH; [lia|assumption].
  - pose proof (filter_length_le f l). cbn [length] in Hlen. lia.
Qed.

(** An accuracy of 1 leaves no row whose first largest entry is off the
    diagonal. *)
Lemma layer_accuracy_one_hits (score : Tensor) (n : nat) :
  has_shape score n n -> (0 < n)%nat ->
  layer_accuracy score = Ok 1 ->
  forall i, (i < n)%nat -> argmax_list (nth i (rows score) []) = i.
Proof.
  intros Hs Hn Hacc i Hi. rewrite (layer_accuracy_value Hs Hn) in Hacc.
  destruct Hs as (_ & _ & Hlen & _).
  set (preds := map argmax_list (rows score)) in *.
  assert (Hpl : length preds = n) by (unfold preds; now rewrite length_map).
  injection Hacc as Hacc.
  assert (Hpos : INR n <> 0) by (apply not_0_INR; lia).
  assert (Hhits : hit_rows preds = n).
  { apply INR_eq. apply (Rmult_eq_reg_r (/ INR n)).
    - rewrite Rinv_r by assumption. exact Hacc.
    - now apply Rinv_neq_0_compat. }
  unfold hit_rows, enumerate in Hhits.
  assert (Hall : length (filter (fun p => (snd p =? fst p)%nat)
                           (combine (seq 0 (length preds)) preds)) =
                 length (combine (seq 0 (length preds)) preds))
    by (rewrite length_combine, length_seq; lia).
  pose proof (filter_length_all _ _ Hall (i, nth i preds 0%nat)) as Hin.
  cbn [fst snd] in Hin.
  assert (Hmem : In (i, nth i preds 0%nat) (combine (seq 0 (length preds)) preds)).
  { replace (i, nth i preds 0%nat)
      with (nth i (combine (seq 0 (length preds)) preds) (0%nat, 0%nat)).
    - apply nth_In. rewrite length_combine, length_seq. lia.
    - rewrite combine_nth_both by (rewrite ?length_seq; lia).
      rewrite seq_nth by lia. reflexivity. }
  apply Hin, Nat.eqb_eq in Hmem. rewrite <- Hmem at 2.
  unfold preds. rewrite (nth_indep _ 0%nat (argmax_list [])) by (rewrite length_map; lia).
  now rewrite map_nth.
Qed.


Lemma two_rows_norms (r : list R) : In r (rows two_rows) -> l2_norm r = 1.
Proof.
  cbn [two_rows rows]. unfold l2_norm, Rsum.
  intros [<-|[<-|[]]]; cbn [map fold_right].
  - replace (1 * 1 + (0 * 0 + 0)) with (1 * 1) by lra. apply sqrt_square. lra.
  - replace (0 * 0 + (1 * 1 + 0)) with (1 * 1) by lra. apply sqrt_square. lra.
Qed.

Lemma two_rows_nonzero (r : list R) : In r (rows two_rows) -> l2_norm r <> 0.
Proof. intros Hr. rewrite (two_rows_norms Hr). lra. Qed.

(** The scenario of the specification: two distinct words against
    themselves, variant "ratio", [k = 1]. *)
Lemma two_rows_ratio_no_ties (score : Tensor) :
  margin_based_scoring two_rows two_rows 1 "ratio" (1 / 1000000) = Ok score ->
  no_ties score.
Proof.
  intros Hscore.
  assert (Hshape : has_shape two_rows 2 2) by (repeat split; repeat constructor).
  destruct (@self_margin_scores_k1 two_rows 2 2 "ratio" (1 / 1000000) Hshape)
    as (score' & Hscore' & (H0 & H1 & _) & Hval);
    [lia|exact two_rows_nonzero|reflexivity|].
  assert (score' = score) by congruence. subst score'.
  assert (N0 : l2_norm [1; 0] = 1) by (apply two_rows_norms; cbn; auto).
  assert (N1 : l2_norm [0; 1] = 1) by (apply two_rows_norms; cbn; auto).
  intros i j j' Hi Hj Hj' Hne. rewrite H0 in Hi. rewrite H1 in Hj, Hj'.
  rewrite !Hval by assumption. cbn [String.eqb Ascii.eqb Bool.eqb].
  unfold cosine, normalize.
  destruct i as [|[|i]]; try lia; destruct j as [|[|j]]; try lia;
    destruct j' as [|[|j']]; try lia; try congruence;
    cbn [two_rows rows nth]; rewrite ?N0, ?N1;
    unfold dot, map2, Rsum; cbn [map combine fold_right fst snd]; lra.
Qed.

Lemma two_rows_ratio_diagonal (score : Tensor) :
  margin_based_scoring two_rows two_rows 1 "ratio" (1 / 1000000) = Ok score ->
  forall i j, (i < 2)%nat -> (j < 2)%nat -> entry score i j <= entry score i i.
Proof.
  intros Hscore.
  assert (Hshape : has_shape two_rows 2 2) by (repeat split; repeat constructor).
  destruct (@self_margin_scores_k1 two_rows 2 2 "ratio" (1 / 1000000) Hshape)
    as (score' & Hscore' & _ & Hval);
    [lia|exact two_rows_nonzero|reflexivity|].
  assert (score' = score) by congruence. subst score'.
  assert (N0 : l2_norm [1; 0] = 1) by (apply two_rows_norms; cbn; auto).
  assert (N1 : l2_norm [0; 1] = 1) by (apply two_rows_norms; cbn; auto).
  intros i j Hi Hj. rewrite !Hval by assumption. cbn [String.eqb Ascii.eqb Bool.eqb].
  unfold cosine, normalize.
  destruct i as [|[|i]]; try lia; destruct j as [|[|j]]; try lia;
    cbn [two_rows rows nth]; rewrite ?N0, ?N1;
    unfold dot, map2, Rsum; cbn [map combine fold_right fst snd]; lra.
Qed.

(** The scenario of the specification: on two orthogonal unit rows the
    diagonal scores are the largest, and the accuracy is 1. *)
Example self_retrieval_two_rows :
  exists score,
    margin_based_scoring two_rows two_rows 1 "ratio" (1 / 1000000) = Ok score /\
    layer_accuracy score = Ok 1.
Proof.
  assert (Hshape : has_shape two_rows 2 2) by (repeat split; repeat constructor).
  destruct (@margin_based_scoring_core two_rows two_rows 2 2 2 1 "ratio" (1 / 1000000)
              Hshape Hshape ltac:(lia))
    as (a & score & _ & _ & Hscore & Hss & _ & _).
  exists score. split; [assumption|].
  apply (diagonal_retrieval Hss); [lia| |].
  - now apply two_rows_ratio_diagonal.
  - now apply two_rows_ratio_no_ties.
Qed.


End SelfRetrieval.

(** ** Batched extraction *)

Section Batching.

#[local] Open Scope R_scope.

(** *** The dict of per-layer accumulators *)

Lemma setdefault_append_fresh {A : Type} (i : nat) (x : A) (temp : list (nat * list A)) :
  (forall p, In p temp -> fst p <> i) ->
  setdefault_append i x temp = temp ++ [(i, [x])].
Proof.
  induction temp as [|[j xs] temp IH]; intros Hfresh; [reflexivity|].
  simpl. destruct (Nat.eqb_spec j i) as [->|Hne].
  - exfalso. apply (Hfresh (i, xs)); [now left|reflexivity].
  - f_equal. apply IH. intros p Hp. apply Hfresh. now right.
Qed.

Lemma setdefault_append_update {A : Type} (i : nat) (x : A) (g : nat -> list A) :
  forall (L s : nat), (s <= i < s + L)%nat ->
  setdefault_append i x (map (fun j => (j, g j)) (seq s L)) =
  map (fun j => (j, if (j =? i)%nat then g j ++ [x] else g j)) (seq s L).
Proof.
  induction L as [|L IH]; intros s Hs; [lia|].
  simpl. destruct (Nat.eqb_spec s i) as [->|Hne].
  - f_equal. apply map_ext_in. intros j Hj. apply in_seq in Hj.
    destruct (Nat.eqb_spec j i); [lia|reflexivity].
  - f_equal. apply IH. lia.
Qed.

(** Appending one tensor per layer to an empty dict creates the keys in
    layer order. *)
Lemma append_layers_fresh {A : Type} (x : nat -> A) : forall (m k : nat),
  fold_left (fun t i => setdefault_append i (x i) t) (seq k m)
            (map (fun i => (i, [x i])) (seq 0 k)) =
  map (fun i => (i, [x i])) (seq 0 (k + m)).
Proof.
  induction m as [|m IH]; intros k.
  - simpl. now rewrite Nat.add_0_r.
  - simpl. rewrite setdefault_append_fresh.
    + replace (map (fun i => (i, [x i])) (seq 0 k) ++ [(k, [x k])])
        with (map (fun i => (i, [x i])) (seq 0 (S k)))
        by (rewrite seq_S, map_app; reflexivity).
      rewrite IH. f_equal. f_equal. lia.
    + intros p Hp. apply in_map_iff in Hp as (j & <- & Hj).
      apply in_seq in Hj. simpl. lia.
Qed.

(** Appending one tensor per layer to a dict that has all the keys extends
    every accumulator. *)
Lemma append_layers_update {A : Type} (x : nat -> A) (f : nat -> list A) (L : nat) :
  forall (m k : nat), (k + m = L)%nat ->
  fold_left (fun t i => setdefault_append i (x i) t) (seq k m)
            (map (fun i => (i, if (i <? k)%nat then f i ++ [x i] else f i)) (seq 0 L)) =
  map (fun i => (i, f i ++ [x i])) (seq 0 L).
Proof.
  induction m as [|m IH]; intros k Hk.
  - simpl. apply map_ext_in. intros i Hi. apply in_seq in Hi.
    destruct (Nat.ltb_spec i k); [reflexivity|lia].
  - simpl. rewrite setdefault_append_update by lia.
    rewrite <- (IH (S k)) by lia. f_equal.
    apply map_ext_in. intros i Hi. apply in_seq in Hi.
    destruct (Nat.eqb_spec i k) as [->|Hne].
    + destruct (Nat.ltb_spec k k); [lia|].
      destruct (Nat.ltb_spec k (S k)); [reflexivity|lia].
    + destruct (Nat.ltb_spec i k), (Nat.ltb_spec i (S k)); try reflexivity; lia.
Qed.

(** *** Contiguous batches *)

Lemma slice_chunks {A : Type} (bs : nat) : forall (c : nat) (l : list A),
  (length l <= c * bs)%nat ->
  concat (map (fun start => slice l start (start + bs))
              (map (fun q => (q * bs)%nat) (seq 0 c))) = l.
Proof.
  induction c as [|c IH]; intros l Hl.
  - destruct l; [reflexivity|simpl in Hl; lia].
  - cbn [seq map concat]. rewrite <- seq_shift, !map_map.
    unfold slice at 1. cbn [Nat.mul Nat.add skipn].
    rewrite Nat.sub_0_r.
    transitivity (firstn bs l ++ skipn bs l); [|apply firstn_skipn]. f_equal.
    rewrite <- (IH (skipn bs l)) by (rewrite length_skipn; lia).
    rewrite map_map. f_equal. apply map_ext. intros q. unfold slice.
    rewrite skipn_skipn. f_equal; [lia|]. f_equal. lia.
Qed.

Lemma range_step_covers (n bs : nat) : (0 < bs)%nat ->
  (n <= (n + bs - 1) / bs * bs)%nat /\
  forall q, (q < (n + bs - 1) / bs)%nat -> (q * bs < n)%nat.
Proof.
  intros Hbs. set (c := ((n + bs - 1) / bs)%nat).
  assert (H1 : (bs * c <= n + bs - 1)%nat) by apply Nat.Div0.mul_div_le.
  assert (H2 : (n + bs - 1 < bs * S c)%nat) by (apply Nat.mul_succ_div_gt; lia).
  split; [nia|]. intros q Hq. nia.
Qed.

(** *** The attention mask of a right-padded batch *)

Lemma count_of_ones_padded (a b : nat) :
  count_of_ones (repeat 1%Z a ++ repeat 0%Z b) = a.
Proof.
  unfold count_of_ones. rewrite count_occ_app.
  rewrite count_occ_repeat_eq by reflexivity.
  rewrite count_occ_repeat_neq by discriminate. lia.
Qed.

Lemma unmasked_padded (a b : nat) : forall tokens : list (list R),
  length tokens = (a + b)%nat ->
  unmasked tokens (repeat 1%Z a ++ repeat 0%Z b) = firstn a tokens.
Proof.
  unfold unmasked. induction a as [|a IH]; intros tokens Hlen.
  - simpl. clear Hlen. revert tokens.
    induction b as [|b IHb]; intros [|v tokens]; simpl; auto.
  - destruct tokens as [|v tokens]; [discriminate|].
    simpl. f_equal. apply IH. simpl in Hlen. lia.
Qed.

Lemma list_max_ge (l : list nat) (x : nat) : In x l -> (x <= list_max l)%nat.
Proof.
  intros Hx. pose proof (proj1 (list_max_le l (list_max l)) (Nat.le_refl _)) as H.
  rewrite Forall_forall in H. now apply H.
Qed.

Section Model.

Variable tokenize : string -> list Z.
Variable pad_token_id : Z.
Variable model : Tensor2 Z -> Tensor2 Z -> list Tensor3.
Variable encode : encoder.
Variables nlayers h : nat.

Hypothesis model_sequencewise : sequencewise tokenize pad_token_id model encode nlayers h.


(** The mask of a batch: shape, contents, and the row of each sentence. *)
Lemma tokenizer_mask (batch : list string) :
  Forall (fun s => tokenize s <> []) batch ->
  let mask := snd (tokenizer tokenize pad_token_id batch) in
  has_shape mask (length batch) (longest tokenize batch) /\
  binary_mask mask /\
  forall s, (s < length batch)%nat ->
    let n := length (tokenize (nth s batch EmptyString)) in
    (1 <= n <= longest tokenize batch)%nat /\
    nth s (rows mask) [] = repeat 1%Z n ++ repeat 0%Z (longest tokenize batch - n).
Proof.
  intros Htok. unfold tokenizer, longest. cbn [snd].
  set (l := list_max _).
  assert (Hle : forall s, In s batch -> (1 <= length (tokenize s) <= l)%nat).
  { intros s Hs. rewrite Forall_forall in Htok. specialize (Htok s Hs). split.
    - destruct (tokenize s); [contradiction|simpl; lia].
    - apply list_max_ge. apply in_map, in_map, Hs. }
  split; [|split].
  - repeat split; cbn [size0 size1 rows].
    + now rewrite !length_map.
    + apply Forall_forall. intros r Hr.
      apply in_map_iff in Hr as (t & <- & Ht).
      apply in_map_iff in Ht as (s & <- & Hs).
      rewrite length_app, !repeat_length. specialize (Hle s Hs). lia.
  - unfold binary_mask. cbn [rows]. apply Forall_forall. intros r Hr.
    apply in_map_iff in Hr as (t & <- & Ht).
    apply in_map_iff in Ht as (s & <- & Hs). split.
    + apply Forall_app. split; apply Forall_forall; intros z Hz;
        apply repeat_spec in Hz; auto.
    + apply in_or_app. left. specialize (Hle s Hs).
      destruct (length (tokenize s)); [lia|]. now left.
  - intros s Hs. cbv zeta. cbn [rows]. split.
    + apply Hle, nth_In, Hs.
    + rewrite map_map. rewrite (nth_map_lt _ _ _ EmptyString) by assumption.
      reflexivity.
Qed.

Lemma tensor_of_rows (t : Tensor) (n m : nat) (M : list (list R)) :
  has_shape t n m -> length M = n ->
  (forall i, (i < n)%nat -> nth i (rows t) [] = nth i M []) ->
  t = mkTensor2 n m M.
Proof.
  intros (H0 & H1 & Hl & _) HM Hrows.
  destruct t as [s0 s1 rs]. cbn [size0 size1 rows] in *. subst s0 s1. f_equal.
  apply (nth_ext _ _ [] []); [congruence|].
  intros i Hi. apply Hrows. lia.
Qed.

Lemma nth_firstn_lt {A : Type} (l : list A) : forall (n i : nat) (d : A),
  (i < n)%nat -> nth i (firstn n l) d = nth i l d.
Proof.
  induction l as [|x l IH]; intros [|n] [|i] d Hi; simpl; try lia; try reflexivity.
  apply IH. lia.
Qed.

(** What the model and the mask give for one batch and one layer. *)
Lemma batch_layer (batch : list string) (i : nat) :
  batch <> [] -> Forall (fun s => tokenize s <> []) batch -> (i < nlayers)%nat ->
  let tokens := tokenizer tokenize pad_token_id batch in
  let hs := nth i (model (fst tokens) (snd tokens)) no_tensor3 in
  has_shape3 hs (length batch) (longest tokenize batch) h /\
  has_shape (snd tokens) (length batch) (longest tokenize batch) /\
  binary_mask (snd tokens) /\
  forall s, (s < length batch)%nat ->
    let n := length (tokenize (nth s batch EmptyString)) in
    (1 <= n)%nat /\
    count_of_ones (nth s (rows (snd tokens)) []) = n /\
    unmasked (nth s (vals hs) []) (nth s (rows (snd tokens)) []) =
      nth i (encode (tokenize (nth s batch EmptyString))) [] /\
    nth (n - 1) (nth s (vals hs) []) [] =
      nth (n - 1) (nth i (encode (tokenize (nth s batch EmptyString))) []) [].
Proof.
  intros Hne Htok Hi tokens hs.
  destruct (model_sequencewise Hne Htok) as [_ Hlayers].
  destruct (Hlayers i Hi) as [Hshape Henc]. fold tokens in Hshape, Henc. fold hs in Hshape, Henc.
  destruct (tokenizer_mask Htok) as (Hmask & Hbin & Hrows). fold tokens in Hmask, Hbin, Hrows.
  assert (Hsize : size1 (snd tokens) = longest tokenize batch) by apply Hmask.
  rewrite Hsize in Hshape.
  repeat (split; [assumption|]).
  intros s Hs. cbv zeta. destruct (Hrows s Hs) as [Hn Hrow]. rewrite Hrow.
  specialize (Henc s Hs).
  assert (Hlen : length (nth s (vals hs) []) = longest tokenize batch).
  { destruct Hshape as (_ & _ & _ & Hvl & Hvals). rewrite Forall_forall in Hvals.
    apply Hvals, nth_In. lia. }
  split; [lia|]. split; [apply count_of_ones_padded|]. split.
  - rewrite unmasked_padded by lia. exact Henc.
  - rewrite <- Henc. symmetry. apply nth_firstn_lt. lia.
Qed.

(** On every batch and layer, mean pooling returns the rows of the
    sentences of the batch. *)
Lemma mean_hidden_state_batch (batch : list string) (i : nat) :
  batch <> [] -> Forall (fun s => tokenize s <> []) batch -> (i < nlayers)%nat ->
  let tokens := tokenizer tokenize pad_token_id batch in
  mean_hidden_state (nth i (model (fst tokens) (snd tokens)) no_tensor3) (snd tokens) =
  Ok (mkTensor2 (length batch) h (map (mean_row tokenize encode h i) batch)).
Proof.
  intros Hne Htok Hi tokens.
  destruct (batch_layer Hne Htok Hi) as (Hshape & Hmask & Hbin & Hrows).
  fold tokens in Hshape, Hmask, Hbin, Hrows.
  destruct (mean_hidden_state_unmasked Hshape Hmask Hbin) as (out & Hout & Hos & Hentry).
  rewrite Hout. f_equal. apply tensor_of_entries; try assumption.
  - now rewrite length_map.
  - apply Forall_forall. intros r Hr. apply in_map_iff in Hr as (s & <- & _).
    unfold mean_row. now rewrite length_map, length_seq.
  - intros s j Hs Hj. rewrite (Hentry s j Hs Hj).
    destruct (Hrows s Hs) as (_ & _ & -> & _).
    rewrite (nth_map_lt _ _ _ EmptyString) by assumption.
    unfold mean_row. rewrite (nth_map_lt _ _ _ 0%nat) by now rewrite length_seq.
    now rewrite seq_nth.
Qed.

(** On every batch and layer, last-token pooling returns the rows of the
    sentences of the batch. *)
Lemma last_token_hidden_state_batch (batch : list string) (i : nat) :
  batch <> [] -> Forall (fun s => tokenize s <> []) batch -> (i < nlayers)%nat ->
  let tokens := tokenizer tokenize pad_token_id batch in
  last_token_hidden_state (nth i (model (fst tokens) (snd tokens)) no_tensor3) (snd tokens) =
  Ok (mkTensor2 (length batch) h (map (last_row tokenize encode i) batch)).
Proof.
  intros Hne Htok Hi tokens.
  destruct (batch_layer Hne Htok Hi) as (Hshape & Hmask & Hbin & Hrows).
  fold tokens in Hshape, Hmask, Hbin, Hrows.
  destruct (last_token_hidden_state_rows Hshape Hmask Hbin) as (out & Hout & Hos & Hrow).
  rewrite Hout. f_equal. apply tensor_of_rows; try assumption.
  - now rewrite length_map.
  - intros s Hs. rewrite (Hrow s Hs).
    destruct (Hrows s Hs) as (_ & -> & _ & ->).
    now rewrite (nth_map_lt _ _ _ EmptyString).
Qed.

(** *** The loop over batches *)

Section Loop.

Variable pool : Tensor3 -> Tensor2 Z -> result Tensor.
Variable row : nat -> string -> list R.

Hypothesis pool_batch : forall (batch : list string) (i : nat),
  batch <> [] -> Forall (fun s => tokenize s <> []) batch -> (i < nlayers)%nat ->
  let tokens := tokenizer tokenize pad_token_id batch in
  pool (nth i (model (fst tokens) (snd tokens)) no_tensor3) (snd tokens) =
  Ok (mkTensor2 (length batch) h (map (row i) batch)).

Lemma fold_enumerate (mask : Tensor2 Z) (x : nat -> Tensor) :
  forall (hs : list Tensor3) (k : nat) (temp : list (nat * list Tensor)),
  (forall i, (i < length hs)%nat -> pool (nth i hs no_tensor3) mask = Ok (x (k + i)%nat)) ->
  fold_left
    (fun acc p =>
       temp <- acc ;;
       hidden_state <- pool (snd p) mask ;;
       Ok (setdefault_append (fst p) hidden_state temp))
    (combine (seq k (length hs)) hs) (Ok temp) =
  Ok (fold_left (fun t i => setdefault_append i (x i) t) (seq k (length hs)) temp).
Proof.
  induction hs as [|t hs IH]; intros k temp Hx; [reflexivity|].
  cbn [length seq combine fold_left fst snd bind].
  pose proof (Hx 0%nat) as H0. cbn [nth length] in H0.
  rewrite H0, Nat.add_0_r by lia. cbn [bind].
  apply IH. intros i Hi. specialize (Hx (S i)). cbn [nth length] in Hx.
  rewrite Hx by lia. f_equal. f_equal. lia.
Qed.

Lemma batch_step_table (bl : list (list string)) (batch : list string) :
  usable_batch tokenize batch ->
  batch_step tokenize pad_token_id model pool (accumulators row nlayers h bl) batch =
  Ok (accumulators row nlayers h (bl ++ [batch])).
Proof.
  intros [Hne Htok]. unfold batch_step, enumerate.
  destruct (model_sequencewise Hne Htok) as [Hlen _].
  set (tokens := tokenizer tokenize pad_token_id batch) in *.
  rewrite fold_enumerate with (x := fun i => pooled_batch row h i batch).
  2:{ intros i Hi. rewrite Hlen in Hi. now apply pool_batch. }
  rewrite Hlen. f_equal. destruct bl as [|b0 bl].
  - cbn [accumulators app].
    apply (append_layers_fresh (fun i => pooled_batch row h i batch) nlayers 0).
  - unfold accumulators. cbn [app].
    transitivity
      (map (fun i => (i, map (pooled_batch row h i) (b0 :: bl) ++
                         [pooled_batch row h i batch]))
           (seq 0 nlayers)).
    + rewrite <- (@append_layers_update _ (fun i => pooled_batch row h i batch)
                    (fun i => map (pooled_batch row h i) (b0 :: bl)) nlayers nlayers 0)
        by lia.
      reflexivity.
    + apply map_ext. intros i. f_equal.
      change (b0 :: bl ++ [batch]) with ((b0 :: bl) ++ [batch]).
      now rewrite map_app.
Qed.

Lemma batches_table (batches : list (list string)) : forall bl : list (list string),
  Forall (usable_batch tokenize) batches ->
  fold_left
    (fun acc batch => temp <- acc ;; batch_step tokenize pad_token_id model pool temp batch)
    batches (Ok (accumulators row nlayers h bl)) =
  Ok (accumulators row nlayers h (bl ++ batches)).
Proof.
  induction batches as [|b batches IH]; intros bl Hall.
  - now rewrite app_nil_r.
  - inversion Hall as [|? ? Hb Hrest]; subst.
    cbn [fold_left bind]. rewrite (batch_step_table bl Hb).
    rewrite (IH (bl ++ [b]) Hrest). now rewrite <- app_assoc.
Qed.

Lemma cat_pooled (i : nat) (batches : list (list string)) :
  batches <> [] ->
  cat_dim0 (map (pooled_batch row h i) batches) =
  Ok (mkTensor2 (length (concat batches)) h (map (row i) (concat batches))).
Proof.
  intros Hne. destruct batches as [|b batches]; [contradiction|].
  unfold cat_dim0. cbn [map].
  replace (forallb _ _) with true.
  - f_equal. unfold pooled_batch at 3. cbn [size1]. f_equal.
    + rewrite length_concat, map_map. reflexivity.
    + change (rows (pooled_batch row h i b) :: map (@rows R) (map (pooled_batch row h i) batches))
        with (map (@rows R) (map (pooled_batch row h i) (b :: batches))).
      rewrite map_map. cbn [rows pooled_batch]. now rewrite concat_map.
  - symmetry. apply forallb_forall. intros u Hu.
    apply in_map_iff in Hu as (b' & <- & _). cbn [pooled_batch size1]. apply Nat.eqb_refl.
Qed.

Lemma cat_table (batches : list (list string)) :
  Forall (usable_batch tokenize) batches ->
  traverse (fun p => t <- cat_dim0 (snd p) ;; Ok (fst p, t)) (accumulators row nlayers h batches) =
  Ok (sentence_table row nlayers h (concat batches)).
Proof.
  intros Hall. destruct batches as [|b batches]; [reflexivity|].
  assert (Hcat : concat (b :: batches) <> []).
  { inversion Hall as [|? ? [Hb _] _]; subst. destruct b; [contradiction|discriminate]. }
  unfold sentence_table. destruct (concat (b :: batches)) as [|s0 ss] eqn:Hc; [contradiction|].
  rewrite <- Hc. unfold accumulators.
  rewrite traverse_ok_map
    with (g := fun p => (fst p, mkTensor2 (length (concat (b :: batches))) h
                                  (map (row (fst p)) (concat (b :: batches))))).
  - now rewrite map_map.
  - apply Forall_forall. intros p Hp. apply in_map_iff in Hp as (i & <- & _).
    cbn [fst snd]. now rewrite cat_pooled.
Qed.

Lemma fold_left_map_arg {A B C : Type} (f : A -> C -> A) (g : B -> C) (l : list B) :
  forall a : A, fold_left (fun a b => f a (g b)) l a = fold_left f (map g l) a.
Proof. induction l as [|b l IH]; intros a; [reflexivity|]. simpl. apply IH. Qed.

Lemma slice_usable (sentences : list string) (start bs : nat) :
  Forall (fun s => tokenize s <> []) sentences ->
  (0 < bs)%nat -> (start < length sentences)%nat ->
  usable_batch tokenize (slice sentences start (start + bs)).
Proof.
  intros Htok Hbs Hstart. unfold usable_batch, slice. split.
  - intros Hnil. apply (f_equal (@length string)) in Hnil.
    rewrite length_firstn, length_skipn in Hnil. simpl in Hnil. lia.
  - rewrite Forall_forall in *. intros s Hs. apply Htok.
    rewrite <- (firstn_skipn start sentences). apply in_or_app. right.
    rewrite <- (firstn_skipn (start + bs - start) (skipn start sentences)).
    apply in_or_app. now left.
Qed.

(** With any positive batch size the extractor returns the table built
    sentence by sentence. *)
Lemma layer_representation_sentences (sentences : list string) (batch_size : Z) :
  (0 < batch_size)%Z ->
  Forall (fun s => tokenize s <> []) sentences ->
  layer_representation tokenize pad_token_id model sentences batch_size pool =
  Ok (sentence_table row nlayers h sentences).
Proof.
  intros Hbs Htok. unfold layer_representation.
  destruct (Z.eqb_spec batch_size 0); [lia|].
  destruct (Z.ltb_spec batch_size 0); [lia|].
  set (bs := Z.to_nat batch_size). assert (Hbs' : (0 < bs)%nat) by (unfold bs; lia).
  destruct (range_step_covers (length sentences) Hbs') as [Hcover Hstart].
  unfold range_step.
  set (starts := map (fun q => (q * bs)%nat) (seq 0 ((length sentences + bs - 1) / bs))).
  rewrite (fold_left_map_arg
             (fun acc batch =>
                temp <- acc ;; batch_step tokenize pad_token_id model pool temp batch)
             (fun start => slice sentences start (start + bs))).
  change (Ok (@nil (nat * list Tensor))) with (Ok (accumulators row nlayers h [])).
  rewrite batches_table.
  - cbn [bind app]. rewrite cat_table.
    + unfold starts. now rewrite slice_chunks.
    + apply Forall_forall. intros b Hb. apply in_map_iff in Hb as (start & <- & Hin).
      apply in_map_iff in Hin as (q & <- & Hq). apply in_seq in Hq.
      apply slice_usable; try assumption. apply Hstart. lia.
  - apply Forall_forall. intros b Hb. apply in_map_iff in Hb as (start & <- & Hin).
    apply in_map_iff in Hin as (q & <- & Hq). apply in_seq in Hq.
    apply slice_usable; try assumption. apply Hstart. lia.
Qed.

End Loop.

(** C3: under the contract of the model, with at least one token per
    sentence, any two positive batch sizes give the same representation
    for every layer, with mean pooling and with last-token pooling: the
    table built sentence by sentence, in the order of the input. *)
Theorem layer_representation_batch_size (sentences : list string) (bs1 bs2 : Z) :
  Forall (fun s => tokenize s <> []) sentences ->
  (0 < bs1)%Z -> (0 < bs2)%Z ->
  (layer_representation tokenize pad_token_id model sentences bs1 mean_hidden_state =
     Ok (sentence_table (mean_row tokenize encode h) nlayers h sentences) /\
   layer_representation tokenize pad_token_id model sentences bs2 mean_hidden_state =
     layer_representation tokenize pad_token_id model sentences bs1 mean_hidden_state) /\
  (layer_representation tokenize pad_token_id model sentences bs1 last_token_hidden_state =
     Ok (sentence_table (last_row tokenize encode) nlayers h sentences) /\
   layer_representation tokenize pad_token_id model sentences bs2 last_token_hidden_state =
     layer_representation tokenize pad_token_id model sentences bs1 last_token_hidden_state).
Proof.
  intros Htok H1 H2. split.
  - rewrite !(@layer_representation_sentences mean_hidden_state
               (mean_row tokenize encode h) mean_hidden_state_batch) by assumption.
    now split.
  - rewrite !(@layer_representation_sentences last_token_hidden_state
               (last_row tokenize encode) last_token_hidden_state_batch) by assumption.
    now split.
Qed.

End Model.

End Batching.

(** ** The extractor on a causal model *)

Lemma running_sum_length (ids : list Z) : forall acc,
  length (running_sum acc ids) = length ids.
Proof. induction ids as [|z ids IH]; intros acc; simpl; [reflexivity|]. now rewrite IH. Qed.

Lemma running_sum_prefix (ids pad : list Z) : forall acc,
  firstn (length ids) (running_sum acc (ids ++ pad)) = running_sum acc ids.
Proof.
  induction ids as [|z ids IH]; intros acc; simpl; [reflexivity|]. now rewrite IH.
Qed.

Lemma causal_model_sequencewise :
  sequencewise char_tokenize 0 causal_model causal_encode 2 2.
Proof.
  intros batch Hne Htok tokens hidden_states. split; [reflexivity|].
  intros i Hi.
  set (l := list_max (map (@length Z) (map char_tokenize batch))).
  assert (Hlen : forall s, In s batch -> (length (char_tokenize s) <= l)%nat)
    by (intros s Hs; apply list_max_ge; now apply in_map, in_map).
  assert (Hlayer : nth i hidden_states no_tensor3 =
            mkTensor3 (length batch) l 2
              (map (fun r => nth i (causal_layers r) [])
                 (map (fun t => t ++ repeat 0%Z (l - length t)) (map char_tokenize batch)))).
  { destruct i as [|[|i]]; [reflexivity|reflexivity|lia]. }
  rewrite Hlayer. change (size1 (snd tokens)) with l. split.
  - repeat split; cbn [dim0 dim1 dim2 vals].
    + now rewrite !length_map.
    + apply Forall_forall. intros sq Hsq.
      apply in_map_iff in Hsq as (r & <- & Hr).
      apply in_map_iff in Hr as (t & <- & Ht).
      apply in_map_iff in Ht as (s & <- & Hs).
      specialize (Hlen s Hs).
      destruct i as [|[|i]]; try lia; cbn [causal_layers nth]; split;
        try (rewrite length_map, ?running_sum_length, length_app, repeat_length; lia);
        apply Forall_forall; intros v Hv; apply in_map_iff in Hv as (z & <- & _);
        reflexivity.
  - intros s Hs. cbn [vals]. rewrite !map_map.
    rewrite (nth_map_lt _ _ _ EmptyString) by assumption.
    unfold causal_encode.
    destruct i as [|[|i]]; try lia; cbn [causal_layers nth]; rewrite firstn_map.
    + now rewrite firstn_app, Nat.sub_diag, firstn_all, app_nil_r.
    + now rewrite running_sum_prefix.
Qed.

Lemma layer_representation_batch_size_witness :
  (layer_representation char_tokenize 0 causal_model ["a"; "bc"; "def"]%string 2
     mean_hidden_state =
     Ok (sentence_table (mean_row char_tokenize causal_encode 2) 2 2
           ["a"; "bc"; "def"]%string) /\
   layer_representation char_tokenize 0 causal_model ["a"; "bc"; "def"]%string 10
     mean_hidden_state =
     layer_representation char_tokenize 0 causal_model ["a"; "bc"; "def"]%string 2
       mean_hidden_state) /\
  (layer_representation char_tokenize 0 causal_model ["a"; "bc"; "def"]%string 2
     last_token_hidden_state =
     Ok (sentence_table (last_row char_tokenize causal_encode) 2 2
           ["a"; "bc"; "def"]%string) /\
   layer_representation char_tokenize 0 causal_model ["a"; "bc"; "def"]%string 10
     last_token_hidden_state =
     layer_representation char_tokenize 0 causal_model ["a"; "bc"; "def"]%string 2
       last_token_hidden_state).
Proof.
  apply (layer_representation_batch_size causal_model_sequencewise).
  - repeat constructor; discriminate.
  - lia.
  - lia.
Defined.

(** Last-token pooling of three sentences in batches of two and in one
    batch: the rows of the last characters, "a", "c" and "f", with the sums
    of the character codes in the second layer. *)
(** A sentence without tokens: alone in its batch it leaves last-token
    pooling without a position to read, next to a longer sentence it is
    read at the last padded position.  The model meets the contract. *)
Lemma layer_representation_empty_sentence :
  sequencewise char_tokenize 0 causal_model causal_encode 2 2 /\
  layer_representation char_tokenize 0 causal_model [EmptyString; "ab"%string] 1
    last_token_hidden_state = Raise IndexError /\
  layer_representation char_tokenize 0 causal_model [EmptyString; "ab"%string] 2
    last_token_hidden_state =
  Ok [(0%nat, mkTensor2 2 2 [[0; 0]; [98; 0]]%R);
      (1%nat, mkTensor2 2 2 [[0; 1]; [195; 1]]%R)].
Proof.
  split; [exact causal_model_sequencewise|]. split; reflexivity.
Qed.

Example layer_representation_run :
  layer_representation char_tokenize 0 causal_model ["a"; "bc"; "def"]%string 2
    last_token_hidden_state =
  Ok [(0%nat, mkTensor2 3 2 [[97; 0]; [99; 0]; [102; 0]]%R);
      (1%nat, mkTensor2 3 2 [[97; 1]; [197; 1]; [303; 1]]%R)] /\
  layer_representation char_tokenize 0 causal_model ["a"; "bc"; "def"]%string 10
    last_token_hidden_state =
  Ok [(0%nat, mkTensor2 3 2 [[97; 0]; [99; 0]; [102; 0]]%R);
      (1%nat, mkTensor2 3 2 [[97; 1]; [197; 1]; [303; 1]]%R)].
Proof. split; reflexivity. Qed.

(** * Further properties *)

Import WrLoad.

(** ** Filtering, sampling and loading of word pairs *)

Section PairOperations.

Lemma skipn_nil_inv {A : Type} (l : list A) (i : nat) :
  skipn i l = [] -> nth_error l i = None.
Proof.
  intros H. apply nth_error_None.
  apply (f_equal (@length A)) in H. rewrite length_skipn in H. simpl in H. lia.
Qed.

Lemma filter_pairs_loop_filter (tok : string -> nat) (target : list string) :
  forall (rest trest : list string) (i : nat) (fb ft : list string),
    skipn i target = trest ->
    length rest <= length trest ->
    filter_pairs_loop tok target i rest fb ft =
    Ok (fb ++ map fst (single_token_pairs tok rest trest),
        ft ++ map snd (single_token_pairs tok rest trest)).
Proof.
  induction rest as [|w rest IH]; intros trest i fb ft Hskip Hlen.
  - simpl. now rewrite !app_nil_r.
  - destruct trest as [|t trest]; [simpl in Hlen; lia|].
    apply skipn_cons_inv in Hskip as [Hnth Hskip].
    simpl in Hlen. cbn [filter_pairs_loop]. unfold getitem. rewrite Hnth. cbn [bind].
    unfold single_token_pairs. cbn [combine filter fst snd].
    destruct ((tok w =? 1) && (tok t =? 1)).
    + rewrite (IH trest (S i)) by (assumption || lia).
      cbn [map fst snd]. now rewrite <- !app_assoc.
    + now rewrite (IH trest (S i)) by (assumption || lia).
Qed.

(** X1: when the target list is at least as long as the base list,
    [filter_pairs] returns exactly the pairs in which both words have one
    token, in the order of the input; target words beyond the base list
    are ignored. *)
Theorem filter_pairs_keeps_single_token_pairs
    (base target : list string) (tok : string -> nat) :
  length base <= length target ->
  filter_pairs base target tok =
  Ok (map fst (single_token_pairs tok base target),
      map snd (single_token_pairs tok base target)).
Proof.
  intros Hlen. unfold filter_pairs.
  exact (@filter_pairs_loop_filter tok target base target 0 [] [] eq_refl Hlen).
Qed.

Lemma filter_pairs_keeps_single_token_pairs_witness :
  filter_pairs ["dog"; "cat"]%string ["madra"; "cat"; "teach"]%string
    (fun w => String.length w - 2) =
  Ok (map fst (single_token_pairs (fun w => String.length w - 2)
                 ["dog"; "cat"]%string ["madra"; "cat"; "teach"]%string),
      map snd (single_token_pairs (fun w => String.length w - 2)
                 ["dog"; "cat"]%string ["madra"; "cat"; "teach"]%string)).
Proof.
  apply filter_pairs_keeps_single_token_pairs. simpl. lia.
Defined.

Lemma filter_pairs_loop_short (tok : string -> nat) (target : list string) :
  forall (rest trest : list string) (i : nat) (fb ft : list string),
    skipn i target = trest ->
    length trest < length rest ->
    filter_pairs_loop tok target i rest fb ft = Raise IndexError.
Proof.
  induction rest as [|w rest IH]; intros trest i fb ft Hskip Hlen;
    [simpl in Hlen; lia|].
  cbn [filter_pairs_loop]. unfold getitem. destruct trest as [|t trest].
  - now rewrite (skipn_nil_inv _ _ Hskip).
  - apply skipn_cons_inv in Hskip as [Hnth Hskip]. rewrite Hnth. cbn [bind].
    simpl in Hlen.
    destruct ((tok w =? 1) && (tok t =? 1));
      apply (IH trest (S i)); assumption || lia.
Qed.

(** X2: when the target list is shorter than the base list, [filter_pairs]
    raises [IndexError], whatever the tokenizer says: no partial result is
    returned. *)
Theorem filter_pairs_short_target_raises
    (base target : list string) (tok : string -> nat) :
  length target < length base ->
  filter_pairs base target tok = Raise IndexError.
Proof.
  intros Hlen. unfold filter_pairs.
  exact (@filter_pairs_loop_short tok target base target 0 [] [] eq_refl Hlen).
Qed.

Lemma filter_pairs_short_target_raises_witness :
  filter_pairs ["dog"; "cat"]%string ["madra"]%string (fun _ => 1) = Raise IndexError.
Proof.
  apply filter_pairs_short_target_raises. simpl. lia.
Defined.

Lemma combine_fst_snd {A B : Type} (l : list (A * B)) :
  combine (map fst l) (map snd l) = l.
Proof. induction l as [|[a b] l IH]; simpl; [reflexivity|]. now rewrite IH. Qed.

Lemma filter_twice {A : Type} (P : A -> bool) (l : list A) :
  filter P (filter P l) = filter P l.
Proof.
  induction l as [|x l IH]; simpl; [reflexivity|].
  destruct (P x) eqn:Hx; simpl; [rewrite Hx; now f_equal|assumption].
Qed.

(** X3: [filter_pairs] is idempotent: filtering its own output again
    returns that output unchanged. *)
Theorem filter_pairs_idempotent
    (base target fb ft : list string) (tok : string -> nat) :
  filter_pairs base target tok = Ok (fb, ft) ->
  filter_pairs fb ft tok = Ok (fb, ft).
Proof.
  intros Hrun.
  destruct (Nat.le_gt_cases (length base) (length target)) as [Hle|Hgt].
  - unfold filter_pairs in *.
    rewrite (@filter_pairs_loop_filter tok target base target 0 [] [] eq_refl Hle) in Hrun.
    cbn [app] in Hrun. injection Hrun as <- <-.
    set (F := single_token_pairs tok base target).
    rewrite (@filter_pairs_loop_filter tok (map snd F) (map fst F) (map snd F) 0 [] [] eq_refl)
      by now rewrite !length_map.
    cbn [app].
    assert (HF : single_token_pairs tok (map fst F) (map snd F) = F).
    { unfold single_token_pairs at 1. rewrite combine_fst_snd.
      unfold F, single_token_pairs. apply filter_twice. }
    now rewrite HF.
  - unfold filter_pairs in Hrun.
    rewrite (@filter_pairs_loop_short tok target base target 0 [] [] eq_refl Hgt) in Hrun.
    discriminate.
Qed.

Lemma filter_pairs_idempotent_witness :
  filter_pairs ["cat"]%string ["cat"]%string (fun w => String.length w - 2) =
  Ok (["cat"]%string, ["cat"]%string).
Proof.
  apply (@filter_pairs_idempotent ["dog"; "cat"; "house"]%string
           ["madra"; "cat"; "teach"]%string).
  reflexivity.
Defined.

(** X4: [sample_pairs] samples without replacement: with lists of one
    length and a non-negative sample size it returns the pairs at
    [min(sample_size, len)] distinct source indices, so no source pair is
    returned twice. *)
Theorem sample_pairs_without_replacement
    (rng : Type) (draw : rng -> nat -> nat -> list nat * rng)
    (g : rng) (base target : list string) (m : Z) :
  sampler_contract draw ->
  length base = length target ->
  (0 <= m)%Z ->
  exists idx g',
    sample_pairs draw g base target m =
      (Ok (map (fun i => nth i base EmptyString) idx,
           map (fun i => nth i target EmptyString) idx), g') /\
    NoDup idx /\
    length idx = Nat.min (Z.to_nat m) (length base) /\
    Forall (fun i => i < length base) idx.
Proof.
  intros Hdraw Hlen Hm.
  pose proof (sample_pairs_indices Hdraw g base target Hlen Hm) as Heq.
  cbv zeta in Heq.
  set (k := Z.to_nat (Z.min m (Z.of_nat (length base)))) in *.
  destruct (Hdraw g (length base) k) as (Hk & Hnd & Hin); [unfold k; lia|].
  eexists _, _. split; [exact Heq|]. repeat split; try assumption.
  rewrite Hk. unfold k. lia.
Qed.

Lemma sample_pairs_without_replacement_witness :
  exists idx g',
    sample_pairs countdown_draw 0 ["dog"; "cat"; "house"]%string
      ["madra"; "cat"; "teach"]%string 2 =
      (Ok (map (fun i => nth i ["dog"; "cat"; "house"]%string EmptyString) idx,
           map (fun i => nth i ["madra"; "cat"; "teach"]%string EmptyString) idx), g') /\
    NoDup idx /\
    length idx = Nat.min (Z.to_nat 2) 3 /\
    Forall (fun i => i < 3) idx.
Proof.
  apply (@sample_pairs_without_replacement nat countdown_draw 0).
  - exact countdown_draw_contract.
  - reflexivity.
  - lia.
Defined.

(** X5: the two failures of [sample_pairs]: lists of unequal length raise
    [AssertionError], lists of one length with a negative sample size raise
    [ValueError]; in both cases the random generator is left as it was. *)
Theorem sample_pairs_failures
    (rng : Type) (draw : rng -> nat -> nat -> list nat * rng)
    (g : rng) (base target : list string) (m : Z) :
  length base <> length target \/ (m < 0)%Z ->
  sample_pairs draw g base target m =
  (Raise (if length base =? length target then ValueError else AssertionError), g).
Proof.
  intros Hcase. unfold sample_pairs, random_sample.
  destruct (Nat.eqb_spec (length base) (length target)) as [Heq|Hne]; [|reflexivity].
  destruct Hcase as [Hne|Hm]; [contradiction|]. cbn [negb].
  replace ((Z.min m (Z.of_nat (length base)) <? 0)%Z) with true
    by (symmetry; apply Z.ltb_lt; lia).
  reflexivity.
Qed.

Lemma sample_pairs_failures_witness :
  sample_pairs countdown_draw 7 ["dog"; "cat"]%string ["madra"; "cat"]%string (-1) =
  (Raise (if length ["dog"; "cat"]%string =? length ["madra"; "cat"]%string
          then ValueError else AssertionError), 7).
Proof.
  apply sample_pairs_failures. right. lia.
Defined.

Lemma slice_to_map {A B : Type} (f : A -> B) (l : list A) (k : Z) :
  slice_to (map f l) k = map f (slice_to l k).
Proof.
  unfold slice_to. rewrite length_map. destruct (k <? 0)%Z; apply firstn_map.
Qed.

Lemma slice_to_prefix {A : Type} (l : list A) (k : Z) :
  exists rest, l = slice_to l k ++ rest.
Proof.
  unfold slice_to. destruct (k <? 0)%Z.
  - exists (skipn (length l - Z.to_nat (- k)) l). now rewrite firstn_skipn.
  - exists (skipn (Z.to_nat k) l). now rewrite firstn_skipn.
Qed.

(** The rows behind the two lists returned by [load_sla_word]. *)
Lemma load_sla_word_rows (ds : list sla_entry) (lang_code : string) (limit : option Z) :
  exists rows rest,
    load_sla_word ds lang_code limit = (map eng rows, map word rows) /\
    filter (fun x => String.eqb (lang x) lang_code) ds = rows ++ rest.
Proof.
  unfold load_sla_word.
  set (f := filter _ ds).
  destruct limit as [k|].
  - destruct (k =? 0)%Z.
    + exists f, []. now rewrite app_nil_r.
    + destruct (slice_to_prefix f k) as [rest Hrest].
      exists (slice_to f k), rest. now rewrite !slice_to_map.
  - exists f, []. now rewrite app_nil_r.
Qed.

(** X6: [load_sla_word] returns the English glosses first and the words of
    the language second, two lists of one length: position [p] of both
    comes from one row of the dataset, the rows are those of the requested
    language in dataset order, and a limit keeps a prefix of them. *)
Theorem load_sla_word_aligned (ds : list sla_entry) (lang_code : string) (limit : option Z) :
  exists rows rest,
    load_sla_word ds lang_code limit = (map eng rows, map word rows) /\
    length (fst (load_sla_word ds lang_code limit)) =
      length (snd (load_sla_word ds lang_code limit)) /\
    Forall (fun x => lang x = lang_code /\ In x ds) rows /\
    filter (fun x => String.eqb (lang x) lang_code) ds = rows ++ rest.
Proof.
  destruct (load_sla_word_rows ds lang_code limit) as (rows & rest & Heq & Hf).
  exists rows, rest. rewrite Heq. cbn [fst snd]. repeat split; try assumption.
  - now rewrite !length_map.
  - apply Forall_forall. intros x Hx.
    assert (Hin : In x (filter (fun x => String.eqb (lang x) lang_code) ds))
      by (rewrite Hf; apply in_or_app; now left).
    apply filter_In in Hin as [Hin Hl]. split; [now apply String.eqb_eq|assumption].
Qed.

(** X7: the limit of [load_sla_word]: no limit and a limit of 0 both return
    every pair of the language, a positive limit keeps at most that many
    pairs from the front, a negative limit drops that many pairs from the
    end. *)
Theorem load_sla_word_limit (ds : list sla_entry) (lang_code : string) (limit : option Z) :
  let all := filter (fun x => String.eqb (lang x) lang_code) ds in
  let kept :=
    match limit with
    | None => all
    | Some k =>
        if (k =? 0)%Z then all
        else if (0 <? k)%Z then firstn (Z.to_nat k) all
        else rev (skipn (Z.to_nat (- k)) (rev all))
    end in
  load_sla_word ds lang_code limit = (map eng kept, map word kept).
Proof.
  cbv zeta. unfold load_sla_word. set (f := filter _ ds).
  destruct limit as [k|]; [|reflexivity].
  destruct (Z.eqb_spec k 0); [reflexivity|].
  rewrite !slice_to_map. unfold slice_to.
  destruct (Z.ltb_spec k 0), (Z.ltb_spec 0 k); try lia; try reflexivity.
  rewrite skipn_rev, rev_involutive. reflexivity.
Qed.

(** X8: the lists loaded by [load_sla_word] always satisfy the length
    precondition of the two pair operations: [filter_pairs] returns the
    single-token pairs, and [sample_pairs] with a non-negative sample size
    returns a sample. *)
Theorem load_sla_word_feeds_pair_operations
    (rng : Type) (draw : rng -> nat -> nat -> list nat * rng) (g : rng)
    (ds : list sla_entry) (lang_code : string) (limit : option Z)
    (tok : string -> nat) (m : Z) :
  sampler_contract draw ->
  (0 <= m)%Z ->
  let base := fst (load_sla_word ds lang_code limit) in
  let target := snd (load_sla_word ds lang_code limit) in
  filter_pairs base target tok =
    Ok (map fst (single_token_pairs tok base target),
        map snd (single_token_pairs tok base target)) /\
  exists sb st g', sample_pairs draw g base target m = (Ok (sb, st), g').
Proof.
  intros Hdraw Hm. cbv zeta.
  destruct (load_sla_word_rows ds lang_code limit) as (rows & rest & Heq & _).
  rewrite Heq. cbn [fst snd].
  assert (Hlen : length (map eng rows) = length (map word rows))
    by now rewrite !length_map.
  split.
  - unfold filter_pairs.
    exact (@filter_pairs_loop_filter tok (map word rows) (map eng rows) (map word rows)
             0 [] [] eq_refl (Nat.eq_le_incl _ _ Hlen)).
  - eexists _, _, _. exact (sample_pairs_indices Hdraw g _ _ Hlen Hm).
Qed.

Lemma load_sla_word_feeds_pair_operations_witness :
  let base := fst (load_sla_word sla_rows "gle" (Some 2%Z)) in
  let target := snd (load_sla_word sla_rows "gle" (Some 2%Z)) in
  filter_pairs base target (fun w => String.length w - 1) =
    Ok (map fst (single_token_pairs (fun w => String.length w - 1) base target),
        map snd (single_token_pairs (fun w => String.length w - 1) base target)) /\
  exists sb st g', sample_pairs countdown_draw 0 base target 1 = (Ok (sb, st), g').
Proof.
  apply (@load_sla_word_feeds_pair_operations nat countdown_draw 0).
  - exact countdown_draw_contract.
  - lia.
Defined.

(** The rows of one language, limited to the first two. *)
Example load_sla_word_run :
  load_sla_word sla_rows "gle" (Some 2%Z) =
  (["and"; "on"]%string, ["agus"; "ar"]%string) /\
  load_sla_word sla_rows "gle" (Some (-1)%Z) =
  (["and"; "on"]%string, ["agus"; "ar"]%string) /\
  load_sla_word sla_rows "gle" (Some 0%Z) =
  (["and"; "on"; "woman"]%string, ["agus"; "ar"; "bean"]%string).
Proof. repeat split. Qed.

End PairOperations.

(** ** Cosine similarity *)

Import Rows.

Section CosineProperties.

#[local] Open Scope R_scope.

Lemma dot_comm (u : list R) : forall v : list R, dot u v = dot v u.
Proof.
  unfold dot, map2, Rsum.
  induction u as [|x u IH]; intros [|y v]; simpl; try reflexivity.
  rewrite IH. lra.
Qed.

Lemma cosine_comm (u v : list R) : cosine u v = cosine v u.
Proof. unfold cosine. apply dot_comm. Qed.

(** X10: exchanging the two arguments of [cosine_similarity] transposes
    the matrix. *)
Theorem cosine_similarity_transposed (first second : Tensor) (n1 n2 h : nat) :
  has_shape first n1 h -> has_shape second n2 h ->
  exists a a',
    cosine_similarity first second = Ok a /\
    cosine_similarity second first = Ok a' /\
    has_shape a n1 n2 /\ has_shape a' n2 n1 /\
    forall i j, (i < n1)%nat -> (j < n2)%nat -> entry a' j i = entry a i j.
Proof.
  intros H1 H2.
  destruct (cosine_similarity_entries H1 H2) as (a & Ha & Has & Hae).
  destruct (cosine_similarity_entries H2 H1) as (a' & Ha' & Has' & Hae').
  exists a, a'. repeat (split; [assumption|]).
  intros i j Hi Hj. rewrite (Hae i j Hi Hj), (Hae' j i Hj Hi). apply cosine_comm.
Qed.

Lemma cosine_similarity_transposed_witness :
  exists a a',
    cosine_similarity two_rows three_rows = Ok a /\
    cosine_similarity three_rows two_rows = Ok a' /\
    has_shape a 2 3 /\ has_shape a' 3 2 /\
    forall i j, (i < 2)%nat -> (j < 3)%nat -> entry a' j i = entry a i j.
Proof.
  apply (@cosine_similarity_transposed two_rows three_rows 2 3 2).
  - repeat split; repeat constructor.
  - repeat split; repeat constructor.
Defined.

End CosineProperties.

(** ** Margin scoring: neighbourhood, errors, symmetry *)

Section MarginProperties.

#[local] Open Scope R_scope.

Lemma tensor_ext (t t' : Tensor) (n m : nat) :
  has_shape t n m -> has_shape t' n m ->
  (forall i j, (i < n)%nat -> (j < m)%nat -> entry t i j = entry t' i j) ->
  t = t'.
Proof.
  intros Ht Ht' He. pose proof Ht' as (H0 & H1 & Hl & Hr).
  rewrite (@tensor_of_entries t n m (rows t') Ht Hl Hr He).
  destruct t' as [s0 s1 rs]. cbn [size0 size1 rows] in *. now subst.
Qed.

Lemma margin_score_same_neighbourhood (F S : list (list R)) (k k' : nat)
    (variant : string) (eps : R) (i j : nat) :
  Nat.min k (length S) = Nat.min k' (length S) ->
  Nat.min k (length F) = Nat.min k' (length F) ->
  margin_score F S k variant eps i j = margin_score F S k' variant eps i j.
Proof. unfold margin_score. cbv zeta. intros -> ->. reflexivity. Qed.

(** C7: with at least one row on each side and a positive [k],
    [margin_based_scoring] returns a score matrix, whatever the variant:
    the baseline of entry [(i, j)] is formed from the [min k n2] largest
    values of row [i] and the [min k n1] largest values of column [j] of
    the cosine matrix, both between 1 and the size, and every [k] beyond
    both sizes gives the score matrix of [k = max n1 n2]. *)
Theorem margin_based_scoring_shrinks_neighbourhood (first second : Tensor)
    (n1 n2 h : nat) (k : Z) (variant : string) (eps : R) :
  has_shape first n1 h -> has_shape second n2 h ->
  (1 <= n1)%nat -> (1 <= n2)%nat -> (0 < k)%Z ->
  let kr := Nat.min (Z.to_nat k) n2 in
  let kc := Nat.min (Z.to_nat k) n1 in
  exists a score,
    cosine_similarity first second = Ok a /\
    margin_based_scoring first second k variant eps = Ok score /\
    has_shape score n1 n2 /\
    (1 <= kr <= n2)%nat /\ (1 <= kc <= n1)%nat /\
    (forall i j, (i < n1)%nat -> (j < n2)%nat ->
       let row_nn := top_values kr (nth i (rows a) []) in
       let col_nn := top_values kc (column j (rows a)) in
       length row_nn = kr /\ length col_nn = kc /\
       entry score i j =
       if String.eqb variant "absolute" then entry a i j
       else if String.eqb variant "distance"
       then entry a i j - ((mean row_nn + mean col_nn) / 2 + eps)
       else entry a i j / ((mean row_nn + mean col_nn) / 2 + eps)) /\
    margin_based_scoring first second (Z.min k (Z.of_nat (Nat.max n1 n2))) variant eps =
    Ok score.
Proof.
  intros H1 H2 Hn1 Hn2 Hk kr kc. assert (Hk' : (0 <= k)%Z) by lia.
  destruct (cosine_similarity_entries H1 H2) as (a & Ha & Has & Hae).
  destruct (margin_based_scoring_core variant eps H1 H2 Hk')
    as (a' & score & Ha' & _ & Hscore & Hshape & _ & Hentry).
  assert (a' = a) by congruence. subst a'.
  pose proof H1 as (_ & _ & Hl1 & _). pose proof H2 as (_ & _ & Hl2 & _).
  exists a, score. split; [assumption|]. split; [assumption|]. split; [assumption|].
  split; [unfold kr; lia|]. split; [unfold kc; lia|]. split.
  - intros i j Hi Hj. cbv zeta.
    assert (Hrow : nth i (rows a) [] =
              map (fun j' => cosine (nth i (rows first) []) (nth j' (rows second) []))
                  (seq 0 n2))
      by exact (@row_of_entries a n1 n2 i _ Has Hi Hae).
    assert (Hcol : column j (rows a) =
              map (fun i' => cosine (nth i' (rows first) []) (nth j (rows second) []))
                  (seq 0 n1)).
    { rewrite <- (cols_nth Has Hj). exact (@col_of_entries a n1 n2 j _ Has Hj Hae). }
    split; [|split].
    + apply top_values_length. rewrite Hrow, length_map, length_seq. unfold kr. lia.
    + apply top_values_length. rewrite Hcol, length_map, length_seq. unfold kc. lia.
    + rewrite (Hentry i j Hi Hj), Hrow, Hcol, (Hae i j Hi Hj).
      unfold margin_score. cbv zeta. rewrite Hl1, Hl2. reflexivity.
  - assert (Hm : (0 <= Z.min k (Z.of_nat (Nat.max n1 n2)))%Z) by lia.
    destruct (margin_based_scoring_core variant eps H1 H2 Hm)
      as (a' & score' & _ & _ & Hscore' & Hshape' & _ & Hentry').
    rewrite Hscore'. f_equal. apply (tensor_ext Hshape' Hshape).
    intros i j Hi Hj. rewrite (Hentry i j Hi Hj), (Hentry' i j Hi Hj).
    apply margin_score_same_neighbourhood; rewrite ?Hl1, ?Hl2; lia.
Qed.

Lemma margin_based_scoring_shrinks_neighbourhood_witness :
  let kr := Nat.min (Z.to_nat 4) 3 in
  let kc := Nat.min (Z.to_nat 4) 2 in
  exists a score,
    cosine_similarity two_rows three_rows = Ok a /\
    margin_based_scoring two_rows three_rows 4 "distance" (1 / 1000000) = Ok score /\
    has_shape score 2 3 /\
    (1 <= kr <= 3)%nat /\ (1 <= kc <= 2)%nat /\
    (forall i j, (i < 2)%nat -> (j < 3)%nat ->
       let row_nn := top_values kr (nth i (rows a) []) in
       let col_nn := top_values kc (column j (rows a)) in
       length row_nn = kr /\ length col_nn = kc /\
       entry score i j =
       if String.eqb "distance" "absolute" then entry a i j
       else if String.eqb "distance" "distance"
       then entry a i j - ((mean row_nn + mean col_nn) / 2 + 1 / 1000000)
       else entry a i j / ((mean row_nn + mean col_nn) / 2 + 1 / 1000000)) /\
    margin_based_scoring two_rows three_rows (Z.min 4 (Z.of_nat (Nat.max 2 3))) "distance"
      (1 / 1000000) =
    Ok score.
Proof.
  apply (@margin_based_scoring_shrinks_neighbourhood two_rows three_rows 2 3 2 4
           "distance" (1 / 1000000)).
  - repeat split; repeat constructor.
  - repeat split; repeat constructor.
  - lia.
  - lia.
  - lia.
Defined.

(** X13: representation matrices of different widths cannot be compared:
    [cosine_similarity] and, for every variant, [margin_based_scoring]
    raise [RuntimeError]. *)
Theorem margin_based_scoring_width_mismatch (first second : Tensor) (n1 n2 h h' : nat)
    (k : Z) (variant : string) (eps : R) :
  has_shape first n1 h -> has_shape second n2 h' -> h <> h' ->
  cosine_similarity first second = Raise RuntimeError /\
  margin_based_scoring first second k variant eps = Raise RuntimeError.
Proof.
  intros H1 H2 Hne.
  assert (Hcos : cosine_similarity first second = Raise RuntimeError).
  { destruct (normalize_rows H1) as (fn & Hfn & (_ & Hf1 & _) & _).
    destruct (normalize_rows H2) as (sn & Hsn & (_ & Hs1 & _) & _).
    unfold cosine_similarity. rewrite Hfn, Hsn. cbn [bind]. unfold matmul.
    cbn [transpose size0]. rewrite Hf1, Hs1.
    apply Nat.eqb_neq in Hne. now rewrite Hne. }
  split; [assumption|]. unfold margin_based_scoring. now rewrite Hcos.
Qed.

Lemma margin_based_scoring_width_mismatch_witness :
  cosine_similarity two_rows wide_rows = Raise RuntimeError /\
  margin_based_scoring two_rows wide_rows 4 "ratio" (1 / 1000000) = Raise RuntimeError.
Proof.
  apply (@margin_based_scoring_width_mismatch two_rows wide_rows 2 2 2 3).
  - repeat split; repeat constructor.
  - repeat split; repeat constructor.
  - discriminate.
Defined.

(** X14: a negative [k] is ignored by the "absolute" variant, which
    returns the cosine-similarity matrix; every other variant fails in
    [torch.topk] with [RuntimeError]. *)
Theorem margin_based_scoring_negative_k (first second : Tensor) (n1 n2 h : nat)
    (k : Z) (variant : string) (eps : R) :
  has_shape first n1 h -> has_shape second n2 h -> (k < 0)%Z ->
  margin_based_scoring first second k variant eps =
  if String.eqb variant "absolute" then cosine_similarity first second
  else Raise RuntimeError.
Proof.
  intros H1 H2 Hk.
  destruct (cosine_similarity_entries H1 H2) as (a & Ha & _ & _).
  unfold margin_based_scoring. rewrite Ha. cbn [bind].
  destruct (String.eqb variant "absolute"); [reflexivity|].
  unfold topk_dim1.
  assert (Hneg : (Z.min k (Z.of_nat (size1 a)) <? 0)%Z = true)
    by (apply Z.ltb_lt; lia).
  rewrite Hneg. reflexivity.
Qed.

Lemma margin_based_scoring_negative_k_witness :
  margin_based_scoring two_rows three_rows (-1) "ratio" (1 / 1000000) =
  Raise RuntimeError.
Proof.
  apply (@margin_based_scoring_negative_k two_rows three_rows 2 3 2 (-1) "ratio").
  - repeat split; repeat constructor.
  - repeat split; repeat constructor.
  - lia.
Defined.

Lemma margin_score_self_symmetric (F : list (list R)) (k : nat) (variant : string)
    (eps : R) (i j : nat) :
  margin_score F F k variant eps i j = margin_score F F k variant eps j i.
Proof.
  unfold margin_score. cbv zeta.
  assert (Hc : forall t,
            map (fun i' => cosine (nth i' F []) (nth t F [])) (seq 0 (length F)) =
            map (fun j' => cosine (nth t F []) (nth j' F [])) (seq 0 (length F)))
    by (intros t; apply map_ext; intros; apply cosine_comm).
  rewrite !Hc. rewrite (cosine_comm (nth i F []) (nth j F [])).
  rewrite (Rplus_comm (mean (top_values (Nat.min k (length F))
             (map (fun j' => cosine (nth i F []) (nth j' F [])) (seq 0 (length F)))))).
  reflexivity.
Qed.

(** X15: scoring a representation matrix against itself gives a
    symmetric score matrix, for every variant. *)
Theorem margin_based_scoring_self_symmetric (X : Tensor) (n h : nat)
    (k : Z) (variant : string) (eps : R) :
  has_shape X n h -> (0 <= k)%Z ->
  exists score,
    margin_based_scoring X X k variant eps = Ok score /\
    has_shape score n n /\
    forall i j, (i < n)%nat -> (j < n)%nat -> entry score i j = entry score j i.
Proof.
  intros HX Hk.
  destruct (@margin_based_scoring_core X X n n h k variant eps HX HX Hk)
    as (a & score & _ & _ & Hscore & Hshape & _ & Hentry).
  exists score. split; [assumption|]. split; [assumption|].
  intros i j Hi Hj. rewrite (Hentry i j Hi Hj), (Hentry j i Hj Hi).
  apply margin_score_self_symmetric.
Qed.

Lemma margin_based_scoring_self_symmetric_witness :
  exists score,
    margin_based_scoring hub_rows hub_rows 4 "ratio" (1 / 1000000) = Ok score /\
    has_shape score 3 3 /\
    forall i j, (i < 3)%nat -> (j < 3)%nat -> entry score i j = entry score j i.
Proof.
  apply (@margin_based_scoring_self_symmetric hub_rows 3 2 4 "ratio").
  - exact hub_rows_shape.
  - lia.
Defined.

End MarginProperties.

(** ** Accuracy: what it depends on *)

Section AccuracyProperties.

#[local] Open Scope R_scope.

Lemma argmax_from_map (f : R -> R) :
  (forall x y, x < y -> f x < f y) ->
  forall (l : list R) (best_i : nat) (best : R) (i : nat),
    argmax_from best_i (f best) i (map f l) = argmax_from best_i best i l.
Proof.
  intros Hf. induction l as [|x l IH]; intros best_i best i; [reflexivity|].
  cbn [map argmax_from].
  destruct (Rlt_dec (f best) (f x)) as [Hlt|Hge], (Rlt_dec best x) as [Hlt'|Hge'].
  - apply IH.
  - exfalso. destruct (Rle_lt_or_eq_dec x best) as [Hxb|Hxb]; [lra| |].
    + pose proof (Hf _ _ Hxb). lra.
    + subst. lra.
  - exfalso. apply Hge. now apply Hf.
  - apply IH.
Qed.

Lemma argmax_list_map (f : R -> R) (l : list R) :
  (forall x y, x < y -> f x < f y) ->
  argmax_list (map f l) = argmax_list l.
Proof.
  intros Hf. destruct l as [|x l]; [reflexivity|].
  cbn [map argmax_list]. now apply argmax_from_map.
Qed.

Lemma layer_accuracy_map (f : R -> R) (score : Tensor) :
  (forall x y, x < y -> f x < f y) ->
  layer_accuracy (map_tensor f score) = layer_accuracy score.
Proof.
  intros Hf. unfold layer_accuracy, argmax_dim1, map_tensor.
  cbn [size0 size1 rows]. destruct (size1 score =? 0)%nat; [reflexivity|].
  cbn [bind]. rewrite map_map.
  rewrite (map_ext (fun r => argmax_list (map f r)) argmax_list)
    by (intros r; now apply argmax_list_map).
  reflexivity.
Qed.

(** X16: applying a strictly increasing function to every score leaves
    the layer accuracy unchanged, errors included. *)
Theorem layer_accuracy_monotone_invariant (f : R -> R) (score : Tensor) :
  (forall x y, x < y -> f x < f y) ->
  layer_accuracy (map_tensor f score) = layer_accuracy score.
Proof. apply layer_accuracy_map. Qed.

Lemma layer_accuracy_monotone_invariant_witness :
  layer_accuracy (map_tensor (fun x => 2 * x + 1) tied_scores) =
  layer_accuracy tied_scores.
Proof.
  apply (@layer_accuracy_monotone_invariant (fun x => 2 * x + 1) tied_scores).
  intros x y Hxy. lra.
Defined.





(** X19: on a square score matrix with at least one row the accuracy is 1
    exactly when the first largest entry of every row is on the diagonal. *)
Theorem layer_accuracy_one_iff_diagonal (score : Tensor) (n : nat) :
  has_shape score n n -> (0 < n)%nat ->
  (layer_accuracy score = Ok 1 <->
   forall i, (i < n)%nat -> argmax_list (nth i (rows score) []) = i).
Proof.
  intros Hs Hn. split.
  - now apply layer_accuracy_one_hits.
  - now apply layer_accuracy_all_hits.
Qed.

Lemma layer_accuracy_one_iff_diagonal_witness :
  layer_accuracy two_rows = Ok 1 <->
  forall i, (i < 2)%nat -> argmax_list (nth i (rows two_rows) []) = i.
Proof.
  apply (@layer_accuracy_one_iff_diagonal two_rows 2).
  - repeat split; repeat constructor.
  - lia.
Defined.

End AccuracyProperties.

(** ** Pooling: padding and errors *)

Section PoolingProperties.

#[local] Open Scope R_scope.

Lemma unmasked_agree (m : list Z) : forall tokens tokens' : list (list R),
  length tokens = length m -> length tokens' = length m ->
  (forall p, (p < length m)%nat -> nth p m 0%Z = 1%Z ->
     nth p tokens [] = nth p tokens' []) ->
  unmasked tokens m = unmasked tokens' m.
Proof.
  induction m as [|z m IH]; intros [|v tokens] [|v' tokens'] Hl Hl' Hagree;
    try discriminate; [reflexivity|].
  injection Hl as Hl. injection Hl' as Hl'.
  assert (Htail : unmasked tokens m = unmasked tokens' m).
  { apply IH; try assumption. intros p Hp Hone.
    apply (Hagree (S p)); [simpl; lia|exact Hone]. }
  unfold unmasked in *. cbn [combine filter snd].
  destruct (z =? 1)%Z eqn:E.
  - cbn [map fst]. rewrite Htail. f_equal.
    apply (Hagree 0%nat); [simpl; lia|]. now apply Z.eqb_eq in E.
  - exact Htail.
Qed.

(** X20: mean pooling does not look at the hidden states of masked
    positions: two hidden-state tensors that agree wherever the mask is 1
    pool to the same tensor. *)
Theorem mean_hidden_state_ignores_masked (hs hs' : Tensor3) (mask : Tensor2 Z)
    (b l h : nat) :
  has_shape3 hs b l h -> has_shape3 hs' b l h ->
  has_shape mask b l -> binary_mask mask ->
  (forall s p, (s < b)%nat -> (p < l)%nat ->
     nth p (nth s (rows mask) []) 0%Z = 1%Z ->
     nth p (nth s (vals hs) []) [] = nth p (nth s (vals hs') []) []) ->
  mean_hidden_state hs mask = mean_hidden_state hs' mask.
Proof.
  intros Hhs Hhs' Hmask Hbin Hagree.
  destruct (mean_hidden_state_unmasked Hhs Hmask Hbin) as (out & Hout & Hshape & Hentry).
  destruct (mean_hidden_state_unmasked Hhs' Hmask Hbin) as (out' & Hout' & Hshape' & Hentry').
  rewrite Hout, Hout'. f_equal. apply (tensor_ext Hshape Hshape').
  intros s j Hs Hj. rewrite (Hentry s j Hs Hj), (Hentry' s j Hs Hj). f_equal.
  assert (Hml : length (nth s (rows mask) []) = l)
    by (apply (@has_shape_row _ mask b l s [] Hmask Hs)).
  destruct Hhs as (_ & _ & _ & Hvl & Hvals), Hhs' as (_ & _ & _ & Hvl' & Hvals').
  rewrite Forall_forall in Hvals, Hvals'.
  apply unmasked_agree.
  - rewrite Hml. apply Hvals, nth_In. lia.
  - rewrite Hml. apply Hvals', nth_In. lia.
  - intros p Hp Hone. rewrite Hml in Hp. now apply Hagree.
Qed.

Lemma mean_hidden_state_ignores_masked_witness :
  mean_hidden_state padded_hidden padded_mask =
  mean_hidden_state padded_hidden_alt padded_mask.
Proof.
  apply (@mean_hidden_state_ignores_masked padded_hidden padded_hidden_alt padded_mask 1 3 2).
  - repeat split; repeat constructor.
  - repeat split; repeat constructor.
  - repeat split; repeat constructor.
  - repeat first [apply Forall_cons | apply Forall_nil | split
                 | left; reflexivity | right; reflexivity].
  - intros [|s] [|[|[|p]]] Hs Hp Hone; try lia; try reflexivity.
    cbn in Hone. discriminate.
Defined.

(** The index read by last-token pooling in a sequence of [l] positions
    whose mask row has [c] non-zero entries: [c - 1], and the last
    position when [c = 0], where Python's index [-1] wraps around. *)
Lemma last_token_hidden_state_positions (hs : Tensor3) (mask : Tensor2 Z) (b l h : nat) :
  has_shape3 hs b l h ->
  has_shape mask b l ->
  (0 < l)%nat ->
  exists out,
    last_token_hidden_state hs mask = Ok out /\
    has_shape out b h /\
    forall s, (s < b)%nat ->
      nth s (rows out) [] =
      nth (if (count_nonzero (nth s (rows mask) []) =? 0)%nat then l - 1
           else count_nonzero (nth s (rows mask) []) - 1)
          (nth s (vals hs) []) [].
Proof.
  destruct hs as [d0 d1 d2 hvals], mask as [s0 s1 mrows].
  intros (Hd0 & Hd1 & Hd2 & Hvl & Hvals) Hmask Hl.
  pose proof Hmask as (Hm0 & Hm1 & Hml & Hmrows).
  cbn [dim0 dim1 dim2 vals size0 size1 rows] in *. subst d0 d1 d2 s0 s1.
  rewrite Forall_forall in Hvals, Hmrows.
  unfold last_token_hidden_state, index_pairs, arange.
  cbn [dim0 dim1 dim2 vals rows].
  change (map (fun r => (Z.of_nat (length (filter (fun z => negb (z =? 0)%Z) r)) - 1)%Z) mrows)
    with (map (fun r => (Z.of_nat (count_nonzero r) - 1)%Z) mrows).
  set (i0 := map Z.of_nat (seq 0 b)).
  set (i1 := map _ mrows).
  set (pos := fun c : nat => if (c =? 0)%nat then (l - 1)%nat else (c - 1)%nat).
  assert (Hi0 : length i0 = b) by (unfold i0; now rewrite length_map, length_seq).
  assert (Hi1 : length i1 = b) by (unfold i1; now rewrite length_map).
  rewrite Hi0, Hi1, broadcast_dim_refl. cbn [bind].
  rewrite !expand_list_same by assumption.
  assert (Hrow : forall s, (s < b)%nat ->
            nth s (combine i0 i1) (0%Z, 0%Z) =
            (Z.of_nat s, (Z.of_nat (count_nonzero (nth s mrows [])) - 1)%Z) /\
            (count_nonzero (nth s mrows []) <= l)%nat).
  { intros s Hs. rewrite combine_nth_both by lia.
    assert (Hin : In (nth s mrows []) mrows) by (apply nth_In; lia).
    split.
    - unfold i0, i1. rewrite (nth_map_lt _ _ _ 0%nat) by (rewrite length_seq; lia).
      rewrite seq_nth by lia.
      now rewrite (nth_map_lt _ _ _ []) by lia.
    - rewrite <- (Hmrows _ Hin). unfold count_nonzero. apply filter_length_le. }
  assert (Hwrap : forall c, (c <= l)%nat ->
            wrap_index (Z.of_nat c - 1) l = Ok (pos c)).
  { intros c Hc. unfold wrap_index, pos.
    destruct (Z.ltb_spec (Z.of_nat c - 1) (- Z.of_nat l)); [lia|].
    destruct (Z.leb_spec (Z.of_nat l) (Z.of_nat c - 1)); [lia|]. cbn [orb].
    destruct (Z.ltb_spec (Z.of_nat c - 1) 0), (Nat.eqb_spec c 0); try lia;
      f_equal; lia. }
  set (g := fun p : Z * Z =>
              nth (pos (Z.to_nat (snd p + 1))) (nth (Z.to_nat (fst p)) hvals []) []).
  rewrite (@traverse_ok_map _ _ _ g).
  2:{ apply Forall_forall. intros p Hin.
      apply (In_nth _ _ (0%Z, 0%Z)) in Hin as (s & Hs & <-).
      rewrite length_combine in Hs.
      destruct (Hrow s) as [-> Hc]; [lia|]. unfold g. cbn [fst snd].
      rewrite wrap_index_nonneg by lia. rewrite (Hwrap _ Hc). cbn [bind].
      do 3 f_equal. lia. }
  cbn [bind]. eexists. split; [reflexivity|].
  assert (Hg : forall s, (s < b)%nat ->
            nth s (map g (combine i0 i1)) [] =
            nth (pos (count_nonzero (nth s mrows []))) (nth s hvals []) []).
  { intros s Hs. rewrite (nth_map_lt _ _ _ (0%Z, 0%Z)) by (rewrite length_combine; lia).
    destruct (Hrow s Hs) as [-> Hc]. unfold g. cbn [fst snd].
    rewrite Nat2Z.id. do 2 f_equal. lia. }
  split.
  - repeat split; cbn [size0 size1 rows].
    + rewrite length_map, length_combine. lia.
    + apply Forall_forall. intros r Hr.
      apply (In_nth _ _ []) in Hr as (s & Hs & <-).
      rewrite length_map, length_combine in Hs.
      rewrite Hg by lia.
      destruct (Hrow s) as [_ Hc]; [lia|].
      assert (Hin : In (nth s hvals []) hvals) by (apply nth_In; lia).
      destruct (Hvals _ Hin) as [Hlen Hvec]. rewrite Forall_forall in Hvec.
      apply Hvec, nth_In. unfold pos.
      destruct (Nat.eqb_spec (count_nonzero (nth s mrows [])) 0); lia.
  - intros s Hs. cbn [rows]. now apply Hg.
Qed.

(** X21: whatever integers the mask holds, last-token pooling of
    sequences with at least one position succeeds; it reads position
    [c - 1] where [c] counts the non-zero entries of the mask row, and the
    last position of the sequence when the row has none. *)
Theorem last_token_hidden_state_any_mask (hs : Tensor3) (mask : Tensor2 Z) (b l h : nat) :
  has_shape3 hs b l h ->
  has_shape mask b l ->
  (0 < l)%nat ->
  exists out,
    last_token_hidden_state hs mask = Ok out /\
    has_shape out b h /\
    forall s, (s < b)%nat ->
      let c := count_nonzero (nth s (rows mask) []) in
      (c <= l)%nat /\
      nth s (rows out) [] =
      nth (if (c =? 0)%nat then l - 1 else c - 1) (nth s (vals hs) []) [].
Proof.
  intros Hhs Hmask Hl.
  destruct (last_token_hidden_state_positions Hhs Hmask Hl) as (out & Hout & Hshape & Hrows).
  exists out. split; [assumption|]. split; [assumption|].
  intros s Hs. cbv zeta. split; [|now apply Hrows].
  rewrite <- (@has_shape_row _ mask b l s [] Hmask Hs).
  unfold count_nonzero. apply filter_length_le.
Qed.

Lemma last_token_hidden_state_any_mask_witness :
  exists out,
    last_token_hidden_state five_hidden (mkTensor2 1 5 [[0; 0; 0; 0; 0]]%Z) = Ok out /\
    has_shape out 1 1 /\
    forall s, (s < 1)%nat ->
      let c := count_nonzero (nth s (rows (mkTensor2 1 5 [[0; 0; 0; 0; 0]]%Z)) []) in
      (c <= 5)%nat /\
      nth s (rows out) [] =
      nth (if (c =? 0)%nat then 5 - 1 else c - 1) (nth s (vals five_hidden) []) [].
Proof.
  apply (@last_token_hidden_state_any_mask five_hidden
           (mkTensor2 1 5 [[0; 0; 0; 0; 0]]%Z) 1 5 1).
  - repeat split; repeat constructor.
  - repeat split; repeat constructor.
  - lia.
Defined.

Lemma count_nonzero_left_padded (p c : nat) :
  count_nonzero (repeat 0%Z p ++ repeat 1%Z c) = c.
Proof.
  unfold count_nonzero. rewrite filter_app, length_app.
  assert (H0 : forall n, length (filter (fun z => negb (z =? 0)%Z) (repeat 0%Z n)) = 0%nat)
    by (induction n; simpl; auto).
  assert (H1 : forall n, length (filter (fun z => negb (z =? 0)%Z) (repeat 1%Z n)) = n)
    by (induction n; simpl; auto).
  rewrite H0, H1. reflexivity.
Qed.

(** X22: on a left-padded mask, [p] zeros followed by [c >= 1] ones,
    last-token pooling reads position [c - 1] and not the last position;
    when the sequence has at least as much padding as tokens, that
    position is a padding position. *)
Theorem last_token_hidden_state_left_padding (hs : Tensor3) (mask : Tensor2 Z)
    (b l h : nat) (pad cnt : nat -> nat) :
  has_shape3 hs b l h ->
  has_shape mask b l ->
  (0 < l)%nat ->
  (forall s, (s < b)%nat ->
     nth s (rows mask) [] = repeat 0%Z (pad s) ++ repeat 1%Z (cnt s) /\
     (1 <= cnt s)%nat) ->
  exists out,
    last_token_hidden_state hs mask = Ok out /\
    forall s, (s < b)%nat ->
      nth s (rows out) [] = nth (cnt s - 1) (nth s (vals hs) []) [] /\
      (cnt s - 1 < l)%nat /\
      ((cnt s <= pad s)%nat -> nth (cnt s - 1) (nth s (rows mask) []) 0%Z = 0%Z).
Proof.
  intros Hhs Hmask Hl Hleft.
  destruct (last_token_hidden_state_positions Hhs Hmask Hl) as (out & Hout & _ & Hrows).
  exists out. split; [assumption|].
  intros s Hs. destruct (Hleft s Hs) as [Hrow Hcnt].
  pose proof (@has_shape_row _ mask b l s [] Hmask Hs) as Hlen.
  rewrite Hrow, length_app, !repeat_length in Hlen.
  split; [|split].
  - rewrite (Hrows s Hs), Hrow, count_nonzero_left_padded.
    destruct (Nat.eqb_spec (cnt s) 0); [lia|reflexivity].
  - lia.
  - intros Hpad. rewrite Hrow, app_nth1 by (rewrite repeat_length; lia).
    apply nth_repeat_lt. lia.
Qed.

Lemma last_token_hidden_state_left_padding_witness :
  exists out,
    last_token_hidden_state five_hidden left_mask = Ok out /\
    forall s, (s < 1)%nat ->
      nth s (rows out) [] = nth (2 - 1) (nth s (vals five_hidden) []) [] /\
      (2 - 1 < 5)%nat /\
      ((2 <= 3)%nat -> nth (2 - 1) (nth s (rows left_mask) []) 0%Z = 0%Z).
Proof.
  apply (@last_token_hidden_state_left_padding five_hidden left_mask 1 5 1
           (fun _ => 3%nat) (fun _ => 2%nat)).
  - repeat split; repeat constructor.
  - repeat split; repeat constructor.
  - lia.
  - intros [|s] Hs; [|lia]. split; [reflexivity|lia].
Defined.

(** X23: a mask for another number of sequences than the hidden states
    hold, neither of them 1, is refused: by mean pooling with
    [RuntimeError] at the product, by last-token pooling with [IndexError]
    at the indexing. *)
Theorem pooling_batch_mismatch (hs : Tensor3) (mask : Tensor2 Z) (b b' l l' h : nat) :
  has_shape3 hs b l h ->
  has_shape mask b' l' ->
  b <> b' -> b <> 1%nat -> b' <> 1%nat ->
  mean_hidden_state hs mask = Raise RuntimeError /\
  last_token_hidden_state hs mask = Raise IndexError.
Proof.
  intros (Hd0 & Hd1 & Hd2 & Hvl & _) (Hm0 & Hm1 & Hml & _) Hne Hb Hb'.
  assert (Hbc : forall e, broadcast_dim e b b' = Raise e).
  { intros e. unfold broadcast_dim.
    destruct (Nat.eqb_spec b b'); [contradiction|].
    destruct (Nat.eqb_spec b 1); [contradiction|].
    destruct (Nat.eqb_spec b' 1); [contradiction|]. reflexivity. }
  split.
  - unfold mean_hidden_state, pointwise3, unsqueeze_to_float.
    cbn [dim0 dim1 dim2]. rewrite Hd0, Hm0, Hbc. reflexivity.
  - unfold last_token_hidden_state, index_pairs, arange.
    rewrite !length_map, length_seq, Hd0, Hml, Hbc. reflexivity.
Qed.

Lemma pooling_batch_mismatch_witness :
  mean_hidden_state pair_hidden triple_mask = Raise RuntimeError /\
  last_token_hidden_state pair_hidden triple_mask = Raise IndexError.
Proof.
  apply (@pooling_batch_mismatch pair_hidden triple_mask 2 3 1 1 1).
  - repeat split; repeat constructor.
  - repeat split; repeat constructor.
  - discriminate.
  - discriminate.
  - discriminate.
Defined.

End PoolingProperties.

(** ** The extractor: degenerate inputs, shapes, single-token sentences *)

Section ExtractorProperties.

#[local] Open Scope R_scope.

Variable tokenize : string -> list Z.
Variable pad_token_id : Z.
Variable model : Tensor2 Z -> Tensor2 Z -> list Tensor3.

(** X24: without sentences, or with a batch size that is not positive,
    the loop over batches never runs and the model is never called: the
    result is the empty dict, except for batch size 0, which [range]
    refuses with [ValueError]. *)
Theorem layer_representation_degenerate (sentences : list string) (batch_size : Z)
    (pool : Tensor3 -> Tensor2 Z -> result Tensor) :
  sentences = [] \/ (batch_size <= 0)%Z ->
  layer_representation tokenize pad_token_id model sentences batch_size pool =
  if (batch_size =? 0)%Z then Raise ValueError else Ok [].
Proof.
  intros Hcase. unfold layer_representation.
  destruct (Z.eqb_spec batch_size 0) as [|Hnz]; [reflexivity|].
  destruct (Z.ltb_spec batch_size 0) as [Hneg|Hpos]; [reflexivity|].
  destruct Hcase as [-> | Hle]; [|lia].
  unfold range_step. cbn [length].
  rewrite Nat.div_small by lia. reflexivity.
Qed.

Variable encode : encoder.
Variables nlayers h : nat.

Hypothesis model_sequencewise : sequencewise tokenize pad_token_id model encode nlayers h.

Lemma Forall_firstn_of {A : Type} (P : A -> Prop) (n : nat) (l : list A) :
  Forall P l -> Forall P (firstn n l).
Proof.
  intros Hall. rewrite Forall_forall in *. intros x Hx.
  apply Hall. rewrite <- (firstn_skipn n l). apply in_or_app. now left.
Qed.

(** What the contract says about one sentence: at every layer, one vector
    of width [h] per token. *)
Lemma encode_layer_shape (s : string) (i : nat) :
  tokenize s <> [] -> (i < nlayers)%nat ->
  length (nth i (encode (tokenize s)) []) = length (tokenize s) /\
  Forall (fun v => length v = h) (nth i (encode (tokenize s)) []).
Proof.
  intros Htok Hi.
  assert (Hne : [s] <> []) by discriminate.
  assert (Hall : Forall (fun s => tokenize s <> []) [s]) by (constructor; [assumption|constructor]).
  destruct (model_sequencewise Hne Hall) as [_ Hlayers].
  destruct (Hlayers i Hi) as [Hshape Hrows].
  specialize (Hrows 0%nat (Nat.lt_0_1)). cbn [nth] in Hrows.
  destruct Hshape as (_ & _ & _ & Hvl & Hvals).
  cbn [length] in Hvl.
  set (hsi := nth i (model (fst (tokenizer tokenize pad_token_id [s]))
                       (snd (tokenizer tokenize pad_token_id [s]))) no_tensor3) in *.
  assert (Hin : In (nth 0 (vals hsi) []) (vals hsi)) by (apply nth_In; lia).
  rewrite Forall_forall in Hvals. destruct (Hvals _ Hin) as [Hlen Hvec].
  assert (Hl : size1 (snd (tokenizer tokenize pad_token_id [s])) = length (tokenize s)).
  { unfold tokenizer. cbn [snd size1 map list_max fold_right]. lia. }
  rewrite Hl in Hlen. rewrite <- Hrows. split.
  - rewrite length_firstn. lia.
  - now apply Forall_firstn_of.
Qed.

Lemma sentence_table_shapes (row : nat -> string -> list R) (sentences : list string) :
  sentences <> [] ->
  (forall i s, (i < nlayers)%nat -> In s sentences -> length (row i s) = h) ->
  map fst (sentence_table row nlayers h sentences) = seq 0 nlayers /\
  Forall (fun p => has_shape (snd p) (length sentences) h)
         (sentence_table row nlayers h sentences).
Proof.
  intros Hne Hrow. unfold sentence_table.
  destruct sentences as [|s0 rest] eqn:E; [contradiction|]. rewrite <- E in *.
  split.
  - rewrite map_map. cbn [fst]. apply map_id.
  - apply Forall_forall. intros p Hp. apply in_map_iff in Hp as (i & <- & Hi).
    apply in_seq in Hi. cbn [snd]. repeat split; cbn [size0 size1 rows].
    + now rewrite length_map.
    + apply Forall_forall. intros r Hr. apply in_map_iff in Hr as (s & <- & Hs).
      apply Hrow; [lia|assumption].
Qed.

Lemma layer_representation_table (sentences : list string) (batch_size : Z)
    (pool : Tensor3 -> Tensor2 Z -> result Tensor) :
  pool = mean_hidden_state \/ pool = last_token_hidden_state ->
  sentences <> [] ->
  Forall (fun s => tokenize s <> []) sentences ->
  (0 < batch_size)%Z ->
  exists rep,
    layer_representation tokenize pad_token_id model sentences batch_size pool = Ok rep /\
    map fst rep = seq 0 nlayers /\
    Forall (fun p => has_shape (snd p) (length sentences) h) rep.
Proof.
  intros [-> | ->] Hne Htok Hbs.
  - exists (sentence_table (mean_row tokenize encode h) nlayers h sentences). split.
    + exact (layer_representation_sentences model_sequencewise mean_hidden_state
               (mean_row tokenize encode h)
               (@mean_hidden_state_batch _ _ _ _ _ _ model_sequencewise) Hbs Htok).
    + apply sentence_table_shapes; [assumption|].
      intros i s _ _. unfold mean_row. now rewrite length_map, length_seq.
  - exists (sentence_table (last_row tokenize encode) nlayers h sentences). split.
    + exact (layer_representation_sentences model_sequencewise last_token_hidden_state
               (last_row tokenize encode)
               (@last_token_hidden_state_batch _ _ _ _ _ _ model_sequencewise) Hbs Htok).
    + apply sentence_table_shapes; [assumption|].
      intros i s Hi Hs. rewrite Forall_forall in Htok.
      destruct (encode_layer_shape (Htok s Hs) Hi) as [Hlen Hvec].
      unfold last_row. rewrite Forall_forall in Hvec. apply Hvec, nth_In.
      specialize (Htok s Hs). destruct (tokenize s); [contradiction|].
      cbn [length] in *. lia.
Qed.

Lemma single_token_rows (s : string) (i : nat) :
  length (tokenize s) = 1%nat -> (i < nlayers)%nat ->
  mean_row tokenize encode h i s = last_row tokenize encode i s.
Proof.
  intros Hone Hi.
  assert (Htok : tokenize s <> []) by (intros E; rewrite E in Hone; discriminate).
  destruct (encode_layer_shape Htok Hi) as [Hlen Hvec].
  unfold mean_row, last_row. rewrite Hone in *. cbn [Nat.sub].
  destruct (nth i (encode (tokenize s)) []) as [|v [|w rest]]; try discriminate.
  inversion Hvec as [|? ? Hv _]; subst. cbn [nth].
  rewrite <- (map_nth_seq 0 v) at 2. apply map_ext. intros j.
  unfold average, column. cbn [map Rsum fold_right length INR]. field.
Qed.

(** X25: under the contract of the model, for a positive batch size and
    at least one sentence, each with at least one token, the extractor
    returns one matrix per layer, keyed 0, 1, ... in this order, each of
    shape (number of sentences, hidden width), with either pooling. *)
Theorem layer_representation_shapes (sentences : list string) (batch_size : Z)
    (pool : Tensor3 -> Tensor2 Z -> result Tensor) :
  pool = mean_hidden_state \/ pool = last_token_hidden_state ->
  sentences <> [] ->
  Forall (fun s => tokenize s <> []) sentences ->
  (0 < batch_size)%Z ->
  exists rep,
    layer_representation tokenize pad_token_id model sentences batch_size pool = Ok rep /\
    map fst rep = seq 0 nlayers /\
    Forall (fun p => has_shape (snd p) (length sentences) h) rep.
Proof. apply layer_representation_table. Qed.

Lemma single_token_representation (sentences : list string) (batch_size : Z) :
  Forall (fun s => length (tokenize s) = 1%nat) sentences ->
  (0 < batch_size)%Z ->
  layer_representation tokenize pad_token_id model sentences batch_size mean_hidden_state =
  layer_representation tokenize pad_token_id model sentences batch_size
    last_token_hidden_state.
Proof.
  intros Hone Hbs.
  assert (Htok : Forall (fun s => tokenize s <> []) sentences).
  { eapply Forall_impl; [|exact Hone]. cbv beta. intros s Hs E.
    rewrite E in Hs. discriminate. }
  rewrite (layer_representation_sentences model_sequencewise mean_hidden_state
             (mean_row tokenize encode h)
             (@mean_hidden_state_batch _ _ _ _ _ _ model_sequencewise) Hbs Htok).
  rewrite (layer_representation_sentences model_sequencewise last_token_hidden_state
             (last_row tokenize encode)
             (@last_token_hidden_state_batch _ _ _ _ _ _ model_sequencewise) Hbs Htok).
  f_equal. unfold sentence_table. destruct sentences as [|s0 rest] eqn:E; [reflexivity|].
  rewrite <- E in *. apply map_ext_in. intros i Hi. apply in_seq in Hi.
  do 2 f_equal. apply map_ext_in. intros s Hs.
  rewrite Forall_forall in Hone. apply single_token_rows; [now apply Hone|lia].
Qed.

(** X26: when every sentence is a single token, mean pooling and
    last-token pooling give the same representation. *)
Theorem single_token_pooling_agrees (sentences : list string) (batch_size : Z) :
  Forall (fun s => length (tokenize s) = 1%nat) sentences ->
  (0 < batch_size)%Z ->
  layer_representation tokenize pad_token_id model sentences batch_size mean_hidden_state =
  layer_representation tokenize pad_token_id model sentences batch_size
    last_token_hidden_state.
Proof. apply single_token_representation. Qed.

End ExtractorProperties.

Lemma layer_representation_degenerate_witness :
  layer_representation char_tokenize 0 causal_model ["a"; "bc"]%string (-32)
    mean_hidden_state =
  Ok [].
Proof.
  apply (@layer_representation_degenerate char_tokenize 0%Z causal_model
           ["a"; "bc"]%string (-32) mean_hidden_state).
  right. lia.
Defined.

Lemma layer_representation_shapes_witness :
  exists rep,
    layer_representation char_tokenize 0 causal_model ["a"; "bc"; "def"]%string 2
      last_token_hidden_state = Ok rep /\
    map fst rep = seq 0 2 /\
    Forall (fun p => has_shape (snd p) 3 2) rep.
Proof.
  apply (@layer_representation_shapes char_tokenize 0%Z causal_model causal_encode 2 2
           causal_model_sequencewise ["a"; "bc"; "def"]%string 2 last_token_hidden_state).
  - now right.
  - discriminate.
  - repeat constructor; discriminate.
  - lia.
Defined.

Lemma single_token_pooling_agrees_witness :
  layer_representation char_tokenize 0 causal_model ["a"; "b"; "c"]%string 2
    mean_hidden_state =
  layer_representation char_tokenize 0 causal_model ["a"; "b"; "c"]%string 2
    last_token_hidden_state.
Proof.
  apply (@single_token_pooling_agrees char_tokenize 0%Z causal_model causal_encode 2 2
           causal_model_sequencewise ["a"; "b"; "c"]%string 2).
  - repeat constructor.
  - lia.
Defined.

(** ** The experiment: from the dataset to the plotted accuracies *)

Import WrPlot WrExperiment.

Section RunProperties.

#[local] Open Scope R_scope.

Lemma setitem_fresh (key : nat) (value : R) (d : list (nat * R)) :
  (forall q, In q d -> fst q <> key) ->
  setitem key value d = d ++ [(key, value)].
Proof.
  induction d as [|[k v] d IH]; intros Hfresh; [reflexivity|].
  cbn [setitem app]. destruct (Nat.eqb_spec k key) as [E|_].
  - exfalso. apply (Hfresh (k, v)); [now left|exact E].
  - f_equal. apply IH. intros q Hq. apply Hfresh. now right.
Qed.

Lemma getitem_layer_in (rep : list (nat * Tensor)) (key : nat) (t : Tensor) :
  NoDup (map fst rep) -> In (key, t) rep -> getitem_layer rep key = Done t.
Proof.
  induction rep as [|[k v] rep IH]; intros Hnd Hin; [destruct Hin|].
  cbn [map fst] in Hnd. inversion Hnd as [|? ? Hnotin Hnd']; subst.
  cbn [getitem_layer]. destruct Hin as [E|Hin].
  - injection E as -> ->. now rewrite Nat.eqb_refl.
  - destruct (Nat.eqb_spec k key) as [->|_].
    + exfalso. apply Hnotin. apply in_map_iff. now exists (key, t).
    + now apply IH.
Qed.

Lemma sorted_items_seq (accs : list R) : forall start : nat,
  sorted_items (combine (seq start (length accs)) accs) =
  combine (seq start (length accs)) accs.
Proof.
  unfold sorted_items.
  induction accs as [|a accs IH]; intros start; [reflexivity|].
  cbn [length seq combine fold_right]. rewrite IH.
  destruct accs as [|b accs]; [reflexivity|].
  cbn [length seq combine insert_item fst].
  destruct (Nat.leb_spec start (S start)); [reflexivity|lia].
Qed.

Lemma combine_seq_split (accs : list R) (start : nat) :
  map fst (combine (seq start (length accs)) accs) = seq start (length accs) /\
  map snd (combine (seq start (length accs)) accs) = accs.
Proof.
  revert start. induction accs as [|a accs IH]; intros start; [now split|].
  cbn [length seq combine map fst snd]. destruct (IH (S start)) as [-> ->]. now split.
Qed.

Lemma for_each_length {A B : Type} (f : A -> outcome B) (l : list A) :
  forall ys, for_each f l = Done ys -> length ys = length l.
Proof.
  induction l as [|x l IH]; intros ys H; cbn [for_each] in H.
  - injection H as <-. reflexivity.
  - destruct (f x) as [y|e]; [|discriminate]. cbn [and_then] in H.
    destruct (for_each f l) as [ys'|e]; [|discriminate]. cbn [and_then] in H.
    injection H as <-. cbn [length]. f_equal. now apply IH.
Qed.

Lemma traverse_length {A B : Type} (f : A -> result B) (l : list A) :
  forall ys, traverse f l = Ok ys -> length ys = length l.
Proof.
  induction l as [|x l IH]; intros ys H; cbn [traverse] in H.
  - injection H as <-. reflexivity.
  - destruct (f x) as [y|e]; [|discriminate]. cbn [bind] in H.
    destruct (traverse f l) as [ys'|e]; [|discriminate]. cbn [bind] in H.
    injection H as <-. cbn [length]. f_equal. now apply IH.
Qed.

Lemma layer_accuracy_unit_interval (score : Tensor) (n : nat) :
  has_shape score n n -> (0 < n)%nat ->
  exists a, layer_accuracy score = Ok a /\ 0 <= a <= 1.
Proof.
  intros Hs Hn. eexists. split; [exact (layer_accuracy_value Hs Hn)|].
  destruct Hs as (_ & _ & Hlen & _).
  pose proof (hit_rows_le (map argmax_list (rows score))) as Hle.
  rewrite length_map, Hlen in Hle. apply le_INR in Hle.
  assert (H0 : 0 <= INR (hit_rows (map argmax_list (rows score)))) by apply pos_INR.
  assert (Hpos : 0 < INR n) by (apply lt_0_INR; lia).
  split.
  - apply Rmult_le_pos; [assumption|]. left. now apply Rinv_0_lt_compat.
  - apply Rmult_le_reg_r with (r := INR n); [assumption|].
    unfold Rdiv. rewrite Rmult_assoc, Rinv_l by lra. lra.
Qed.

Lemma layer_accuracies_loop (margin_variant : string) (target_rep : list (nat * Tensor))
    (n h : nat) :
  NoDup (map fst target_rep) ->
  Forall (fun p => has_shape (snd p) n h) target_rep ->
  (0 < n)%nat ->
  forall (rest : list (nat * Tensor)) (start : nat) (d : list (nat * R)),
    map fst rest = seq start (length rest) ->
    (forall q, In q d -> (fst q < start)%nat) ->
    Forall (fun p => has_shape (snd p) n h) rest ->
    (forall p, In p rest -> In (fst p) (map fst target_rep)) ->
    exists accs,
      fold_left
        (fun acc p =>
           layer_acc <~ acc ;;
           second <~ getitem_layer target_rep (fst p) ;;
           score <~ lift (margin_based_scoring (snd p) second 4 margin_variant
                            (1 / 1000000)) ;;
           a <~ lift (layer_accuracy score) ;;
           Done (setitem (fst p) a layer_acc))
        rest (Done d) =
      Done (d ++ combine (seq start (length rest)) accs) /\
      length accs = length rest /\
      Forall (fun a => 0 <= a <= 1) accs.
Proof.
  intros Hnd Htshape Hn.
  induction rest as [|[k first] rest IH]; intros start d Hkeys Hd Hshape Hmem.
  - exists []. cbn. now rewrite app_nil_r.
  - cbn [map fst length seq] in Hkeys. injection Hkeys as Hk Hkeys. subst k.
    inversion Hshape as [|? ? Hfirst Hshape']; subst. cbn [snd] in Hfirst.
    destruct (proj1 (in_map_iff _ _ _) (Hmem (start, first) (or_introl eq_refl)))
      as ([k second] & Hkey & Hin).
    cbn [fst] in Hkey. subst k.
    assert (Hsecond : has_shape second n h).
    { rewrite Forall_forall in Htshape. exact (Htshape _ Hin). }
    destruct (@margin_based_scoring_core first second n n h 4 margin_variant
                (1 / 1000000) Hfirst Hsecond ltac:(lia))
      as (a0 & score & _ & _ & Hscore & Hsshape & _ & _).
    destruct (layer_accuracy_unit_interval Hsshape Hn) as (a & Ha & Hbound).
    destruct (IH (S start) (d ++ [(start, a)])) as (accs & Hfold & Hlen & Hall).
    + exact Hkeys.
    + intros q Hq. apply in_app_or in Hq as [Hq|[<-|[]]]; [|cbn; lia].
      specialize (Hd q Hq). lia.
    + exact Hshape'.
    + intros p Hp. apply Hmem. now right.
    + exists (a :: accs). split; [|split].
      * cbn [fold_left and_then fst snd].
        rewrite (@getitem_layer_in target_rep start second Hnd Hin). cbn [and_then].
        rewrite Hscore. cbn [lift and_then]. rewrite Ha. cbn [lift and_then].
        rewrite setitem_fresh
          by (intros q Hq; specialize (Hd q Hq); lia).
        rewrite Hfold. cbn [length seq combine]. now rewrite <- app_assoc.
      * cbn [length]. now rewrite Hlen.
      * now constructor.
Qed.

Section Pipeline.

Variable rng : Type.
Variable draw : rng -> nat -> nat -> list nat * rng.
Variable tokenize : string -> list Z.
Variable pad_token_id : Z.
Variable model : Tensor2 Z -> Tensor2 Z -> list Tensor3.
Variable ds : list sla_entry.

Lemma select_pairs_lengths (g g' : rng) (target_lang data : string) (size : Z)
    (base target : list string) :
  select_pairs draw tokenize ds g target_lang data size = (Ok (base, target), g') ->
  length base = length target.
Proof.
  unfold select_pairs, load_sla_word.
  set (f := filter _ ds).
  assert (Hlen : length (map eng f) = length (map word f)) by now rewrite !length_map.
  destruct (String.eqb data "single").
  - unfold filter_pairs.
    rewrite (@filter_pairs_loop_filter (fun w => length (tokenize w)) (map word f)
               (map eng f) (map word f) 0 [] [] eq_refl (Nat.eq_le_incl _ _ Hlen)).
    cbn [app]. intros H. injection H as <- <- _. now rewrite !length_map.
  - destruct (String.eqb data "sample").
    + unfold sample_pairs. rewrite Hlen, Nat.eqb_refl. cbn [negb].
      destruct (random_sample draw g (length (map word f)) _) as [[idx|e] g0];
        [|discriminate].
      destruct (traverse (getitem (map eng f)) idx) as [sb|e] eqn:Eb; [|discriminate].
      cbn [bind].
      destruct (traverse (getitem (map word f)) idx) as [st|e] eqn:Et; [|discriminate].
      cbn [bind]. intros H. injection H as <- <- _.
      now rewrite (traverse_length _ _ Eb), (traverse_length _ _ Et).
    + intros H. injection H as <- <- _. exact Hlen.
Qed.

Lemma layer_representation_nil (pool : Tensor3 -> Tensor2 Z -> result Tensor) :
  layer_representation tokenize pad_token_id model [] 32 pool = Ok [].
Proof. reflexivity. Qed.

(** X28: for a language without rows in the dataset the run never
    reaches a plot.  The model is never called; the run ends with the
    [ValueError] of [plot_layer_accuracy] on the empty dict, with a
    [NameError] when the global [MODEL] is not defined, and with the
    [ValueError] of [random.sample] when a negative sample size is
    requested. *)
Theorem run_experiment_without_rows (MODEL : option string) (g : rng)
    (target_lang data prompt hidden_base hidden_target margin_variant : string)
    (data_sample_size : Z) :
  sampler_contract draw ->
  filter (fun x => String.eqb (lang x) target_lang) ds = [] ->
  fst (run_experiment draw tokenize pad_token_id model ds MODEL g target_lang data prompt
         hidden_base hidden_target margin_variant data_sample_size) =
  Failed (if (negb (String.eqb data "single") && String.eqb data "sample" &&
              (data_sample_size <? 0)%Z)%bool
          then Exn ValueError
          else match MODEL with
               | None => NameError
               | Some _ => Exn ValueError
               end).
Proof.
  intros Hdraw Hrows.
  assert (Hend : forall pool pool' : Tensor3 -> Tensor2 Z -> result Tensor,
            (target <~ (if String.eqb prompt "few"
                        then few_shot_prompts target_lang [] else Done []) ;;
             base_rep <~ lift (layer_representation tokenize pad_token_id model [] 32 pool) ;;
             target_rep <~ lift (layer_representation tokenize pad_token_id model target 32
                                   pool') ;;
             layer_acc <~ layer_accuracies base_rep target_rep margin_variant ;;
             match MODEL with
             | None => Failed NameError
             | Some _ => lift (plot_layer_accuracy layer_acc)
             end) =
            Failed (match MODEL with
                    | None => NameError
                    | Some _ => Exn ValueError
                    end) :> outcome (list nat * list R)).
  { intros pool pool'.
    assert (Hp : (if String.eqb prompt "few"
                  then few_shot_prompts target_lang [] else Done []) = Done [])
      by (destruct (String.eqb prompt "few"); reflexivity).
    rewrite Hp. cbn [and_then]. rewrite !layer_representation_nil.
    cbn [lift and_then layer_accuracies fold_left].
    destruct MODEL; reflexivity. }
  unfold run_experiment, select_pairs, load_sla_word. rewrite Hrows. cbn [map].
  destruct (String.eqb data "single"); cbn [negb andb].
  - cbn [filter_pairs filter_pairs_loop fst snd lift and_then]. apply Hend.
  - destruct (String.eqb data "sample"); cbn [andb].
    + unfold sample_pairs, random_sample. cbn [length Nat.eqb negb].
      destruct (Z.ltb_spec data_sample_size 0) as [Hneg|Hpos].
      * replace (Z.min data_sample_size (Z.of_nat 0)) with data_sample_size by lia.
        replace (data_sample_size <? 0)%Z with true by (symmetry; apply Z.ltb_lt; lia).
        reflexivity.
      * replace (Z.min data_sample_size (Z.of_nat 0)) with 0%Z by lia.
        cbn [Z.ltb Z.compare orb Z.of_nat Z.to_nat].
        destruct (Hdraw g 0%nat 0%nat (Nat.le_refl 0)) as (Hlen & _ & _).
        destruct (draw g 0%nat 0%nat) as [idx g0]. cbn [fst] in Hlen.
        destruct idx; [|discriminate].
        cbn [traverse bind fst snd lift and_then]. apply Hend.
    + cbn [fst snd lift and_then]. apply Hend.
Qed.

(** X30: with the few-shot prompt, a target language that has no
    template makes the run fail with [KeyError] as soon as there is one
    target word, before the model is called. *)
Theorem run_experiment_few_shot_without_template (MODEL : option string) (g g' : rng)
    (target_lang data hidden_base hidden_target margin_variant : string)
    (data_sample_size : Z) (base target : list string) :
  target_lang <> "eus_Latn"%string ->
  target_lang <> "gle_Latn"%string ->
  target_lang <> "cmn_Hans"%string ->
  select_pairs draw tokenize ds g target_lang data data_sample_size =
    (Ok (base, target), g') ->
  target <> [] ->
  run_experiment draw tokenize pad_token_id model ds MODEL g target_lang data "few"
    hidden_base hidden_target margin_variant data_sample_size =
  (Failed KeyError, g').
Proof.
  intros H1 H2 H3 Hsel Hne. unfold run_experiment. rewrite Hsel.
  cbn [lift and_then fst snd].
  replace (String.eqb "few" "few") with true by reflexivity.
  destruct target as [|t target]; [contradiction|].
  unfold few_shot_prompts. cbn [for_each].
  unfold FEW_SHOT_TEMPLATE. cbn [getitem_str].
  apply not_eq_sym, String.eqb_neq in H1, H2, H3.
  rewrite H1, H2, H3. reflexivity.
Qed.

Variable encode : encoder.
Variables nlayers h : nat.

Hypothesis model_sequencewise : sequencewise tokenize pad_token_id model encode nlayers h.

Lemma pooling_by_name (name : string) :
  let pool := if String.eqb name "mean" then mean_hidden_state
              else last_token_hidden_state in
  pool = mean_hidden_state \/ pool = last_token_hidden_state.
Proof. cbv zeta. destruct (String.eqb name "mean"); [now left|now right]. Qed.

(** X27: under the contract of the model, when the data configuration
    selects at least one pair and every base word and every target
    sentence has at least one token, the run plots one accuracy per layer,
    for the layers 0, 1, ... in this order, each between 0 and 1. *)
Theorem run_experiment_plots_every_layer (name : string) (g g' : rng)
    (target_lang data prompt hidden_base hidden_target margin_variant : string)
    (data_sample_size : Z) (base target sentences : list string) :
  (0 < nlayers)%nat ->
  select_pairs draw tokenize ds g target_lang data data_sample_size =
    (Ok (base, target), g') ->
  (if String.eqb prompt "few" then few_shot_prompts target_lang target
   else Done target) = Done sentences ->
  base <> [] ->
  Forall (fun s => tokenize s <> []) base ->
  Forall (fun s => tokenize s <> []) sentences ->
  exists accs,
    run_experiment draw tokenize pad_token_id model ds (Some name) g target_lang data
      prompt hidden_base hidden_target margin_variant data_sample_size =
    (Done (seq 0 nlayers, accs), g') /\
    length accs = nlayers /\
    Forall (fun a => 0 <= a <= 1) accs.
Proof.
  intros HL Hsel Hprompt Hne Hbase Hsent.
  pose proof (select_pairs_lengths _ _ _ _ Hsel) as Hlen.
  assert (Hlen' : length sentences = length base).
  { rewrite Hlen. destruct (String.eqb prompt "few").
    - exact (for_each_length _ _ Hprompt).
    - now injection Hprompt as <-. }
  assert (Hne' : sentences <> []).
  { intros E. rewrite E in Hlen'. destruct base; [contradiction|discriminate]. }
  destruct (@layer_representation_table tokenize pad_token_id model encode nlayers h
              model_sequencewise base 32 _ (pooling_by_name hidden_base) Hne Hbase
              ltac:(lia)) as (base_rep & Hb & Hbkeys & Hbshape).
  destruct (@layer_representation_table tokenize pad_token_id model encode nlayers h
              model_sequencewise sentences 32 _ (pooling_by_name hidden_target) Hne' Hsent
              ltac:(lia)) as (target_rep & Ht & Htkeys & Htshape).
  rewrite Hlen' in Htshape.
  assert (Hbl : length base_rep = nlayers).
  { rewrite <- (length_map fst base_rep), Hbkeys. apply length_seq. }
  assert (Hn : (0 < length base)%nat) by (destruct base; [contradiction|cbn; lia]).
  destruct (@layer_accuracies_loop margin_variant target_rep (length base) h
              ltac:(rewrite Htkeys; apply seq_NoDup) Htshape Hn base_rep 0%nat [])
    as (accs & Hloop & Hal & Hall).
  - now rewrite Hbl.
  - intros q [].
  - exact Hbshape.
  - intros p Hp. rewrite Htkeys, <- Hbkeys. now apply in_map.
  - exists accs. rewrite Hbl in Hal, Hloop. split; [|now split].
    unfold run_experiment. rewrite Hsel. cbn [lift and_then fst snd].
    rewrite Hprompt. cbn [and_then]. rewrite Hb, Ht. cbn [lift and_then].
    unfold layer_accuracies. rewrite Hloop. cbn [app and_then].
    f_equal. unfold plot_layer_accuracy.
    rewrite <- Hal. rewrite sorted_items_seq.
    destruct (combine_seq_split accs 0) as [Hf Hs].
    destruct (combine (seq 0 (length accs)) accs) as [|q rest] eqn:E.
    + exfalso. destruct accs; [cbn in Hal; lia|discriminate].
    + cbv zeta. now rewrite Hf, Hs.
Qed.

Lemma filtered_single_tokens (base target : list string) :
  Forall (fun s => length (tokenize s) = 1%nat)
    (map fst (single_token_pairs (fun w => length (tokenize w)) base target)) /\
  Forall (fun s => length (tokenize s) = 1%nat)
    (map snd (single_token_pairs (fun w => length (tokenize w)) base target)).
Proof.
  unfold single_token_pairs.
  split; apply Forall_forall; intros s Hs; apply in_map_iff in Hs as (p & <- & Hp);
    apply filter_In in Hp as [_ Hp]; apply andb_prop in Hp as [Hp1 Hp2].
  - now apply Nat.eqb_eq.
  - now apply Nat.eqb_eq.
Qed.

Lemma single_token_pool_choice (sentences : list string) (name : string) :
  Forall (fun s => length (tokenize s) = 1%nat) sentences ->
  layer_representation tokenize pad_token_id model sentences 32
    (if String.eqb name "mean" then mean_hidden_state else last_token_hidden_state) =
  layer_representation tokenize pad_token_id model sentences 32 mean_hidden_state.
Proof.
  intros Hone. destruct (String.eqb name "mean"); [reflexivity|]. symmetry.
  apply (@single_token_representation tokenize pad_token_id model encode nlayers h
           model_sequencewise sentences 32 Hone). lia.
Qed.

(** X29: under the contract of the model, with the data configuration
    "single" and without the few-shot prompt, the choice of the pooling
    for the base and for the target words does not change the outcome of
    the run. *)
Theorem run_experiment_single_ignores_pooling (MODEL : option string) (g : rng)
    (target_lang prompt margin_variant : string) (data_sample_size : Z)
    (hidden_base hidden_target hidden_base' hidden_target' : string) :
  String.eqb prompt "few" = false ->
  run_experiment draw tokenize pad_token_id model ds MODEL g target_lang "single" prompt
    hidden_base hidden_target margin_variant data_sample_size =
  run_experiment draw tokenize pad_token_id model ds MODEL g target_lang "single" prompt
    hidden_base' hidden_target' margin_variant data_sample_size.
Proof.
  intros Hprompt. unfold run_experiment, select_pairs, load_sla_word.
  set (f := filter _ ds).
  assert (Hlen : length (map eng f) = length (map word f)) by now rewrite !length_map.
  replace (String.eqb "single" "single") with true by reflexivity.
  unfold filter_pairs.
  rewrite (@filter_pairs_loop_filter (fun w => length (tokenize w)) (map word f)
             (map eng f) (map word f) 0 [] [] eq_refl (Nat.eq_le_incl _ _ Hlen)).
  cbn [app lift and_then fst snd]. rewrite Hprompt. cbn [and_then].
  destruct (filtered_single_tokens (map eng f) (map word f)) as [Hb Ht].
  rewrite (single_token_pool_choice hidden_base Hb),
          (single_token_pool_choice hidden_base' Hb).
  destruct (layer_representation tokenize pad_token_id model _ 32 mean_hidden_state)
    as [base_rep|e]; [|reflexivity].
  cbn [lift and_then].
  rewrite (single_token_pool_choice hidden_target Ht),
          (single_token_pool_choice hidden_target' Ht).
  reflexivity.
Qed.

End Pipeline.

End RunProperties.

Lemma run_experiment_without_rows_witness :
  fst (run_experiment countdown_draw char_tokenize 0 causal_model sla_rows (Some "m"%string)
         0%nat "gle_Latn" "full" "few" "mean" "last" "ratio" 100) =
  Failed (Exn ValueError).
Proof.
  apply (@run_experiment_without_rows nat countdown_draw char_tokenize 0%Z causal_model
           sla_rows (Some "m"%string) 0%nat "gle_Latn" "full" "few" "mean" "last" "ratio" 100).
  - exact countdown_draw_contract.
  - reflexivity.
Defined.

Lemma run_experiment_few_shot_without_template_witness :
  run_experiment countdown_draw char_tokenize 0 causal_model sla_rows (Some "m"%string)
    0%nat "gle" "full" "few" "mean" "mean" "ratio" 100 =
  (Failed KeyError, 0%nat).
Proof.
  apply (@run_experiment_few_shot_without_template nat countdown_draw char_tokenize 0%Z
           causal_model sla_rows (Some "m"%string) 0%nat 0%nat "gle" "full" "mean" "mean"
           "ratio" 100 ["and"; "on"; "woman"]%string ["agus"; "ar"; "bean"]%string).
  - discriminate.
  - discriminate.
  - discriminate.
  - reflexivity.
  - discriminate.
Defined.

Lemma run_experiment_plots_every_layer_witness :
  exists accs,
    run_experiment countdown_draw char_tokenize 0 causal_model sla_rows (Some "m"%string)
      0%nat "gle" "full" "zero" "mean" "last" "ratio" 100 =
    (Done (seq 0 2, accs), 0%nat) /\
    length accs = 2%nat /\
    Forall (fun a => (0 <= a <= 1)%R) accs.
Proof.
  apply (@run_experiment_plots_every_layer nat countdown_draw char_tokenize 0%Z
           causal_model sla_rows causal_encode 2 2 causal_model_sequencewise
           "m"%string 0%nat 0%nat "gle" "full" "zero" "mean" "last" "ratio" 100
           ["and"; "on"; "woman"]%string ["agus"; "ar"; "bean"]%string
           ["agus"; "ar"; "bean"]%string).
  - lia.
  - reflexivity.
  - reflexivity.
  - discriminate.
  - repeat constructor; discriminate.
  - repeat constructor; discriminate.
Defined.

Lemma run_experiment_single_ignores_pooling_witness :
  run_experiment countdown_draw char_tokenize 0 causal_model letter_rows (Some "m"%string)
    0%nat "gle" "single" "zero" "mean" "last" "ratio" 100 =
  run_experiment countdown_draw char_tokenize 0 causal_model letter_rows (Some "m"%string)
    0%nat "gle" "single" "zero" "last" "mean" "ratio" 100.
Proof.
  apply (@run_experiment_single_ignores_pooling nat countdown_draw char_tokenize 0%Z
           causal_model letter_rows causal_encode 2 2 causal_model_sequencewise
           (Some "m"%string) 0%nat "gle" "zero" "ratio" 100 "mean" "last" "last" "mean").
  reflexivity.
Defined.
